(** * Stepper pulse schedule compression (klippy/chelper/stepcompress.c)

    A shallow embedding of the host side step compressor: the integer
    helpers, the least-squares compressor, the move checker, the
    stepcompress interface (append, commit, flush, history) and the
    steppersync merge.

    Conventions.  A C integer of width w is a [Z] kept in the range of its
    type; every operation that may leave the range is followed by the
    wrap-around of the destination type ([u32], [s32], [u16], [s16],
    [u64], [s64]); signed overflow, undefined in C, wraps as well.  Integer
    division is C's (truncation toward zero, [Z.quot]); a division by zero
    yields 0.  A [double] is a binary64 primitive float.  A pointer into
    the step queue is the index of its cell.  A function that can return
    [ERROR_RET] returns a [result]; a [for (;;)] or [while] loop is a
    [Fixpoint] on a number of passes it cannot use up (section "The loops
    and their fuel"). *)

From Stdlib Require Import ZArith Lia Bool List QArith Qround Sorted.
From Stdlib Require Import Floats.
From stdpp Require Import base list.

Local Open Scope Z_scope.

(** ** Machine integers *)

Module CInt.

Definition wrap (w x : Z) : Z := x mod 2 ^ w.
Definition swrap (w x : Z) : Z := (x + 2 ^ (w - 1)) mod 2 ^ w - 2 ^ (w - 1).

Definition u16 : Z -> Z := wrap 16.
Definition s16 : Z -> Z := swrap 16.
Definition u32 : Z -> Z := wrap 32.
Definition s32 : Z -> Z := swrap 32.
Definition u64 : Z -> Z := wrap 64.
Definition s64 : Z -> Z := swrap 64.

Definition INT32_MIN : Z := - 2 ^ 31.
Definition INT32_MAX : Z := 2 ^ 31 - 1.
Definition UINT64_MAX : Z := 2 ^ 64 - 1.

(** [a / b] on [int32_t]. *)
Definition sdiv32 (a b : Z) : Z := s32 (Z.quot a b).

End CInt.
Import CInt.

(** ** Rounding division helpers *)

(** Modelled from the spec: [DIV_ROUND_UP] comes from compiler.h, which is
    not among the sources; it is the usual [((n) + (d) - 1) / (d)], here on
    [int32_t] operands. *)
Definition DIV_ROUND_UP (n d : Z) : Z := sdiv32 (s32 (s32 (n + d) - 1)) d.

(** Helper function returning n/d while rounding up and supporting signed n *)
Definition idiv_up (n d : Z) : Z :=
  if n >=? 0 then DIV_ROUND_UP n d else sdiv32 n d.

(** Helper function returning n/d while rounding down and supporting signed n *)
Definition idiv_down (n d : Z) : Z :=
  if n >=? 0 then sdiv32 n d else sdiv32 (s32 (s32 (n - d) + 1)) d.

(** ** Doubles

    A [double] operation is the IEEE 754 binary64 one, rounded to nearest
    (no extended precision, no fused multiply-add).  This module holds the
    conversions between integers and [double] that the C code leaves
    implicit.  A conversion of a double outside the range of the integer
    type is undefined in C; the model fixes the result the x86-64 code
    produces (the "integer indefinite" value), so that every function
    stays total. *)

Module CDouble.

Definition double := float.

(** The integer part (truncation toward zero) of a finite double. *)
Definition trunc_Z (x : double) : option Z :=
  match Prim2SF x with
  | S754_zero _ => Some 0
  | S754_finite s m e =>
      let v := if 0 <=? e then Zpos m * 2 ^ e else Zpos m / 2 ^ (- e) in
      Some (if s then - v else v)
  | S754_infinity _ | S754_nan => None
  end.

(** [(double)x] for [uint64_t x] (round to nearest): above [2^63] the
    value is halved with a sticky low bit and doubled back, which rounds as
    the direct conversion does. *)
Definition of_u64 (z : Z) : double :=
  if z <? 2 ^ 63 then PrimFloat.of_uint63 (Uint63.of_Z z)
  else
    PrimFloat.mul
      (PrimFloat.of_uint63 (Uint63.of_Z (Z.lor (Z.shiftr z 1) (Z.land z 1))))
      2%float.

(** [(double)x] for a signed integer [x] of at most 64 bits. *)
Definition of_Z (z : Z) : double :=
  if z <? 0 then PrimFloat.opp (of_u64 (- z)) else of_u64 z.

(** [(int32_t)x] *)
Definition to_s32 (x : double) : Z :=
  match trunc_Z x with
  | Some v => if (INT32_MIN <=? v) && (v <=? INT32_MAX) then v else INT32_MIN
  | None => INT32_MIN
  end.

(** [(int64_t)x] *)
Definition to_s64 (x : double) : Z :=
  match trunc_Z x with
  | Some v => if (- 2 ^ 63 <=? v) && (v <? 2 ^ 63) then v else - 2 ^ 63
  | None => - 2 ^ 63
  end.

(** [(uint64_t)x] *)
Definition to_u64 (x : double) : Z :=
  if PrimFloat.ltb x (of_Z (2 ^ 62) * 2)%float then u64 (to_s64 x)
  else Z.lxor (u64 (to_s64 (x - of_Z (2 ^ 62) * 2)%float)) (2 ^ 63).

(** [round(x)] of math.h: to the nearest integer, halves away from zero. *)
Definition round (x : double) : double :=
  match trunc_Z x with
  | None => x
  | Some t =>
      if (2 ^ 52 <=? Z.abs t) || PrimFloat.eqb x 0 then x
      else
        let ft := of_Z t in
        let d := (x - ft)%float in
        let r :=
          if PrimFloat.leb 0.5 d then (ft + 1)%float
          else if PrimFloat.leb d (-0.5) then (ft - 1)%float
          else ft in
        if PrimFloat.ltb x 0 then PrimFloat.opp (PrimFloat.abs r) else r
  end.

Definition DBL_MAX : double := 0x1.fffffffffffffp+1023%float.

End CDouble.
Import CDouble.

(** ** Data *)

(** A function that reports an error returns [ERROR_RET]; the only error
    raised in this file is the rejected move of [check_line]. *)
Inductive error : Type := InvalidMove.

Inductive result (A : Type) : Type :=
| Ok (a : A)
| Err (e : error).
Arguments Ok {A} a.
Arguments Err {A} e.

Definition bind {A B : Type} (r : result A) (k : A -> result B) : result B :=
  match r with
  | Ok a => k a
  | Err e => Err e
  end.

Declare Scope result_scope.
Delimit Scope result_scope with result.
Notation "'do' x <- r ; k" := (bind r (fun x => k))
  (at level 10, x name, r at level 100, k at level 200) : result_scope.
Local Open Scope result_scope.

Definition QUEUE_START_SIZE : Z := 1024.
Definition HISTORY_EXPIRE : double := 30%float.
(** Maximium clock delta between messages in the queue *)
Definition CLOCK_DIFF_MAX : Z := Z.shiftl 3 28.

Record step_move : Type := mk_step_move {
  interval : Z;   (* uint32_t *)
  count : Z;      (* uint16_t *)
  add : Z         (* int16_t *)
}.

Record history_steps : Type := mk_history_steps {
  first_clock : Z;      (* uint64_t *)
  last_clock : Z;       (* uint64_t *)
  start_position : Z;   (* int64_t *)
  step_count : Z;       (* int *)
  hs_interval : Z;      (* int *)
  hs_add : Z            (* int *)
}.

(** Modelled from the spec: [struct queue_message] and
    [message_alloc_and_encode] belong to serialqueue, which is not among
    the sources.  A message is the tuple of 32-bit words handed to the
    encoder together with its two clocks; a fresh message has both clocks
    zero ("simple commands have min_clock = 0"). *)
Record queue_message : Type := mk_queue_message {
  msg : list Z;
  min_clock : Z;   (* uint64_t *)
  req_clock : Z    (* uint64_t *)
}.

Definition message_alloc_and_encode (data : list Z) : queue_message :=
  mk_queue_message (map u32 data) 0 0.

Record stepcompress : Type := mk_stepcompress {
  (* Buffer management: the allocated block, whose length is
     queue_end - queue, and the two cursors as indices into it *)
  queue : list Z;
  queue_pos : Z;
  queue_next : Z;
  (* Internal tracking *)
  max_error : Z;
  mcu_time_offset : double;
  mcu_freq : double;
  last_step_print_time : double;
  last_interval : Z;
  last_ideal_step_clock : Z;
  (* Message generation *)
  last_step_clock : Z;
  msg_queue : list queue_message;
  oid : Z;
  queue_step_msgtag : Z;
  set_next_step_dir_msgtag : Z;
  sdir : Z;
  invert_sdir : Z;
  (* Step+dir+step filter *)
  next_step_clock : Z;
  next_step_dir : Z;
  (* History tracking *)
  last_position : Z;
  history_list : list history_steps
}.

Definition queue_end (sc : stepcompress) : Z := Z.of_nat (length (queue sc)).

(** Field updates. *)
Section Setters.
Variable sc : stepcompress.

Definition with_queue (q : list Z) (pos next : Z) : stepcompress :=
  mk_stepcompress q pos next
    (max_error sc) (mcu_time_offset sc) (mcu_freq sc) (last_step_print_time sc)
    (last_interval sc) (last_ideal_step_clock sc) (last_step_clock sc)
    (msg_queue sc) (oid sc) (queue_step_msgtag sc)
    (set_next_step_dir_msgtag sc) (sdir sc) (invert_sdir sc)
    (next_step_clock sc) (next_step_dir sc) (last_position sc)
    (history_list sc).

Definition with_fill (me qtag dtag : Z) : stepcompress :=
  mk_stepcompress (queue sc) (queue_pos sc) (queue_next sc)
    me (mcu_time_offset sc) (mcu_freq sc) (last_step_print_time sc)
    (last_interval sc) (last_ideal_step_clock sc) (last_step_clock sc)
    (msg_queue sc) (oid sc) qtag dtag (sdir sc) (invert_sdir sc)
    (next_step_clock sc) (next_step_dir sc) (last_position sc)
    (history_list sc).

Definition with_time (off freq : double) : stepcompress :=
  mk_stepcompress (queue sc) (queue_pos sc) (queue_next sc)
    (max_error sc) off freq (last_step_print_time sc)
    (last_interval sc) (last_ideal_step_clock sc) (last_step_clock sc)
    (msg_queue sc) (oid sc) (queue_step_msgtag sc)
    (set_next_step_dir_msgtag sc) (sdir sc) (invert_sdir sc)
    (next_step_clock sc) (next_step_dir sc) (last_position sc)
    (history_list sc).

Definition with_print_time (t : double) (h : list history_steps)
  : stepcompress :=
  mk_stepcompress (queue sc) (queue_pos sc) (queue_next sc)
    (max_error sc) (mcu_time_offset sc) (mcu_freq sc) t
    (last_interval sc) (last_ideal_step_clock sc) (last_step_clock sc)
    (msg_queue sc) (oid sc) (queue_step_msgtag sc)
    (set_next_step_dir_msgtag sc) (sdir sc) (invert_sdir sc)
    (next_step_clock sc) (next_step_dir sc) (last_position sc) h.

Definition with_last_interval (i : Z) : stepcompress :=
  mk_stepcompress (queue sc) (queue_pos sc) (queue_next sc)
    (max_error sc) (mcu_time_offset sc) (mcu_freq sc) (last_step_print_time sc)
    i (last_ideal_step_clock sc) (last_step_clock sc)
    (msg_queue sc) (oid sc) (queue_step_msgtag sc)
    (set_next_step_dir_msgtag sc) (sdir sc) (invert_sdir sc)
    (next_step_clock sc) (next_step_dir sc) (last_position sc)
    (history_list sc).

Definition with_last_ideal_step_clock (c : Z) : stepcompress :=
  mk_stepcompress (queue sc) (queue_pos sc) (queue_next sc)
    (max_error sc) (mcu_time_offset sc) (mcu_freq sc) (last_step_print_time sc)
    (last_interval sc) c (last_step_clock sc)
    (msg_queue sc) (oid sc) (queue_step_msgtag sc)
    (set_next_step_dir_msgtag sc) (sdir sc) (invert_sdir sc)
    (next_step_clock sc) (next_step_dir sc) (last_position sc)
    (history_list sc).

Definition with_last_step_clock (c : Z) : stepcompress :=
  mk_stepcompress (queue sc) (queue_pos sc) (queue_next sc)
    (max_error sc) (mcu_time_offset sc) (mcu_freq sc) (last_step_print_time sc)
    (last_interval sc) (last_ideal_step_clock sc) c
    (msg_queue sc) (oid sc) (queue_step_msgtag sc)
    (set_next_step_dir_msgtag sc) (sdir sc) (invert_sdir sc)
    (next_step_clock sc) (next_step_dir sc) (last_position sc)
    (history_list sc).

Definition with_msg_queue (q : list queue_message) : stepcompress :=
  mk_stepcompress (queue sc) (queue_pos sc) (queue_next sc)
    (max_error sc) (mcu_time_offset sc) (mcu_freq sc) (last_step_print_time sc)
    (last_interval sc) (last_ideal_step_clock sc) (last_step_clock sc)
    q (oid sc) (queue_step_msgtag sc)
    (set_next_step_dir_msgtag sc) (sdir sc) (invert_sdir sc)
    (next_step_clock sc) (next_step_dir sc) (last_position sc)
    (history_list sc).

Definition with_sdir (d inv : Z) : stepcompress :=
  mk_stepcompress (queue sc) (queue_pos sc) (queue_next sc)
    (max_error sc) (mcu_time_offset sc) (mcu_freq sc) (last_step_print_time sc)
    (last_interval sc) (last_ideal_step_clock sc) (last_step_clock sc)
    (msg_queue sc) (oid sc) (queue_step_msgtag sc)
    (set_next_step_dir_msgtag sc) d inv
    (next_step_clock sc) (next_step_dir sc) (last_position sc)
    (history_list sc).

Definition with_next_step (c d : Z) : stepcompress :=
  mk_stepcompress (queue sc) (queue_pos sc) (queue_next sc)
    (max_error sc) (mcu_time_offset sc) (mcu_freq sc) (last_step_print_time sc)
    (last_interval sc) (last_ideal_step_clock sc) (last_step_clock sc)
    (msg_queue sc) (oid sc) (queue_step_msgtag sc)
    (set_next_step_dir_msgtag sc) (sdir sc) (invert_sdir sc)
    c d (last_position sc) (history_list sc).

Definition with_history (p : Z) (h : list history_steps) : stepcompress :=
  mk_stepcompress (queue sc) (queue_pos sc) (queue_next sc)
    (max_error sc) (mcu_time_offset sc) (mcu_freq sc) (last_step_print_time sc)
    (last_interval sc) (last_ideal_step_clock sc) (last_step_clock sc)
    (msg_queue sc) (oid sc) (queue_step_msgtag sc)
    (set_next_step_dir_msgtag sc) (sdir sc) (invert_sdir sc)
    (next_step_clock sc) (next_step_dir sc) p h.

End Setters.

(** [q[i]]: the cell at index [i] of the block.  A read outside the block
    is undefined in C and yields 0 here. *)
Definition peek (q : list Z) (i : Z) : Z :=
  if i <? 0 then 0 else default 0 (q !! Z.to_nat i).

(** [q[i] = v].  A write outside the block is undefined in C and is
    dropped here. *)
Definition poke (q : list Z) (i v : Z) : list Z :=
  if i <? 0 then q else <[Z.to_nat i := v]> q.

(** ** Step compression *)

(** Store a limited 'queue_step' schedule based on just 'add' and 'count' *)
Record add_move_s : Type := mk_add_move {
  am_add : Z;     (* int32_t *)
  am_count : Z    (* int32_t *)
}.

(** Store a mutable reference to the stepcompress step queue.  The [sc]
    pointer of the C struct is the [stepcompress] argument of the functions
    below. *)
Record queue_ref : Type := mk_queue_ref {
  qr_queue_pos : Z;
  qr_queue_end : Z;
  qr_last_step_clock : Z;         (* uint64_t *)
  qr_last_ideal_step_clock : Z;   (* uint64_t *)
  qr_last_interval : Z            (* uint32_t *)
}.

(** Storage for the maximum and minimum range a step may be scheduled at *)
Record points : Type := mk_points {
  minp : Z;   (* int32_t *)
  maxp : Z    (* int32_t *)
}.

(** Store the minimum and maximum "add" a queue_step may schedule *)
Record add_range : Type := mk_add_range {
  ar_minadd : Z;
  ar_maxadd : Z;
  ar_count : Z
}.

(** [n*(n+1)/2] and [n*(n-1)/2] on [int32_t]. *)
Definition tri_up (n : Z) : Z := sdiv32 (s32 (n * (n + 1))) 2.
Definition tri_down (n : Z) : Z := sdiv32 (s32 (n * (n - 1))) 2.

(** Initialize a 'struct queue_ref' *)
Definition qr_init (sc : stepcompress) (max_count : Z) : queue_ref :=
  let qend :=
    if queue_next sc >? queue_pos sc + max_count
    then queue_pos sc + max_count else queue_next sc in
  mk_queue_ref (queue_pos sc) qend (last_step_clock sc)
    (last_ideal_step_clock sc) (last_interval sc).

(** Generate a 'struct queue_ref' state after a 'struct add_move' is scheduled *)
Definition qr_after_move (sc : stepcompress) (oqr : queue_ref)
    (am : add_move_s) : queue_ref :=
  let add := am_add am in
  let count := am_count am in
  let addfactor := tri_up count in
  let lsc := qr_last_step_clock oqr in
  mk_queue_ref
    (qr_queue_pos oqr + count)
    (qr_queue_end oqr)
    (u64 (lsc + u32 (qr_last_interval oqr * count + addfactor * add)))
    (u64 (u32 (peek (queue sc) (qr_queue_pos oqr + count - 1) - u32 lsc) + lsc))
    (u32 (qr_last_interval oqr + count * add)).

(** Given a requested step time, return the minimum and maximum
    acceptable times *)
Definition minmax_point (sc : stepcompress) (qr : queue_ref) (pos : Z)
  : points :=
  let lsc := u32 (qr_last_step_clock qr) in
  let point := u32 (peek (queue sc) pos - lsc) in
  let prevpoint :=
    if pos >? qr_queue_pos qr then u32 (peek (queue sc) (pos - 1) - lsc)
    else 0 in
  let max_error0 := Z.quot (u32 (point - prevpoint)) 2 in
  let max_error1 :=
    if max_error0 >? max_error sc then max_error sc else max_error0 in
  mk_points (s32 (point - max_error1)) (s32 point).

(** Initialize a 'struct add_range' *)
Definition add_range_init : add_range := mk_add_range (- 0x8000) 0x7fff 0.

(** Add a step to a 'struct add_range' if possible ([None] is the C
    function's -1) *)
Definition add_range_update (sc : stepcompress) (ar : add_range)
    (qr : queue_ref) : option add_range :=
  if qr_queue_pos qr + ar_count ar >=? qr_queue_end qr then None
  else
    let nextpoint := minmax_point sc qr (qr_queue_pos qr + ar_count ar) in
    (* Check if can extend sequence *)
    let nextcount := s32 (ar_count ar + 1) in
    let nextaddfactor := tri_up nextcount in
    let interval := s32 (qr_last_interval qr) in
    let minadd := ar_minadd ar in
    let maxadd := ar_maxadd ar in
    let nextminadd :=
      if s32 (interval * nextcount + minadd * nextaddfactor) <? minp nextpoint
      then idiv_up (s32 (minp nextpoint - interval * nextcount)) nextaddfactor
      else minadd in
    let nextmaxadd :=
      if s32 (interval * nextcount + maxadd * nextaddfactor) >? maxp nextpoint
      then idiv_down (s32 (maxp nextpoint - interval * nextcount)) nextaddfactor
      else maxadd in
    if nextminadd >? nextmaxadd then None
    else Some (mk_add_range nextminadd nextmaxadd nextcount).

(** The [for (;;)] of [add_range_scan].  Every pass that does not return
    moves one cell closer to [queue_end]; [fuel] is the number of cells
    left, so the pass that finds it spent has already returned. *)
Fixpoint add_range_scan_loop (fuel : nat) (sc : stepcompress)
    (ar : add_range) (qr : queue_ref) : add_range :=
  match add_range_update sc ar qr with
  | None => ar
  | Some ar' =>
      match fuel with
      | O => ar'
      | S fuel' => add_range_scan_loop fuel' sc ar' qr
      end
  end.

Definition cells_left (qr : queue_ref) : nat :=
  Z.to_nat (qr_queue_end qr - qr_queue_pos qr).

(** Find the longest valid 'struct add_range' schedule *)
Definition add_range_scan (sc : stepcompress) (qr : queue_ref) : add_range :=
  add_range_scan_loop (cells_left qr) sc add_range_init qr.

(** Calculate the "ideal interval" - the ticks since the last ideal step time *)
Definition ideal_interval (sc : stepcompress) (qr : queue_ref) (pos : Z) : Z :=
  if pos >? qr_queue_pos qr
  then s32 (peek (queue sc) pos - peek (queue sc) (pos - 1))
  else s32 (peek (queue sc) pos - u32 (qr_last_ideal_step_clock qr)).

(** Calculate the step time after an add1,count1 and add2,count2 schedule *)
Definition calc_seq (qr : queue_ref) (add1 add2 c1 tc : Z) : Z :=
  let ad := s32 (add1 - add2) in
  let addfactor := tri_up tc in
  let paddfactor := tri_down c1 in
  s32 (qr_last_interval qr * tc + add2 * addfactor
       + ad * (c1 * tc - paddfactor)).

(** *** Least squares

    The "leastsquares" compression code attempts to find a valid
    add1,count1 sequence that maximizes the "total reach" of a
    subsequent add2,count2 sequence (maximize count1+count2). *)

(** The running sums of [calc_leastsquares] together with its best
    candidate so far. *)
Record lsq : Type := mk_lsq {
  var_ac1 : double;
  var_ac2 : double;
  cov_ac1_ac2 : double;
  cov_ac1_aii : double;
  cov_ac2_aii : double;
  condsum_aii : double;
  best_e2 : double;
  best : add_move_s
}.

Local Open Scope float_scope.

(** Setup initial least squares variance and covariance values: the pass
    of the first [for] loop for [step], on the triple
    (cov_ac2_aii, var_ac2, sum_aii). *)
Definition lsq_setup_step (sc : stepcompress) (qr : queue_ref)
    (acc : double * double * double) (step : Z) : double * double * double :=
  let '(cov2, var2, sum) := acc in
  let want_interval := ideal_interval sc qr (qr_queue_pos qr + step - 1)%Z in
  let aii := s32 (want_interval - qr_last_interval qr) in
  let dac2 := of_Z step in
  let daii := of_Z aii in
  (cov2 + dac2 * daii, var2 + dac2 * dac2, sum + daii).

Fixpoint lsq_setup (n : nat) (sc : stepcompress) (qr : queue_ref)
    (step : Z) (acc : double * double * double) : double * double * double :=
  match n with
  | O => acc
  | S n' => lsq_setup n' sc qr (step + 1)%Z (lsq_setup_step sc qr acc step)
  end.

(** One pass of the [for (;;)] of [calc_leastsquares], after
    [add_range_update] accepted [ar]. *)
Definition lsq_step (sc : stepcompress) (qr : queue_ref) (totalcount : Z)
    (ar : add_range) (st : lsq) : lsq :=
  let count1 := ar_count ar in
  (* Update leastsquares with new count1 *)
  let want_interval := ideal_interval sc qr (qr_queue_pos qr + count1 - 1)%Z in
  let aii := s32 (want_interval - qr_last_interval qr) in
  let cov_ac2_aii := cov_ac2_aii st - condsum_aii st in
  let cov_ac1_aii := cov_ac1_aii st + condsum_aii st in
  let condsum_aii := condsum_aii st - of_Z aii in
  let pc2 := s32 (totalcount - count1 + 1) in
  let paf := tri_up pc2 in
  let va_diff := s32 (pc2 * pc2) in
  let caa_diff := s32 (paf - count1 * pc2) in
  let cov_ac1_ac2 := cov_ac1_ac2 st + of_Z caa_diff in
  let var_ac2 := var_ac2 st - of_Z va_diff in
  let var_ac1 := var_ac1 st + of_Z (s32 (va_diff - 2 * caa_diff)) in
  let st' :=
    mk_lsq var_ac1 var_ac2 cov_ac1_ac2 cov_ac1_aii cov_ac2_aii condsum_aii
      (best_e2 st) (best st) in
  (* Calculate add1 and constrain to valid range *)
  let dadd2 :=
    if (count1 <? totalcount)%Z then
      let determinant := var_ac1 * var_ac2 - cov_ac1_ac2 * cov_ac1_ac2 in
      let v := var_ac1 * cov_ac2_aii - cov_ac1_ac2 * cov_ac1_aii in
      round (v / determinant)
    else 0 in
  let dadd1 := round ((cov_ac1_aii - dadd2 * cov_ac1_ac2) / var_ac1) in
  let add1 := to_s32 dadd1 in
  let add1 := if (add1 >? ar_maxadd ar)%Z then ar_maxadd ar else add1 in
  let add1 := if (add1 <? ar_minadd ar)%Z then ar_minadd ar else add1 in
  let dadd1 := of_Z add1 in
  (* Recalculate add2 and make sure fits in last step range *)
  let dadd2 :=
    if (count1 <? totalcount)%Z
    then round ((cov_ac2_aii - dadd1 * cov_ac1_ac2) / var_ac2)
    else dadd2 in
  let add2 := to_s32 dadd2 in
  let lastr := minmax_point sc qr (qr_queue_pos qr + totalcount - 1)%Z in
  let lastp := calc_seq qr add1 add2 count1 totalcount in
  let count2 := s32 (totalcount - count1) in
  let af := tri_up count2 in
  let fit : option Z :=
    if (lastp <? minp lastr)%Z then
      if (s32 (lastp + af) >? maxp lastr)%Z then None
      else Some (s32 (add2 + DIV_ROUND_UP (s32 (minp lastr - lastp)) af))
    else if (lastp >? maxp lastr)%Z then
      if (s32 (lastp - af) <? minp lastr)%Z then None
      else Some (s32 (add2 - DIV_ROUND_UP (s32 (lastp - maxp lastr)) af))
    else Some add2 in
  match fit with
  | None => st'   (* continue *)
  | Some add2 =>
      let dadd2 := of_Z add2 in
      (* Estimate relative squared error (add var_aii for absolute error) *)
      let rel_error2 :=
        dadd1 * dadd1 * var_ac1 + dadd2 * dadd2 * var_ac2
        + 2 * dadd1 * dadd2 * cov_ac1_ac2
        - 2 * dadd1 * cov_ac1_aii - 2 * dadd2 * cov_ac2_aii in
      if PrimFloat.leb rel_error2 (best_e2 st) then
        mk_lsq var_ac1 var_ac2 cov_ac1_ac2 cov_ac1_aii cov_ac2_aii condsum_aii
          rel_error2 (mk_add_move add1 count1)
      else st'
  end.

Local Close Scope float_scope.

(** Calc least squares on all possible count1 to find overall best
    solution; [fuel] as in [add_range_scan_loop]. *)
Fixpoint calc_leastsquares_loop (fuel : nat) (sc : stepcompress)
    (qr : queue_ref) (totalcount : Z) (ar : add_range) (st : lsq)
  : add_move_s :=
  match add_range_update sc ar qr with
  | None =>
      (* Can not further increase count1 - return best result found *)
      best st
  | Some ar' =>
      let st' := lsq_step sc qr totalcount ar' st in
      match fuel with
      | O => best st'
      | S fuel' => calc_leastsquares_loop fuel' sc qr totalcount ar' st'
      end
  end.

(** Estimate best add1,count1 using leastsquares on totalcount steps *)
Definition calc_leastsquares (sc : stepcompress) (qr : queue_ref)
    (totalcount : Z) : add_move_s :=
  let '(cov2, var2, sum) :=
    lsq_setup (Z.to_nat totalcount) sc qr 1 (0, 0, 0)%float in
  calc_leastsquares_loop (cells_left qr) sc qr totalcount add_range_init
    (mk_lsq 0%float var2 0%float 0%float cov2 sum DBL_MAX
       (mk_add_move 0 0)).

(** The [for (;;)] of [compress_leastsquares]: a pass that does not return
    has strictly raised [prev_totalcount], which stays below the number of
    queued cells; [fuel] is that number. *)
Fixpoint compress_leastsquares_loop (fuel : nat) (sc : stepcompress)
    (qr : queue_ref) (prev next : add_move_s) (prev_totalcount : Z)
  : add_move_s :=
  (* Determine maximum reachable totalcount given count1,add1 *)
  let qr2 := qr_after_move sc qr next in
  let ar := add_range_scan sc qr2 in
  let totalcount := s32 (am_count next + ar_count ar) in
  (* Calculate new add1,count1 using least squares (if needed) *)
  if prev_totalcount >=? totalcount then prev
  else
    match fuel with
    | O => next
    | S fuel' =>
        compress_leastsquares_loop fuel' sc qr next
          (calc_leastsquares sc qr totalcount) totalcount
    end.

(** Compress a step schedule using leastsquares method *)
Definition compress_leastsquares (sc : stepcompress) (qr : queue_ref)
  : add_move_s :=
  (* Find longest valid count1 *)
  let outer_ar1 := add_range_scan sc qr in
  let outer_count1 := ar_count outer_ar1 in
  if outer_count1 =? 0 then
    let interval :=
      u32 (peek (queue sc) (qr_queue_pos qr) - qr_last_step_clock qr) in
    let st :=
      u32 (interval - qr_last_interval qr - Z.quot (max_error sc) 2) in
    mk_add_move (s32 st) 1
  else
    (* Try finding longest valid "totalcount" by repeatedly running
       leastsquares *)
    let outer_add1 :=
      sdiv32 (s32 (ar_minadd outer_ar1 + ar_maxadd outer_ar1)) 2 in
    let prev := mk_add_move outer_add1 outer_count1 in
    compress_leastsquares_loop (cells_left qr) sc qr prev prev 0.

(** Convert a 'struct add_move' to a 'struct step_move' *)
Definition wrap_compress (sc : stepcompress) : step_move :=
  let qr := qr_init sc 46000 in
  let am1 := compress_leastsquares sc qr in
  let single :=
    mk_step_move (u32 (qr_last_interval qr + am_add am1))
      (u16 (am_count am1))
      (s16 (if am_count am1 >? 1 then am_add am1 else 0)) in
  if (am_count am1 =? 1) && (qr_queue_pos qr + 1 <? qr_queue_end qr) then
    (* Check if two 'struct add_move' can be sent in one 'struct step_move' *)
    let qr2 := qr_after_move sc qr am1 in
    let am2 := compress_leastsquares sc qr2 in
    if (am_add am2 >=? - 0x8000) && (am_add am2 <=? 0x7fff) then
      mk_step_move (u32 (qr_last_interval qr + am_add am1))
        (u16 (am_count am2 + 1)) (s16 (am_add am2))
    else single
  else single.

(** ** Step compress checking *)

(** The [for] loop of [check_line]: [n] passes are left, [i] is the loop
    index, [interval] and [p] the running interval and clock.  The
    comparisons of [p] (unsigned) with the bounds of the point (signed) are
    made on unsigned operands. *)
Fixpoint check_line_loop (n : nat) (sc : stepcompress) (qr : queue_ref)
    (move : step_move) (i interval p : Z) : result unit :=
  match n with
  | O => Ok tt
  | S n' =>
      let point := minmax_point sc qr (qr_queue_pos qr + i) in
      let p := u32 (p + interval) in
      if (p <? u32 (minp point)) || (p >? u32 (maxp point)) then
        Err InvalidMove
      else if interval >=? 0x80000000 then Err InvalidMove
      else
        check_line_loop n' sc qr move (i + 1) (u32 (interval + add move)) p
  end.

(** Verify that a given 'step_move' matches the actual step times *)
Definition check_line (sc : stepcompress) (move : step_move) : result unit :=
  if (count move =? 0)
     || ((interval move =? 0) && (add move =? 0) && (count move >? 1))
     || (interval move >=? 0x80000000)
  then Err InvalidMove
  else
    let qr := qr_init sc 65535 in
    check_line_loop (Z.to_nat (count move)) sc qr move 0 (interval move) 0.

(** ** Step compress interface *)

(** Allocate a new 'stepcompress' object *)
Definition stepcompress_alloc (oid : Z) : stepcompress :=
  mk_stepcompress [] 0 0 0 0%float 0%float 0%float 0 0 0 [] (u32 oid) 0 0
    (-1) 0 0 0 0 [].

(** Fill message id information *)
Definition stepcompress_fill (sc : stepcompress) (max_error : Z)
    (queue_step_msgtag set_next_step_dir_msgtag : Z) : stepcompress :=
  with_fill sc max_error queue_step_msgtag set_next_step_dir_msgtag.

(** Set the inverted stepper direction flag *)
Definition stepcompress_set_invert_sdir (sc : stepcompress) (invert : Z)
  : stepcompress :=
  let invert := if invert =? 0 then 0 else 1 in
  if invert =? invert_sdir sc then sc
  else
    with_sdir sc (if sdir sc >=? 0 then Z.lxor (sdir sc) 1 else sdir sc)
      invert.

(** Helper to free items from the history_list: entries leave from the
    tail (the oldest end) while their last_clock is at most [end_clock]. *)
Fixpoint free_history (l : list history_steps) (end_clock : Z)
  : list history_steps :=
  match l with
  | [] => []
  | hs :: tl =>
      match free_history tl end_clock with
      | [] => if last_clock hs >? end_clock then [hs] else []
      | tl' => hs :: tl'
      end
  end.

Definition stepcompress_get_oid (sc : stepcompress) : Z := oid sc.

Definition stepcompress_get_step_dir (sc : stepcompress) : Z :=
  next_step_dir sc.

(** Determine the "print time" of the last_step_clock *)
Definition calc_last_step_print_time (sc : stepcompress) : stepcompress :=
  let lsc := of_u64 (last_step_clock sc) in
  let t := (mcu_time_offset sc + (lsc - 0.5) / mcu_freq sc)%float in
  let expire := (mcu_freq sc * HISTORY_EXPIRE)%float in
  let h :=
    if PrimFloat.ltb expire lsc
    then free_history (history_list sc) (to_u64 (lsc - expire)%float)
    else history_list sc in
  with_print_time sc t h.

(** Set the conversion rate of 'print_time' to mcu clock *)
Definition stepcompress_set_time (sc : stepcompress)
    (time_offset mcu_freq : double) : stepcompress :=
  calc_last_step_print_time (with_time sc time_offset mcu_freq).

(** Helper to create a queue_step command from a 'struct step_move' *)
Definition add_move (sc : stepcompress) (first_clock : Z) (move : step_move)
  : stepcompress :=
  let addfactor := tri_down (count move) in
  let ticks :=
    u32 (add move * addfactor + interval move * (count move - 1)) in
  let last_clock := u64 (first_clock + ticks) in
  let sc1 :=
    with_last_interval sc
      (u32 (interval move + add move * (count move - 1))) in
  (* Create and queue a queue_step command *)
  let qm :=
    message_alloc_and_encode
      [queue_step_msgtag sc; oid sc; interval move; count move; add move] in
  let req :=
    if (count move =? 1)
       && (first_clock >=? u64 (last_step_clock sc + CLOCK_DIFF_MAX))
    then first_clock else last_step_clock sc in
  let qm := mk_queue_message (msg qm) (last_step_clock sc) req in
  let sc2 := with_msg_queue sc1 (msg_queue sc1 ++ [qm]) in
  let sc3 := with_last_step_clock sc2 last_clock in
  (* Create and store move in history tracking *)
  let hs :=
    mk_history_steps first_clock last_clock (last_position sc)
      (if sdir sc =? 0 then - count move else count move)
      (s32 (interval move)) (add move) in
  with_history sc3 (s64 (last_position sc + step_count hs))
    (hs :: history_list sc).

(** One pass of the [while] loop of [queue_flush]: the result, and whether
    the loop was left by [break]. *)
Definition queue_flush_pass (sc : stepcompress)
  : result (stepcompress * bool) :=
  let move := wrap_compress sc in
  do _ <- check_line sc move;
  let lsc := last_step_clock sc in
  let sc1 :=
    with_last_ideal_step_clock sc
      (u64 (u32 (peek (queue sc) (queue_pos sc + count move - 1) - u32 lsc)
            + lsc)) in
  let sc2 := add_move sc1 (u64 (lsc + interval move)) move in
  if queue_pos sc2 + count move >=? queue_next sc2 then
    Ok (with_queue sc2 (queue sc2) 0 0, true)
  else
    Ok (with_queue sc2 (queue sc2) (queue_pos sc2 + count move)
          (queue_next sc2), false).

(** The [while] loop of [queue_flush].  A pass that does not leave the
    loop has consumed at least one cell; [fuel] is the number of cells
    queued on entry. *)
Fixpoint queue_flush_loop (fuel : nat) (sc : stepcompress) (move_clock : Z)
  : result stepcompress :=
  if last_step_clock sc <? move_clock then
    do r <- queue_flush_pass sc;
    let '(sc', brk) := r in
    if brk then Ok sc'
    else
      match fuel with
      | O => Ok sc'
      | S fuel' => queue_flush_loop fuel' sc' move_clock
      end
  else Ok sc.

(** Convert previously scheduled steps into commands for the mcu *)
Definition queue_flush (sc : stepcompress) (move_clock : Z)
  : result stepcompress :=
  if queue_pos sc >=? queue_next sc then Ok sc
  else
    do sc' <- queue_flush_loop (Z.to_nat (queue_next sc - queue_pos sc)) sc
                move_clock;
    Ok (calc_last_step_print_time sc').

(** Generate a queue_step for a step far in the future from the last step *)
Definition stepcompress_flush_far (sc : stepcompress) (abs_step_clock : Z)
  : result stepcompress :=
  let move := mk_step_move (u32 (abs_step_clock - last_step_clock sc)) 1 0 in
  let sc1 := with_last_ideal_step_clock sc abs_step_clock in
  let sc2 := add_move sc1 abs_step_clock move in
  Ok (calc_last_step_print_time sc2).

(** Send the set_next_step_dir command *)
Definition set_next_step_dir (sc : stepcompress) (sdir' : Z)
  : result stepcompress :=
  if sdir sc =? sdir' then Ok sc
  else
    do sc1 <- queue_flush sc UINT64_MAX;
    let sc2 := with_sdir sc1 sdir' (invert_sdir sc1) in
    let qm :=
      message_alloc_and_encode
        [set_next_step_dir_msgtag sc2; oid sc2;
         Z.lxor sdir' (invert_sdir sc2)] in
    let qm := mk_queue_message (msg qm) (min_clock qm) (last_step_clock sc2) in
    Ok (with_msg_queue sc2 (msg_queue sc2 ++ [qm])).

(** Slow path for queue_append() - handle next step far in future *)
Definition queue_append_far (sc : stepcompress) : result stepcompress :=
  let step_clock := next_step_clock sc in
  let sc0 := with_next_step sc 0 (next_step_dir sc) in
  do sc1 <- queue_flush sc0 (u64 (step_clock - CLOCK_DIFF_MAX + 1));
  if step_clock >=? u64 (last_step_clock sc1 + CLOCK_DIFF_MAX) then
    stepcompress_flush_far sc1 step_clock
  else
    Ok (with_queue sc1 (poke (queue sc1) (queue_next sc1) (u32 step_clock))
          (queue_pos sc1) (queue_next sc1 + 1)).

(** [while (in_use >= alloc) alloc *= 2;] *)
Fixpoint grow_alloc (fuel : nat) (in_use alloc : Z) : Z :=
  match fuel with
  | O => alloc
  | S fuel' =>
      if in_use >=? alloc then grow_alloc fuel' in_use (s32 (alloc * 2))
      else alloc
  end.

(** Slow path for queue_append() - expand the internal queue storage *)
Definition queue_append_extend (sc : stepcompress) : result stepcompress :=
  do sc1 <-
    (if queue_next sc - queue_pos sc >? 65535 + 2000 then
       (* No point in keeping more than 64K steps in memory *)
       let flush :=
         u32 (peek (queue sc) (queue_next sc - 65535)
              - u32 (last_step_clock sc)) in
       queue_flush sc (u64 (last_step_clock sc + flush))
     else Ok sc);
  let sc2 :=
    if queue_next sc1 >=? queue_end sc1 then
      (* Make room in the queue *)
      let in_use := s32 (queue_next sc1 - queue_pos sc1) in
      if queue_pos sc1 >? 0 then
        (* Shuffle the internal queue to avoid having to allocate more ram *)
        let moved :=
          take (Z.to_nat in_use) (drop (Z.to_nat (queue_pos sc1)) (queue sc1))
        in
        with_queue sc1 (moved ++ drop (length moved) (queue sc1)) 0 in_use
      else
        (* Expand the internal queue of step times *)
        let alloc := s32 (queue_end sc1) in
        let alloc := if alloc =? 0 then QUEUE_START_SIZE else alloc in
        let alloc := grow_alloc 32 in_use alloc in
        with_queue sc1
          (queue sc1 ++ replicate (Z.to_nat alloc - length (queue sc1)) 0)
          0 in_use
    else sc1 in
  Ok (with_next_step
        (with_queue sc2
           (poke (queue sc2) (queue_next sc2) (u32 (next_step_clock sc2)))
           (queue_pos sc2) (queue_next sc2 + 1))
        0 (next_step_dir sc2)).

(** Add a step time to the queue (flushing the queue if needed) *)
Definition queue_append (sc : stepcompress) : result stepcompress :=
  do sc1 <-
    (if next_step_dir sc =? sdir sc then Ok sc
     else set_next_step_dir sc (next_step_dir sc));
  if next_step_clock sc1 >=? u64 (last_step_clock sc1 + CLOCK_DIFF_MAX) then
    queue_append_far sc1
  else if queue_next sc1 >=? queue_end sc1 then
    queue_append_extend sc1
  else
    Ok (with_next_step
          (with_queue sc1
             (poke (queue sc1) (queue_next sc1) (u32 (next_step_clock sc1)))
             (queue_pos sc1) (queue_next sc1 + 1))
          0 (next_step_dir sc1)).

#[local] Set Warnings "-inexact-float".
Definition SDS_FILTER_TIME : double := 0.000750%float.
#[local] Set Warnings "inexact-float".

(** The step clock [stepcompress_append] computes from its two times. *)
Definition append_step_clock (sc : stepcompress)
    (print_time step_time : double) : Z :=
  let offset := (print_time - last_step_print_time sc)%float in
  let rel_sc := ((step_time + offset) * mcu_freq sc)%float in
  u64 (last_step_clock sc + to_u64 rel_sc).

(** Add next step time *)
Definition stepcompress_append (sc : stepcompress) (sdir' : Z)
    (print_time step_time : double) : result stepcompress :=
  (* Calculate step clock *)
  let step_clock := append_step_clock sc print_time step_time in
  let store (sc : stepcompress) :=
    (* Store this step as the next pending step *)
    Ok (with_next_step sc step_clock sdir') in
  (* Flush previous pending step (if any) *)
  if next_step_clock sc =? 0 then store sc
  else
    let diff := of_Z (s64 (step_clock - next_step_clock sc)) in
    if negb (sdir' =? next_step_dir sc)
       && PrimFloat.ltb diff (SDS_FILTER_TIME * mcu_freq sc)%float
    then
      (* Rollback last step to avoid rapid step+dir+step *)
      Ok (with_next_step sc 0 sdir')
    else
      do sc1 <- queue_append sc;
      store sc1.

(** Commit next pending step (ie, do not allow a rollback) *)
Definition stepcompress_commit (sc : stepcompress) : result stepcompress :=
  if next_step_clock sc =? 0 then Ok sc else queue_append sc.

(** Flush pending steps *)
Definition stepcompress_flush (sc : stepcompress) (move_clock : Z)
  : result stepcompress :=
  do sc1 <-
    (if negb (next_step_clock sc =? 0) && (move_clock >=? next_step_clock sc)
     then queue_append sc else Ok sc);
  queue_flush sc1 move_clock.

(** Reset the internal state of the stepcompress object *)
Definition stepcompress_reset (sc : stepcompress) (last_step_clock' : Z)
  : result stepcompress :=
  do sc1 <- stepcompress_flush sc UINT64_MAX;
  let sc2 := with_last_step_clock sc1 last_step_clock' in
  let sc3 := with_last_interval sc2 0 in
  let sc4 := with_sdir sc3 (-1) (invert_sdir sc3) in
  Ok (calc_last_step_print_time sc4).

(** Set last_position in the stepcompress object *)
Definition stepcompress_set_last_position (sc : stepcompress)
    (clock last_position' : Z) : result stepcompress :=
  do sc1 <- stepcompress_flush sc UINT64_MAX;
  (* Add a marker to the history list *)
  let hs := mk_history_steps clock clock last_position' 0 0 0 in
  Ok (with_history sc1 last_position' (hs :: history_list sc1)).

(** The step count reached at [clock] inside the history entry [hs]
    (first_clock <= clock < last_clock). *)
Definition history_offset (hs : history_steps) (clock : Z) : Z :=
  let interval := hs_interval hs in
  let add := hs_add hs in
  let ticks := s32 (s32 (clock - first_clock hs) + interval) in
  if add =? 0 then sdiv32 ticks interval
  else
    (* Solve for "count" using quadratic formula *)
    let a := (0.5 * of_Z add)%float in
    let b := (of_Z interval - 0.5 * of_Z add)%float in
    let c := of_Z (s32 (- ticks)) in
    to_s32 ((PrimFloat.sqrt (b * b - 4 * a * c) - b) / (2 * a))%float.

(** The [list_for_each_entry] of [stepcompress_find_past_position], newest
    entry first. *)
Fixpoint find_past_position_loop (l : list history_steps)
    (clock last_position : Z) : Z :=
  match l with
  | [] => last_position
  | hs :: tl =>
      if clock <? first_clock hs then
        find_past_position_loop tl clock (start_position hs)
      else if clock >=? last_clock hs then
        s64 (start_position hs + step_count hs)
      else
        let offset := history_offset hs clock in
        if step_count hs <? 0 then s64 (start_position hs - offset)
        else s64 (start_position hs + offset)
  end.

(** Search history of moves to find a past position at a given clock *)
Definition stepcompress_find_past_position (sc : stepcompress) (clock : Z)
  : Z :=
  find_past_position_loop (history_list sc) clock (last_position sc).

(** Queue an mcu command to go out in order with stepper commands *)
Definition stepcompress_queue_msg (sc : stepcompress) (data : list Z)
  : result stepcompress :=
  do sc1 <- stepcompress_flush sc UINT64_MAX;
  let qm := message_alloc_and_encode data in
  let qm := mk_queue_message (msg qm) (min_clock qm) (last_step_clock sc1) in
  Ok (with_msg_queue sc1 (msg_queue sc1 ++ [qm])).

(** Return history of queue_step commands *)
Fixpoint extract_old_loop (l : list history_steps) (res max : Z)
    (start_clock end_clock : Z) : list history_steps :=
  match l with
  | [] => []
  | hs :: tl =>
      if (start_clock >=? last_clock hs) || (res >=? max) then []
      else if end_clock <=? first_clock hs then
        extract_old_loop tl res max start_clock end_clock
      else hs :: extract_old_loop tl (res + 1) max start_clock end_clock
  end.

Definition stepcompress_extract_old (sc : stepcompress) (max : Z)
    (start_clock end_clock : Z) : list history_steps :=
  extract_old_loop (history_list sc) 0 max start_clock end_clock.

(** ** Step compress synchronization *)

(** The serial queue and the command queue of the C struct are
    serialqueue's; the batch handed to [serialqueue_send_batch] is returned
    by [steppersync_flush]. *)
Record steppersync : Type := mk_steppersync {
  (* Storage for associated stepcompress objects *)
  sc_list : list stepcompress;
  (* Storage for list of pending move clocks *)
  move_clocks : list Z
}.

Definition num_move_clocks (ss : steppersync) : Z :=
  Z.of_nat (length (move_clocks ss)).

(** Allocate a new 'steppersync' object *)
Definition steppersync_alloc (scs : list stepcompress) (move_num : Z)
  : steppersync :=
  mk_steppersync scs (replicate (Z.to_nat move_num) 0).

(** Set the conversion rate of 'print_time' to mcu clock *)
Definition steppersync_set_time (ss : steppersync)
    (time_offset mcu_freq : double) : steppersync :=
  mk_steppersync
    (map (fun sc => stepcompress_set_time sc time_offset mcu_freq)
       (sc_list ss))
    (move_clocks ss).

(** The [for (;;)] of [heap_replace]; a pass that does not return moves
    [pos] to one of its children, which [fuel], the size of the heap,
    bounds. *)
Fixpoint heap_replace_loop (fuel : nat) (mc : list Z) (req_clock pos : Z)
  : list Z :=
  let nmc := Z.of_nat (length mc) in
  let child1_pos := 2 * pos + 1 in
  let child2_pos := 2 * pos + 2 in
  let child2_clock := if child2_pos <? nmc then peek mc child2_pos
                      else UINT64_MAX in
  let child1_clock := if child1_pos <? nmc then peek mc child1_pos
                      else UINT64_MAX in
  if (req_clock <=? child1_clock) && (req_clock <=? child2_clock) then
    poke mc pos req_clock
  else
    match fuel with
    | O => mc
    | S fuel' =>
        if child1_clock <? child2_clock then
          heap_replace_loop fuel' (poke mc pos child1_clock) req_clock
            child1_pos
        else
          heap_replace_loop fuel' (poke mc pos child2_clock) req_clock
            child2_pos
    end.

(** Implement a binary heap algorithm to track when the next available
    'struct move' in the mcu will be available *)
Definition heap_replace (mc : list Z) (req_clock : Z) : list Z :=
  heap_replace_loop (length mc) mc req_clock 0.

(** Flush each stepcompress to the specified move_clock *)
Fixpoint flush_all (scs : list stepcompress) (move_clock : Z)
  : result (list stepcompress) :=
  match scs with
  | [] => Ok []
  | sc :: tl =>
      do sc' <- stepcompress_flush sc move_clock;
      do tl' <- flush_all tl move_clock;
      Ok (sc' :: tl')
  end.

(** Find message with lowest reqclock: the scan over the steppers from
    index [i] on, carrying the lowest clock seen so far and the head that
    has it, as (stepper index, message). *)
Fixpoint find_lowest (scs : list stepcompress) (i : nat)
    (lowest : Z) (qm : option (nat * queue_message))
  : Z * option (nat * queue_message) :=
  match scs with
  | [] => (lowest, qm)
  | sc :: tl =>
      match msg_queue sc with
      | m :: _ =>
          if req_clock m <? lowest
          then find_lowest tl (S i) (req_clock m) (Some (i, m))
          else find_lowest tl (S i) lowest qm
      | [] => find_lowest tl (S i) lowest qm
      end
  end.

(** [list_del] of the head of stepper [i]'s message queue. *)
Definition pop_msg (scs : list stepcompress) (i : nat) : list stepcompress :=
  match scs !! i with
  | Some sc => <[i := with_msg_queue sc (tail (msg_queue sc))]> scs
  | None => scs
  end.

(** Order commands by the reqclock of each pending command: the [for (;;)]
    of [steppersync_flush].  [MAX_CLOCK] is serialqueue's and is a
    parameter here.  Every pass that does not leave the loop unlinks one
    message; [fuel] is the number of queued messages. *)
Fixpoint order_loop (fuel : nat) (MAX_CLOCK move_clock : Z)
    (scs : list stepcompress) (mc : list Z) (msgs : list queue_message)
  : list stepcompress * list Z * list queue_message :=
  match find_lowest scs 0 MAX_CLOCK None with
  | (_, None) => (scs, mc, msgs)
  | (lowest, Some (i, qm)) =>
      if negb (min_clock qm =? 0) && (lowest >? move_clock) then
        (scs, mc, msgs)
      else
        let next_avail := peek mc 0 in
        let mc' :=
          if negb (min_clock qm =? 0)
          then
            (* The qm->min_clock field is overloaded to indicate that
               the command uses the 'move queue' and to store the time
               that move queue item becomes available. *)
            heap_replace mc (min_clock qm)
          else mc in
        (* Reset the min_clock to its normal meaning (minimum transmit
           time) *)
        let qm' := mk_queue_message (msg qm) next_avail (req_clock qm) in
        (* Batch this command *)
        let scs' := pop_msg scs i in
        let msgs' := msgs ++ [qm'] in
        match fuel with
        | O => (scs', mc', msgs')
        | S fuel' => order_loop fuel' MAX_CLOCK move_clock scs' mc' msgs'
        end
  end.

Definition queued_msgs (scs : list stepcompress) : nat :=
  list_sum (map (fun sc => length (msg_queue sc)) scs).

(** Find and transmit any scheduled steps prior to the given 'move_clock'.
    The second component is the batch handed to [serialqueue_send_batch]
    (nothing is sent when it is empty). *)
Definition steppersync_flush (MAX_CLOCK : Z) (ss : steppersync)
    (move_clock : Z) : result (steppersync * list queue_message) :=
  do scs <- flush_all (sc_list ss) move_clock;
  let '(scs', mc', msgs) :=
    order_loop (queued_msgs scs) MAX_CLOCK move_clock scs (move_clocks ss) []
  in
  Ok (mk_steppersync scs' mc', msgs).

(** * Vocabulary of the properties *)

(** What a queued message commands: its words and its requested clock
    (min_clock is rewritten on the way to the batch). *)
Definition command : Type := list Z * Z.

Definition command_of (qm : queue_message) : command := (msg qm, req_clock qm).

Definition commands (scs : list stepcompress) : list (list command) :=
  map (fun sc => map command_of (msg_queue sc)) scs.

(** [drawn_from qs picks qs']: the picks, each the head of the queue of
    the stepper it names at the time it is taken, lead from the queues
    [qs] to the queues [qs']. *)
Inductive drawn_from
  : list (list command) -> list (nat * command) -> list (list command)
    -> Prop :=
| drawn_none (qs : list (list command)) : drawn_from qs [] qs
| drawn_head (qs qs' : list (list command)) (i : nat) (c : command)
    (rest : list command) (picks : list (nat * command)) :
    qs !! i = Some (c :: rest) ->
    drawn_from (<[i := rest]> qs) picks qs' ->
    drawn_from qs ((i, c) :: picks) qs'.

(** The picks of stepper [i], in the order of the batch. *)
Definition picks_of (i : nat) (picks : list (nat * command)) : list command :=
  map snd (List.filter (fun p => Nat.eqb (fst p) i) picks).

(** The requested clocks of a list of messages. *)
Definition clocks (l : list queue_message) : list Z := map req_clock l.

(** Every stepper's message queue is in non-decreasing req_clock order. *)
Definition queues_sorted (scs : list stepcompress) : Prop :=
  Forall (fun sc => Sorted Z.le (clocks (msg_queue sc))) scs.

(** The number of cells between the two cursors of the step queue. *)
Definition in_use (sc : stepcompress) : Z := queue_next sc - queue_pos sc.

(** The ticks of a ramp: the sum of [n] intervals that follow a first
    interval [i], each [a] longer than the one before. *)
Fixpoint ramp_ticks (i a : Z) (n : nat) : Z :=
  match n with
  | O => 0
  | S n' => ramp_ticks i a n' + (i + Z.of_nat n * a)
  end.

(** The window of the [k]-th queued step (k = 1 is the step at
    queue_pos), in the words of the specification: [rel_clock sc k] is its
    clock relative to last_step_clock, 0 standing for the step before the
    first; the step may come early by at most max_error and at most half
    the distance to the step before it, and may not come late. *)
Definition rel_clock (sc : stepcompress) (k : Z) : Z :=
  if k <=? 0 then 0
  else u32 (peek (queue sc) (queue_pos sc + k - 1) - last_step_clock sc).

Definition window_minp (sc : stepcompress) (k : Z) : Z :=
  rel_clock sc k
  - Z.min (max_error sc) ((rel_clock sc k - rel_clock sc (k - 1)) / 2).

Definition window_maxp (sc : stepcompress) (k : Z) : Z := rel_clock sc k.

(** The [k]-th interval of a move and the clock of its [k]-th step,
    relative to last_step_clock: the sum of the first [k] intervals. *)
Definition ramp_interval (move : step_move) (k : Z) : Z :=
  interval move + (k - 1) * add move.

Fixpoint ramp_clock (move : step_move) (k : nat) : Z :=
  match k with
  | O => 0
  | S k' => ramp_clock move k' + ramp_interval move (Z.of_nat k)
  end.

(** A move that passes verification. *)
Definition move_passes (sc : stepcompress) (move : step_move) : Prop :=
  1 <= count move
  /\ interval move < 2 ^ 31
  /\ ~ (count move > 1 /\ interval move = 0 /\ add move = 0)
  /\ forall k : nat,
       1 <= Z.of_nat k <= count move ->
       window_minp sc (Z.of_nat k) <= ramp_clock move k
                                   <= window_maxp sc (Z.of_nat k)
       /\ ramp_interval move (Z.of_nat k) < 2 ^ 31.

(** The fields of a move are in the ranges of their C types. *)
Definition move_typed (move : step_move) : Prop :=
  0 <= interval move < 2 ^ 32
  /\ 0 <= count move < 2 ^ 16
  /\ - 2 ^ 15 <= add move < 2 ^ 15.

(** The clocks of the first [n] queued steps do not decrease. *)
Definition steps_ordered (sc : stepcompress) (n : Z) : Prop :=
  forall k : Z, 1 <= k <= n -> rel_clock sc (k - 1) <= rel_clock sc k.

(** [mc] is a binary min-heap: no cell is above either of its children. *)
Definition is_heap (mc : list Z) : Prop :=
  forall i j : Z,
    0 <= i -> j = 2 * i + 1 \/ j = 2 * i + 2 -> j < Z.of_nat (length mc) ->
    peek mc i <= peek mc j.

(** What no operation on a stepper changes: its identity and settings. *)
Definition same_setup (sc sc' : stepcompress) : Prop :=
  oid sc' = oid sc
  /\ queue_step_msgtag sc' = queue_step_msgtag sc
  /\ set_next_step_dir_msgtag sc' = set_next_step_dir_msgtag sc
  /\ max_error sc' = max_error sc
  /\ invert_sdir sc' = invert_sdir sc
  /\ mcu_freq sc' = mcu_freq sc
  /\ mcu_time_offset sc' = mcu_time_offset sc.

(** The clocks the synchroniser reads are in the range of uint64_t. *)
Definition clocks_typed (sc : stepcompress) : Prop :=
  last_step_clock sc <= UINT64_MAX
  /\ Forall (fun m => min_clock m <= UINT64_MAX) (msg_queue sc).

(** [sc'] is [sc] some steps later: the same setup, the queued messages
    of [sc] followed by new ones, the clocks still typed. *)
Definition advances (sc sc' : stepcompress) : Prop :=
  same_setup sc sc'
  /\ (exists new, msg_queue sc' = msg_queue sc ++ new)
  /\ (clocks_typed sc -> clocks_typed sc').

(** A message of the batch is a queued message whose min_clock has been
    rewritten: the words and the requested clock are those of [o]. *)
Definition batched_from (o b : queue_message) : Prop :=
  msg b = msg o /\ req_clock b = req_clock o.

(** The interval of the [j]-th step of a schedule that follows a step of
    interval [i]: [c1] steps each [add1] longer than the one before, then
    steps each [add2] longer. *)
Definition two_ramp_interval (i add1 add2 c1 j : Z) : Z :=
  if j <=? c1 then i + j * add1 else i + c1 * add1 + (j - c1) * add2.

(** The clock of its [n]-th step, relative to the step before the first:
    the sum of the first [n] intervals. *)
Fixpoint two_ramp_clock (i add1 add2 c1 : Z) (n : nat) : Z :=
  match n with
  | O => 0
  | S n' =>
      two_ramp_clock i add1 add2 c1 n'
      + two_ramp_interval i add1 add2 c1 (Z.of_nat n)
  end.

(** The queued steps: the cells between the two cursors of the queue. *)
Definition queued_steps (sc : stepcompress) : list Z :=
  take (Z.to_nat (queue_next sc - queue_pos sc))
    (drop (Z.to_nat (queue_pos sc)) (queue sc)).

(** The range of adds after [n] steps have been added to the initial
    range, one [add_range_update] each; [None] when one is refused. *)
Fixpoint add_range_after (sc : stepcompress) (qr : queue_ref) (n : nat)
  : option add_range :=
  match n with
  | O => Some add_range_init
  | S n' =>
      match add_range_after sc qr n' with
      | Some ar => add_range_update sc ar qr
      | None => None
      end
  end.

(** Batching the messages [l] in turn, from the move clocks [mc]: each
    message leaves with the first move clock of the time as its min_clock,
    and one that uses the move queue puts its own min_clock into the heap.
    The result is the move clocks left and the batch. *)
Fixpoint send_all (mc : list Z) (l : list queue_message)
  : list Z * list queue_message :=
  match l with
  | [] => (mc, [])
  | o :: tl =>
      let mc' :=
        if negb (min_clock o =? 0) then heap_replace mc (min_clock o)
        else mc in
      let '(mc'', batch) := send_all mc' tl in
      (mc'', mk_queue_message (msg o) (peek mc 0) (req_clock o) :: batch)
  end.

(** * Scenarios

    The concrete runs the properties below are evaluated on. *)

#[local] Set Warnings "-inexact-float".

(** The stepper of the end-to-end scenarios: freshly allocated, with
    mcu_freq = 1e6 and no time offset. *)
Definition scenario_stepper (oid : Z) : stepcompress :=
  stepcompress_set_time (stepcompress_alloc oid) 0%float 1000000%float.

(** Scenario S3: a step of direction 1 at clock 1000, then one of
    direction 0 at clock 1500. *)
Definition scenario_S3 (oid : Z) : result stepcompress :=
  do sc1 <- stepcompress_append (scenario_stepper oid) 1 0%float 0.001%float;
  stepcompress_append sc1 0 0%float 0.0015%float.


(** [n] steps of direction [d], the k-th at [k] microseconds. *)
Fixpoint append_steps (n : nat) (k : Z) (d : Z) (sc : stepcompress)
  : result stepcompress :=
  match n with
  | O => Ok sc
  | S n' =>
      do sc' <- stepcompress_append sc d 0%float
                  (of_Z k * 0.000001)%float;
      append_steps n' (k + 1) d sc'
  end.


(** Two position markers, at clocks 1000 and 2000. *)
Definition scenario_markers : result stepcompress :=
  do sc1 <- stepcompress_set_last_position (scenario_stepper 0) 1000 42;
  stepcompress_set_last_position sc1 2000 77.

(** A stepper whose last step was at clock 1000. *)
Definition scenario_at_1000 : stepcompress :=
  with_last_step_clock (scenario_stepper 0) 1000.

(** Scenario S4: a first step at clock 2 * CLOCK_DIFF_MAX, committed. *)
Definition scenario_S4 : result stepcompress :=
  do sc1 <- stepcompress_append (scenario_stepper 0) 1 0%float
              1610.612736%float;
  stepcompress_commit sc1.

(** A first step more than 2^32 ticks after clock 0, committed. *)
Definition scenario_wrapped_far : result stepcompress :=
  do sc1 <- stepcompress_append (scenario_stepper 0) 1 0%float
              4294.967301%float;
  stepcompress_commit sc1.

(** The clock [stepcompress_append] computes on the scenario stepper for a
    step at [k] microseconds, as long as nothing was flushed. *)
Definition scenario_clock (k : Z) : Z :=
  append_step_clock (scenario_stepper 0) 0%float (of_Z k * 0.000001)%float.

(** Whether the clocks of the steps at [k], [k+1], ... ([n] of them) are
    pending clocks (not 0) short of the far path. *)
Fixpoint scenario_clocks_near (n : nat) (k : Z) : bool :=
  match n with
  | O => true
  | S n' =>
      (0 <? scenario_clock k) && (scenario_clock k <? CLOCK_DIFF_MAX)
      && scenario_clocks_near n' (k + 1)
  end.

(** serialqueue's MAX_CLOCK, as the scenarios take it. *)
Definition scenario_MAX_CLOCK : Z := 0x7fffffffffffffff.

(** A stepper that was reset to clock [start] and then given one step of
    direction 1 at [step_time] seconds. *)
Definition scenario_reset_step (oid start : Z) (step_time : double)
  : result stepcompress :=
  do sc1 <- stepcompress_reset
              (stepcompress_fill (scenario_stepper oid) 25 11 12) start;
  stepcompress_append sc1 1 0%float step_time.

(** Scenario S5: stepper A, last at clock 1000, steps at 1100; stepper B,
    last at clock 900, steps at 950. *)
Definition scenario_S5 : result steppersync :=
  do a <- scenario_reset_step 0 1000 0.0011%float;
  do b <- scenario_reset_step 1 900 0.00095%float;
  Ok (steppersync_alloc [a; b] 4).

(** One stepper with a message queued at clock 5000 that is then reset to
    clock 0 and given a step at clock 100. *)
Definition scenario_reset_back : result steppersync :=
  do sc1 <- stepcompress_reset
              (stepcompress_fill (scenario_stepper 0) 25 11 12) 5000;
  do sc2 <- stepcompress_queue_msg sc1 [99; 0];
  do sc3 <- stepcompress_reset sc2 0;
  do sc4 <- stepcompress_append sc3 1 0%float 0.0001%float;
  Ok (steppersync_alloc [sc4] 4).

(** Two steps 5 ticks apart, 100000 ticks after the start, committed. *)
Definition scenario_close_steps : result stepcompress :=
  do sc1 <- stepcompress_append
              (stepcompress_fill (scenario_stepper 0) 25 11 12) 1 0%float
              0.1%float;
  do sc2 <- stepcompress_append sc1 1 0%float 0.100005%float;
  stepcompress_commit sc2.

(** Scenario S2: a linear acceleration, committed. *)
Definition scenario_S2 : result stepcompress :=
  do sc1 <- stepcompress_append
              (stepcompress_fill (scenario_stepper 0) 25 11 12) 1 0%float
              0.0001%float;
  do sc2 <- stepcompress_append sc1 1 0%float 0.00021%float;
  do sc3 <- stepcompress_append sc2 1 0%float 0.00033%float;
  do sc4 <- stepcompress_append sc3 1 0%float 0.00046%float;
  do sc5 <- stepcompress_append sc4 1 0%float 0.0006%float;
  do sc6 <- stepcompress_append sc5 1 0%float 0.00075%float;
  stepcompress_commit sc6.

(** A step at clock 100000 followed by a step of the same direction at the
    earlier clock 50000, committed. *)
Definition scenario_backward_steps : result stepcompress :=
  do sc1 <- stepcompress_append
              (stepcompress_fill (scenario_stepper 0) 25 11 12) 1 0%float
              0.1%float;
  do sc2 <- stepcompress_append sc1 1 0%float 0.05%float;
  stepcompress_commit sc2.

(** The scenario stepper with its message tags and max_error filled in. *)
Definition scenario_filled : stepcompress :=
  stepcompress_fill (scenario_stepper 0) 25 11 12.

(** The same with one step of direction 1 pending at clock 100. *)
Definition scenario_pending : result stepcompress :=
  stepcompress_append scenario_filled 1 0%float 0.0001%float.

(** A stepper that has recorded two moves of constant interval: five steps
    1000 ticks apart from clock 1000 on, then four 500 ticks apart from
    clock 5500 on. *)
Definition scenario_two_moves : stepcompress :=
  let sc0 := with_sdir (scenario_stepper 0) 1 0 in
  let sc1 := add_move sc0 1000 (mk_step_move 1000 5 0) in
  add_move sc1 5500 (mk_step_move 500 4 0).

(** A heap of four move clocks. *)
Definition scenario_heap : list Z := [10; 20; 30; 40].

(** One stepper, reset to clock 1000 and given a step at clock 1100, with
    a message queued behind it: its queue holds the direction, the step
    and the message. *)
Definition scenario_held_back : result steppersync :=
  do a <- scenario_reset_step 0 1000 0.0011%float;
  do a1 <- stepcompress_queue_msg a [99; 0];
  Ok (steppersync_alloc [a1] 4).

(** Two steppers with one message each, both at clock 0. *)
Definition scenario_tied : result (list stepcompress) :=
  do a <- stepcompress_queue_msg (scenario_stepper 0) [1];
  do b <- stepcompress_queue_msg (scenario_stepper 1) [2];
  Ok [a; b].

(** Six steps of direction 1 at the clocks 100, 300, 600, 1000, 1400 and
    1800, committed: the interval grows by 100 over the first four. *)
Definition scenario_ramp : result stepcompress :=
  do sc1 <- stepcompress_append scenario_filled 1 0%float 0.0001%float;
  do sc2 <- stepcompress_append sc1 1 0%float 0.0003%float;
  do sc3 <- stepcompress_append sc2 1 0%float 0.0006%float;
  do sc4 <- stepcompress_append sc3 1 0%float 0.001%float;
  do sc5 <- stepcompress_append sc4 1 0%float 0.0014%float;
  do sc6 <- stepcompress_append sc5 1 0%float 0.0018%float;
  stepcompress_commit sc6.

(** The steppers of scenario S5 on a move queue of one entry. *)
Definition scenario_one_slot : result steppersync :=
  do a <- scenario_reset_step 0 1000 0.0011%float;
  do b <- scenario_reset_step 1 900 0.00095%float;
  Ok (steppersync_alloc [a; b] 1).

(** * Properties *)

(** ** Wrap-around *)

Section WrapFacts.

Lemma u32_range x : 0 <= u32 x < 2 ^ 32.
Proof. unfold u32, wrap. apply Z.mod_pos_bound. lia. Qed.

Lemma u64_range x : 0 <= u64 x < 2 ^ 64.
Proof. unfold u64, wrap. apply Z.mod_pos_bound. lia. Qed.

Lemma u16_range x : 0 <= u16 x < 2 ^ 16.
Proof. unfold u16, wrap. apply Z.mod_pos_bound. lia. Qed.

Lemma s32_range x : - 2 ^ 31 <= s32 x < 2 ^ 31.
Proof.
  unfold s32, swrap. change (2 ^ (32 - 1)) with (2 ^ 31).
  pose proof (Z.mod_pos_bound (x + 2 ^ 31) (2 ^ 32) ltac:(lia)). lia.
Qed.

Lemma u32_small x : 0 <= x < 2 ^ 32 -> u32 x = x.
Proof. intros. unfold u32, wrap. now apply Z.mod_small. Qed.

Lemma u64_small x : 0 <= x < 2 ^ 64 -> u64 x = x.
Proof. intros. unfold u64, wrap. now apply Z.mod_small. Qed.

Lemma s32_small x : - 2 ^ 31 <= x < 2 ^ 31 -> s32 x = x.
Proof.
  intros. unfold s32, swrap. change (2 ^ (32 - 1)) with (2 ^ 31).
  rewrite Z.mod_small; lia.
Qed.

(** Converting a signed value to unsigned and back is the identity. *)
Lemma u32_s32 x : u32 (s32 x) = u32 x.
Proof.
  unfold u32, s32, wrap, swrap. change (2 ^ (32 - 1)) with (2 ^ 31).
  rewrite Zminus_mod_idemp_l. f_equal. lia.
Qed.

End WrapFacts.

(** ** The loops and their fuel

    Each loop of the C code is a [Fixpoint] on a number of passes that the
    loop cannot use up; the lemmas of this section show it: from the stated
    fuel on, more fuel changes nothing. *)

Section Fuel.

Variable sc : stepcompress.

Lemma add_range_update_some (ar ar' : add_range) (qr : queue_ref) :
  add_range_update sc ar qr = Some ar' ->
  qr_queue_pos qr + ar_count ar < qr_queue_end qr
  /\ ar_count ar' = s32 (ar_count ar + 1).
Proof.
  unfold add_range_update.
  destruct (Z.geb_spec (qr_queue_pos qr + ar_count ar) (qr_queue_end qr));
    [ discriminate | ].
  destruct (_ >? _); [ discriminate | ].
  intros [= <-]. split; [ lia | reflexivity ].
Qed.

Lemma add_range_scan_loop_fuel (qr : queue_ref) (fuel : nat) :
  forall (ar : add_range) (extra : nat),
    qr_queue_end qr - qr_queue_pos qr < 2 ^ 31 ->
    0 <= ar_count ar ->
    qr_queue_end qr - qr_queue_pos qr - ar_count ar <= Z.of_nat fuel ->
    add_range_scan_loop (fuel + extra) sc ar qr
    = add_range_scan_loop fuel sc ar qr.
Proof.
  induction fuel as [| fuel IH]; intros ar extra Hcells Hcount Hfuel.
  - destruct extra as [| extra]; [ reflexivity | ].
    cbn [Nat.add add_range_scan_loop].
    destruct (add_range_update sc ar qr) as [ar' |] eqn:Hup;
      [ | reflexivity ].
    apply add_range_update_some in Hup as [Hlt _]. lia.
  - cbn [Nat.add add_range_scan_loop].
    destruct (add_range_update sc ar qr) as [ar' |] eqn:Hup;
      [ | reflexivity ].
    apply add_range_update_some in Hup as [Hlt Hc].
    rewrite s32_small in Hc by lia.
    apply IH; lia.
Qed.

(** The scan counts at most the cells it was given. *)
Lemma add_range_scan_loop_count (qr : queue_ref) (fuel : nat) :
  forall ar : add_range,
    qr_queue_end qr - qr_queue_pos qr < 2 ^ 31 ->
    0 <= ar_count ar ->
    let r := add_range_scan_loop fuel sc ar qr in
    ar_count ar <= ar_count r
    /\ ar_count r <= Z.max (ar_count ar) (qr_queue_end qr - qr_queue_pos qr).
Proof.
  induction fuel as [| fuel IH]; intros ar Hcells Hcount;
    cbn [add_range_scan_loop];
    destruct (add_range_update sc ar qr) as [ar' |] eqn:Hup;
    try (cbn zeta; lia);
    apply add_range_update_some in Hup as [Hlt Hc];
    rewrite s32_small in Hc by lia.
  - cbn zeta. lia.
  - specialize (IH ar' Hcells ltac:(lia)). cbn zeta in *. lia.
Qed.

Lemma add_range_scan_count (qr : queue_ref) :
  qr_queue_end qr - qr_queue_pos qr < 2 ^ 31 ->
  0 <= ar_count (add_range_scan sc qr)
       <= Z.max 0 (qr_queue_end qr - qr_queue_pos qr).
Proof.
  intros Hcells. unfold add_range_scan.
  apply (add_range_scan_loop_count qr (cells_left qr) add_range_init Hcells).
  cbn. lia.
Qed.

Lemma lsq_step_best (qr : queue_ref) (totalcount : Z) (ar : add_range)
    (st : lsq) :
  best (lsq_step sc qr totalcount ar st) = best st
  \/ am_count (best (lsq_step sc qr totalcount ar st)) = ar_count ar.
Proof.
  unfold lsq_step.
  repeat match goal with
         | |- context [match ?x with _ => _ end] => destruct x
         end; cbn [best am_count]; auto.
Qed.

Lemma calc_leastsquares_loop_fuel (qr : queue_ref) (totalcount : Z)
    (fuel : nat) :
  forall (ar : add_range) (st : lsq) (extra : nat),
    qr_queue_end qr - qr_queue_pos qr < 2 ^ 31 ->
    0 <= ar_count ar ->
    qr_queue_end qr - qr_queue_pos qr - ar_count ar <= Z.of_nat fuel ->
    calc_leastsquares_loop (fuel + extra) sc qr totalcount ar st
    = calc_leastsquares_loop fuel sc qr totalcount ar st.
Proof.
  induction fuel as [| fuel IH]; intros ar st extra Hcells Hcount Hfuel.
  - destruct extra as [| extra]; [ reflexivity | ].
    cbn [Nat.add calc_leastsquares_loop].
    destruct (add_range_update sc ar qr) as [ar' |] eqn:Hup;
      [ | reflexivity ].
    apply add_range_update_some in Hup as [Hlt _]. lia.
  - cbn [Nat.add calc_leastsquares_loop].
    destruct (add_range_update sc ar qr) as [ar' |] eqn:Hup;
      [ | reflexivity ].
    apply add_range_update_some in Hup as [Hlt Hc].
    rewrite s32_small in Hc by lia.
    apply IH; lia.
Qed.

(** The candidate of the least squares covers at most the queued cells. *)
Lemma calc_leastsquares_loop_count (qr : queue_ref) (totalcount : Z)
    (fuel : nat) :
  forall (ar : add_range) (st : lsq),
    qr_queue_end qr - qr_queue_pos qr < 2 ^ 31 ->
    0 <= ar_count ar ->
    0 <= am_count (best st)
         <= Z.max 0 (qr_queue_end qr - qr_queue_pos qr) ->
    0 <= am_count (calc_leastsquares_loop fuel sc qr totalcount ar st)
         <= Z.max 0 (qr_queue_end qr - qr_queue_pos qr).
Proof.
  induction fuel as [| fuel IH]; intros ar st Hcells Hcount Hbest;
    cbn [calc_leastsquares_loop];
    destruct (add_range_update sc ar qr) as [ar' |] eqn:Hup;
    try exact Hbest;
    apply add_range_update_some in Hup as [Hlt Hc];
    rewrite s32_small in Hc by lia;
    assert (Hbest' :
      0 <= am_count (best (lsq_step sc qr totalcount ar' st))
           <= Z.max 0 (qr_queue_end qr - qr_queue_pos qr))
      by (destruct (lsq_step_best qr totalcount ar' st) as [-> | ->]; lia).
  - exact Hbest'.
  - apply IH; [ exact Hcells | lia | exact Hbest' ].
Qed.

Lemma calc_leastsquares_count (qr : queue_ref) (totalcount : Z) :
  qr_queue_end qr - qr_queue_pos qr < 2 ^ 31 ->
  0 <= am_count (calc_leastsquares sc qr totalcount)
       <= Z.max 0 (qr_queue_end qr - qr_queue_pos qr).
Proof.
  intros Hcells. unfold calc_leastsquares.
  destruct (lsq_setup _ sc qr 1 _) as [[cov2 var2] sum].
  apply calc_leastsquares_loop_count; cbn; lia.
Qed.

(** The reach of a candidate: its own steps and those the scan adds behind
    it stay within the queued cells. *)
Lemma reach_bound (qr : queue_ref) (next : add_move_s) :
  0 <= qr_queue_end qr - qr_queue_pos qr < 2 ^ 30 ->
  0 <= am_count next <= qr_queue_end qr - qr_queue_pos qr ->
  let ar := add_range_scan sc (qr_after_move sc qr next) in
  s32 (am_count next + ar_count ar) = am_count next + ar_count ar
  /\ am_count next + ar_count ar <= qr_queue_end qr - qr_queue_pos qr.
Proof.
  intros Hcells Hnext ar.
  pose proof (add_range_scan_count (qr_after_move sc qr next)) as Hscan.
  cbn [qr_after_move qr_queue_end qr_queue_pos] in Hscan.
  fold ar in Hscan. specialize (Hscan ltac:(lia)).
  split; [ apply s32_small | ]; lia.
Qed.

Lemma compress_leastsquares_loop_fuel (qr : queue_ref) (fuel : nat) :
  forall (prev next : add_move_s) (prev_totalcount : Z) (extra : nat),
    0 <= qr_queue_end qr - qr_queue_pos qr < 2 ^ 30 ->
    0 <= am_count next <= qr_queue_end qr - qr_queue_pos qr ->
    qr_queue_end qr - qr_queue_pos qr - prev_totalcount <= Z.of_nat fuel ->
    compress_leastsquares_loop (fuel + extra) sc qr prev next prev_totalcount
    = compress_leastsquares_loop fuel sc qr prev next prev_totalcount.
Proof.
  induction fuel as [| fuel IH];
    intros prev next prev_totalcount extra Hcells Hnext Hfuel.
  - destruct extra as [| extra]; [ reflexivity | ].
    cbn [Nat.add compress_leastsquares_loop].
    destruct (reach_bound qr next Hcells Hnext) as [-> Hreach].
    destruct (Z.geb_spec prev_totalcount
                (am_count next
                 + ar_count (add_range_scan sc (qr_after_move sc qr next))));
      [ reflexivity | lia ].
  - cbn [Nat.add compress_leastsquares_loop].
    destruct (reach_bound qr next Hcells Hnext) as [-> Hreach].
    destruct (Z.geb_spec prev_totalcount
                (am_count next
                 + ar_count (add_range_scan sc (qr_after_move sc qr next))));
      [ reflexivity | ].
    apply IH; [ exact Hcells | | lia ].
    pose proof (calc_leastsquares_count qr
                  (am_count next
                   + ar_count (add_range_scan sc (qr_after_move sc qr next)))
                  ltac:(lia)).
    lia.
Qed.

Lemma cells_left_enough (qr : queue_ref) (n : Z) :
  0 <= n -> qr_queue_end qr - qr_queue_pos qr - n <= Z.of_nat (cells_left qr).
Proof. unfold cells_left. lia. Qed.

(** The fuel [add_range_scan] and [compress_leastsquares] give their loops
    is enough. *)
Lemma add_range_scan_fuel (qr : queue_ref) (extra : nat) :
  qr_queue_end qr - qr_queue_pos qr < 2 ^ 31 ->
  add_range_scan_loop (cells_left qr + extra) sc add_range_init qr
  = add_range_scan sc qr.
Proof.
  intros Hcells. unfold add_range_scan.
  apply add_range_scan_loop_fuel; [ exact Hcells | cbn; lia | ].
  apply cells_left_enough. cbn. lia.
Qed.

Lemma compress_leastsquares_fuel (qr : queue_ref) (add1 : Z) (extra : nat) :
  0 <= qr_queue_end qr - qr_queue_pos qr < 2 ^ 30 ->
  let prev := mk_add_move add1 (ar_count (add_range_scan sc qr)) in
  compress_leastsquares_loop (cells_left qr + extra) sc qr prev prev 0
  = compress_leastsquares_loop (cells_left qr) sc qr prev prev 0.
Proof.
  intros Hcells prev.
  pose proof (add_range_scan_count qr ltac:(lia)) as Hcount.
  apply compress_leastsquares_loop_fuel; [ exact Hcells | cbn; lia | ].
  rewrite Z.sub_0_r. pose proof (cells_left_enough qr 0 ltac:(lia)). lia.
Qed.

End Fuel.

(** ** Rounding of [idiv_up] and [idiv_down] *)

Section Rounding.

Lemma Qfloor_inject_div (n d : Z) :
  0 < d -> Qfloor (inject_Z n / inject_Z d) = n / d.
Proof.
  intros Hd. destruct d as [|p|p]; try lia.
  unfold Qdiv, Qinv, Qmult, Qfloor, inject_Z. simpl.
  now rewrite Z.mul_1_r.
Qed.

Lemma Qceiling_inject_div (n d : Z) :
  0 < d -> Qceiling (inject_Z n / inject_Z d) = - ((- n) / d).
Proof.
  intros Hd. destruct d as [|p|p]; try lia.
  unfold Qceiling, Qdiv, Qinv, Qmult, Qopp, Qfloor, inject_Z. simpl.
  now rewrite Z.mul_1_r.
Qed.

Lemma quot_nonneg_floor (n d : Z) : 0 <= n -> 0 < d -> Z.quot n d = n / d.
Proof. intros. now apply Z.quot_div_nonneg. Qed.

Lemma quot_neg_ceiling (n d : Z) :
  n < 0 -> 0 < d -> Z.quot n d = - ((- n) / d).
Proof.
  intros Hn Hd. replace n with (- (- n)) at 1 by lia.
  rewrite Z.quot_opp_l by lia. rewrite Z.quot_div_nonneg; lia.
Qed.

Lemma ceiling_as_floor (n d : Z) :
  0 < d -> - ((- n) / d) = (n + d - 1) / d.
Proof.
  intros Hd.
  pose proof (Z.div_mod (- n) d ltac:(lia)) as E1.
  pose proof (Z.mod_pos_bound (- n) d Hd) as B1.
  apply Z.div_unique with (r := (d - 1 - (- n) mod d)); lia.
Qed.

Lemma div_bounds (n d : Z) :
  0 < d -> - Z.abs n <= n / d <= Z.abs n.
Proof.
  intros Hd.
  pose proof (Z.div_mod n d ltac:(lia)) as E.
  pose proof (Z.mod_pos_bound n d Hd) as B.
  split; nia.
Qed.

(** C8: for 32-bit [n] and positive 32-bit [d], when neither [n + d]
    (taken for [n >= 0] by [idiv_up]) nor [n - d] (taken for [n < 0] by
    [idiv_down]) overflows, [idiv_up n d] is the ceiling and
    [idiv_down n d] the floor of the rational [n/d]. *)
Theorem idiv_up_down_round (n d : Z) :
  INT32_MIN <= n <= INT32_MAX ->
  0 < d <= INT32_MAX ->
  (0 <= n -> n + d <= INT32_MAX) ->
  (n < 0 -> INT32_MIN <= n - d) ->
  idiv_up n d = Qceiling (inject_Z n / inject_Z d)
  /\ idiv_down n d = Qfloor (inject_Z n / inject_Z d).
Proof.
  unfold INT32_MIN, INT32_MAX. intros Hn Hd Hup Hdown.
  rewrite Qceiling_inject_div, Qfloor_inject_div by lia.
  unfold idiv_up, idiv_down, DIV_ROUND_UP, sdiv32.
  destruct (Z.geb_spec n 0) as [Hpos | Hneg].
  - specialize (Hup ltac:(lia)).
    rewrite (s32_small (n + d)) by lia.
    rewrite (s32_small (n + d - 1)) by lia.
    rewrite !quot_nonneg_floor by lia.
    pose proof (div_bounds n d ltac:(lia)).
    pose proof (div_bounds (n + d - 1) d ltac:(lia)).
    rewrite !s32_small by lia.
    split; [ symmetry; apply ceiling_as_floor; lia | reflexivity ].
  - specialize (Hdown ltac:(lia)).
    rewrite (s32_small (n - d)) by lia.
    rewrite (s32_small (n - d + 1)) by lia.
    rewrite !quot_neg_ceiling by lia.
    pose proof (div_bounds (- n) d ltac:(lia)).
    pose proof (div_bounds (- (n - d + 1)) d ltac:(lia)).
    rewrite !s32_small by lia.
    split; [ reflexivity | ].
    rewrite (ceiling_as_floor (n - d + 1)) by lia.
    f_equal. lia.
Qed.

(** The rounding at a negative numerator, where C's own division would
    round toward zero. *)
Lemma idiv_up_down_round_witness :
  idiv_up (-7) 2 = Qceiling (inject_Z (-7) / inject_Z 2)
  /\ idiv_down (-7) 2 = Qfloor (inject_Z (-7) / inject_Z 2).
Proof.
  apply (idiv_up_down_round (-7) 2); unfold INT32_MIN, INT32_MAX; lia.
Defined.

End Rounding.

(** ** The pending step and the step+dir+step filter *)

Section Pending.

(** Storing the pending step touches nothing but the two filter fields. *)
Lemma with_next_step_fields (sc : stepcompress) (c d : Z) :
  next_step_clock (with_next_step sc c d) = c
  /\ next_step_dir (with_next_step sc c d) = d
  /\ queue (with_next_step sc c d) = queue sc
  /\ queue_pos (with_next_step sc c d) = queue_pos sc
  /\ queue_next (with_next_step sc c d) = queue_next sc
  /\ msg_queue (with_next_step sc c d) = msg_queue sc
  /\ last_step_clock (with_next_step sc c d) = last_step_clock sc
  /\ mcu_freq (with_next_step sc c d) = mcu_freq sc
  /\ last_step_print_time (with_next_step sc c d) = last_step_print_time sc.
Proof. repeat split. Qed.

(** With nothing pending, append only stores the step. *)
Lemma append_when_idle (sc : stepcompress) (d : Z) (pt st : double) :
  next_step_clock sc = 0 ->
  stepcompress_append sc d pt st
  = Ok (with_next_step sc (append_step_clock sc pt st) d).
Proof. intros H. unfold stepcompress_append. now rewrite H. Qed.

(** The rollback: a pending step of the other direction, less than the
    filter time before the new one, is dropped together with the new one. *)
Lemma append_rollback (sc : stepcompress) (d : Z) (pt st : double) :
  next_step_clock sc <> 0 ->
  d <> next_step_dir sc ->
  PrimFloat.ltb
    (of_Z (s64 (append_step_clock sc pt st - next_step_clock sc)))
    (SDS_FILTER_TIME * mcu_freq sc)%float = true ->
  stepcompress_append sc d pt st = Ok (with_next_step sc 0 d).
Proof.
  intros Hc Hd Hlt. unfold stepcompress_append.
  destruct (Z.eqb_spec (next_step_clock sc) 0) as [E | _]; [ contradiction | ].
  destruct (Z.eqb_spec d (next_step_dir sc)) as [E | _]; [ contradiction | ].
  cbn [negb andb]. now rewrite Hlt.
Qed.

(** Every successful append leaves its direction in next_step_dir. *)
Lemma append_sets_next_step_dir (sc sc' : stepcompress) (d : Z)
    (pt st : double) :
  stepcompress_append sc d pt st = Ok sc' -> next_step_dir sc' = d.
Proof.
  unfold stepcompress_append.
  destruct (next_step_clock sc =? 0).
  - intros [= <-]. reflexivity.
  - destruct (_ && _).
    + intros [= <-]. reflexivity.
    + destruct (queue_append sc) as [sc1 | e]; cbn [bind].
      * intros [= <-]. reflexivity.
      * discriminate.
Qed.

Lemma s64_small (x : Z) : - 2 ^ 63 <= x < 2 ^ 63 -> s64 x = x.
Proof.
  intros. unfold s64, swrap. change (2 ^ (64 - 1)) with (2 ^ 63).
  rewrite Z.mod_small; lia.
Qed.

Lemma s64_u64_diff (t delta : Z) :
  0 <= t < 2 ^ 64 -> 0 <= delta < 2 ^ 63 -> s64 (u64 (t + delta) - t) = delta.
Proof.
  intros Ht Hdelta. unfold s64, u64, swrap, wrap.
  change (2 ^ (64 - 1)) with (2 ^ 63).
  destruct (Z_lt_dec (t + delta) (2 ^ 64)) as [Hlt | Hge].
  - rewrite (Z.mod_small (t + delta)) by lia.
    replace (t + delta - t + 2 ^ 63) with (delta + 2 ^ 63) by lia.
    rewrite Z.mod_small; lia.
  - rewrite <- (Z.mod_unique (t + delta) (2 ^ 64) 1 (t + delta - 2 ^ 64))
      by lia.
    rewrite <- (Z.mod_unique (t + delta - 2 ^ 64 - t + 2 ^ 63) (2 ^ 64) (-1)
                  (delta + 2 ^ 63)) by lia.
    lia.
Qed.

End Pending.


Section PendingProperties.

(** C9: [stepcompress_get_step_dir] reads [next_step_dir]: after every
    successful append of direction [d] it returns [d], whether the step
    was stored, queued behind the previous one or rolled back by the
    filter; on a fresh object it returns 0 although the direction sent to
    the mcu, [sdir], is still unknown (-1). *)
Theorem get_step_dir_reads_next_step_dir
    (sc sc' : stepcompress) (d oid : Z) (pt st : double) :
  stepcompress_get_step_dir sc = next_step_dir sc
  /\ (stepcompress_append sc d pt st = Ok sc' ->
      stepcompress_get_step_dir sc' = d)
  /\ (next_step_clock sc <> 0 -> d <> next_step_dir sc ->
      PrimFloat.ltb
        (of_Z (s64 (append_step_clock sc pt st - next_step_clock sc)))
        (SDS_FILTER_TIME * mcu_freq sc)%float = true ->
      exists sc2, stepcompress_append sc d pt st = Ok sc2
                  /\ next_step_clock sc2 = 0
                  /\ sdir sc2 = sdir sc
                  /\ stepcompress_get_step_dir sc2 = d)
  /\ stepcompress_get_step_dir (stepcompress_alloc oid) = 0
  /\ sdir (stepcompress_alloc oid) = -1.
Proof.
  split; [ reflexivity | ].
  split; [ apply append_sets_next_step_dir | ].
  split; [ | split; reflexivity ].
  intros Hc Hd Hlt. exists (with_next_step sc 0 d).
  rewrite append_rollback by assumption. repeat split.
Qed.

(** An append that the filter rolls back: direction 0 arrives 500 ticks
    after a pending step of direction 1 and becomes the reported
    direction, while nothing was sent to the mcu. *)
Lemma get_step_dir_reads_next_step_dir_witness :
  exists sc1 sc2,
    stepcompress_append (scenario_stepper 0) 1 0%float 0.001%float = Ok sc1
    /\ stepcompress_append sc1 0 0%float 0.0015%float = Ok sc2
    /\ next_step_clock sc2 = 0
    /\ sdir sc2 = sdir sc1
    /\ stepcompress_get_step_dir sc2 = 0.
Proof.
  exists (with_next_step (scenario_stepper 0) 1000 1).
  destruct (get_step_dir_reads_next_step_dir
              (with_next_step (scenario_stepper 0) 1000 1)
              (scenario_stepper 0) 0 0 0%float 0.0015%float)
    as (_ & _ & Hroll & _).
  destruct Hroll as (sc2 & Happ & Hrest).
  - vm_compute. discriminate.
  - vm_compute. discriminate.
  - vm_compute. reflexivity.
  - exists sc2. split; [ vm_compute; reflexivity | ]. split; assumption.
Defined.

(** C4, as the code has it: in scenario S3 the second step rolls the
    pending one back and is dropped with it; nothing is queued, no message
    is produced, no step is left pending (next_step_clock = 0) and
    next_step_dir = 0. *)
Theorem scenario_S3_drops_both_steps (oid : Z) :
  exists sc2,
    scenario_S3 oid = Ok sc2
    /\ queue_pos sc2 = queue_next sc2
    /\ msg_queue sc2 = []
    /\ next_step_dir sc2 = 0
    /\ next_step_clock sc2 = 0.
Proof.
  unfold scenario_S3.
  rewrite append_when_idle by reflexivity. cbn [bind].
  rewrite append_rollback.
  - eexists. split; [ reflexivity | ]. repeat split.
  - vm_compute. discriminate.
  - vm_compute. discriminate.
  - vm_compute. reflexivity.
Qed.

(** C4 as stated fails: the two appends are made at clocks 1000 and 1500,
    and afterwards the pending clock is 0, not 1500. *)
Lemma scenario_S3_no_pending_step :
  exists sc1 sc2,
    stepcompress_append (scenario_stepper 0) 1 0%float 0.001%float = Ok sc1
    /\ next_step_clock sc1 = 1000
    /\ append_step_clock sc1 0%float 0.0015%float = 1500
    /\ stepcompress_append sc1 0 0%float 0.0015%float = Ok sc2
    /\ next_step_clock sc2 <> 1500.
Proof.
  eexists. eexists.
  split; [ vm_compute; reflexivity | ].
  split; [ vm_compute; reflexivity | ].
  split; [ vm_compute; reflexivity | ].
  split; [ vm_compute; reflexivity | ].
  vm_compute. discriminate.
Qed.

(** C5, as the code has it: from a state with nothing pending, a step of
    direction 0 at a clock [t] other than 0 followed by a step of
    direction 1 at [t + delta], with [delta] below the filter time, leaves
    the queue and the messages as they were, next_step_clock = 0 and
    next_step_dir = 1. *)
Theorem sds_filter_cancels_pair
    (sc : stepcompress) (pt1 st1 pt2 st2 : double) (t delta : Z) :
  next_step_clock sc = 0 ->
  append_step_clock sc pt1 st1 = t ->
  t <> 0 ->
  0 <= delta < 2 ^ 63 ->
  PrimFloat.ltb (of_Z delta) (SDS_FILTER_TIME * mcu_freq sc)%float = true ->
  append_step_clock sc pt2 st2 = u64 (t + delta) ->
  exists sc1 sc2,
    stepcompress_append sc 0 pt1 st1 = Ok sc1
    /\ stepcompress_append sc1 1 pt2 st2 = Ok sc2
    /\ queue sc2 = queue sc
    /\ queue_pos sc2 = queue_pos sc
    /\ queue_next sc2 = queue_next sc
    /\ msg_queue sc2 = msg_queue sc
    /\ next_step_clock sc2 = 0
    /\ next_step_dir sc2 = 1.
Proof.
  intros Hidle Ht Hnz Hdelta Hlt Hclock2.
  exists (with_next_step sc t 0), (with_next_step (with_next_step sc t 0) 0 1).
  split; [ rewrite append_when_idle, Ht by assumption; reflexivity | ].
  split; [ | repeat split ].
  assert (Hrange : 0 <= t < 2 ^ 64).
  { subst t. unfold append_step_clock. apply u64_range. }
  apply append_rollback.
  - exact Hnz.
  - cbn. discriminate.
  - change (append_step_clock (with_next_step sc t 0) pt2 st2)
      with (append_step_clock sc pt2 st2).
    rewrite Hclock2. cbn [next_step_clock with_next_step mcu_freq].
    rewrite s64_u64_diff by assumption. exact Hlt.
Qed.

Lemma sds_filter_cancels_pair_witness :
  exists sc1 sc2,
    stepcompress_append (scenario_stepper 0) 0 0%float 0.001%float = Ok sc1
    /\ stepcompress_append sc1 1 0%float 0.0015%float = Ok sc2
    /\ queue sc2 = queue (scenario_stepper 0)
    /\ queue_pos sc2 = queue_pos (scenario_stepper 0)
    /\ queue_next sc2 = queue_next (scenario_stepper 0)
    /\ msg_queue sc2 = msg_queue (scenario_stepper 0)
    /\ next_step_clock sc2 = 0
    /\ next_step_dir sc2 = 1.
Proof.
  apply (sds_filter_cancels_pair (scenario_stepper 0) 0%float 0.001%float
           0%float 0.0015%float 1000 500).
  - reflexivity.
  - vm_compute. reflexivity.
  - discriminate.
  - lia.
  - vm_compute. reflexivity.
  - vm_compute. reflexivity.
Defined.

(** C5 as stated fails at clock 0, which the filter reads as "nothing
    pending": a step of direction 0 at clock 0 and one of direction 1 at
    clock 100 (100 < 750) leave the second step pending. *)
Lemma sds_filter_keeps_step_after_clock_0 :
  exists sc1 sc2,
    queue_pos (scenario_stepper 0) = queue_next (scenario_stepper 0)
    /\ next_step_clock (scenario_stepper 0) = 0
    /\ append_step_clock (scenario_stepper 0) 0%float 0%float = 0
    /\ append_step_clock (scenario_stepper 0) 0%float 0.0001%float
       = u64 (0 + 100)
    /\ PrimFloat.ltb (of_Z 100)
         (SDS_FILTER_TIME * mcu_freq (scenario_stepper 0))%float = true
    /\ stepcompress_append (scenario_stepper 0) 0 0%float 0%float = Ok sc1
    /\ stepcompress_append sc1 1 0%float 0.0001%float = Ok sc2
    /\ next_step_clock sc2 = 100
    /\ next_step_clock sc2 <> 0.
Proof.
  eexists. eexists.
  do 3 (split; [ vm_compute; reflexivity | ]).
  split; [ vm_compute; reflexivity | ].
  do 2 (split; [ vm_compute; reflexivity | ]).
  split; [ vm_compute; reflexivity | ].
  split; [ vm_compute; reflexivity | vm_compute; discriminate ].
Qed.

End PendingProperties.

(** ** Past positions *)

Section History.

Lemma find_past_position_loop_before (l : list history_steps)
    (clock pos0 : Z) (hs : history_steps) :
  last l = Some hs ->
  Forall (fun h => clock < first_clock h) l ->
  find_past_position_loop l clock pos0 = start_position hs.
Proof.
  revert pos0. induction l as [| h tl IH]; intros pos0 Hlast Hall.
  - discriminate.
  - apply Forall_cons in Hall as [Hh Htl]. cbn [find_past_position_loop].
    destruct (Z.ltb_spec clock (first_clock h)) as [_ | Hge]; [ | lia ].
    destruct tl as [| h' tl'].
    + cbn in Hlast. injection Hlast as <-. reflexivity.
    + apply IH; [ exact Hlast | exact Htl ].
Qed.

(** C10: with an empty history the search returns the current
    last_position; at a clock earlier than the first_clock of every entry
    it returns the start_position of the oldest entry, the last of the
    newest-first list.  The search is a total function of the list. *)
Theorem find_past_position_before_history
    (sc : stepcompress) (clock : Z) (hs : history_steps) :
  (history_list sc = [] ->
   stepcompress_find_past_position sc clock = last_position sc)
  /\ (last (history_list sc) = Some hs ->
      Forall (fun h => clock < first_clock h) (history_list sc) ->
      stepcompress_find_past_position sc clock = start_position hs).
Proof.
  unfold stepcompress_find_past_position. split.
  - intros ->. reflexivity.
  - apply find_past_position_loop_before.
Qed.

End History.

Section HistoryWitness.

Lemma find_past_position_before_history_witness :
  stepcompress_find_past_position (stepcompress_alloc 0) 500
  = last_position (stepcompress_alloc 0)
  /\ exists sc, scenario_markers = Ok sc
                /\ last_position sc = 77
                /\ stepcompress_find_past_position sc 500 = 42.
Proof.
  split.
  - apply (proj1 (find_past_position_before_history (stepcompress_alloc 0) 500
                    (mk_history_steps 0 0 0 0 0 0))).
    reflexivity.
  - eexists. split; [ vm_compute; reflexivity | ]. split; [ reflexivity | ].
    apply (proj2 (find_past_position_before_history _ 500
                    (mk_history_steps 1000 1000 42 0 0 0))).
    + reflexivity.
    + repeat constructor.
Defined.

End HistoryWitness.

(** ** The queue_step message of a move *)

Section AddMove.

Lemma ramp_ticks_closed (i a : Z) (n : nat) :
  2 * ramp_ticks i a n
  = 2 * i * Z.of_nat n + a * (Z.of_nat n * (Z.of_nat n + 1)).
Proof.
  induction n as [| n IH]; [ cbn; lia | ].
  cbn [ramp_ticks]. rewrite Nat2Z.inj_succ in *. lia.
Qed.

Lemma tri_down_exact (c : Z) :
  1 <= c <= 46341 -> 2 * tri_down c = c * (c - 1).
Proof.
  intros Hc. unfold tri_down, sdiv32.
  assert (Hp : 0 <= c * (c - 1) < 2 ^ 31) by nia.
  rewrite (s32_small (c * (c - 1))) by lia.
  assert (Heven : (c * (c - 1)) mod 2 = 0).
  { rewrite Z.mul_mod by lia.
    destruct (Z.mod_pos_bound c 2 ltac:(lia)) as [? ?].
    assert (Hc2 : c mod 2 = 0 \/ c mod 2 = 1) by lia.
    replace (c - 1) with (c + (-1) * 2 + 1) by lia.
    rewrite <- (Zplus_mod_idemp_l (c + -1 * 2)), Z.mod_add by lia.
    destruct Hc2 as [-> | ->]; reflexivity. }
  rewrite Z.quot_div_nonneg by lia.
  pose proof (Z.div_mod (c * (c - 1)) 2 ltac:(lia)) as E.
  pose proof (Z.div_le_upper_bound (c * (c - 1)) 2 (2 ^ 31) ltac:(lia)
                ltac:(lia)).
  pose proof (Z.div_pos (c * (c - 1)) 2 ltac:(lia) ltac:(lia)).
  rewrite s32_small by lia. lia.
Qed.

(** What [add_move] appends and where it leaves the clock. *)
Lemma add_move_message (sc : stepcompress) (first_clock : Z)
    (move : step_move) :
  let sc' := add_move sc first_clock move in
  exists qm,
    msg_queue sc' = msg_queue sc ++ [qm]
    /\ msg qm = [u32 (queue_step_msgtag sc); u32 (oid sc);
                 u32 (interval move); u32 (count move); u32 (add move)]
    /\ min_clock qm = last_step_clock sc
    /\ req_clock qm =
         (if (count move =? 1)
             && (first_clock >=? u64 (last_step_clock sc + CLOCK_DIFF_MAX))
          then first_clock else last_step_clock sc)
    /\ last_step_clock sc' =
         u64 (first_clock
              + u32 (add move * tri_down (count move)
                     + interval move * (count move - 1))).
Proof. cbn zeta. eexists. repeat split. Qed.

(** C2, as the code has it: the queue_step message of a move is enqueued
    with min_clock equal to the stepper's last_step_clock on entry to
    [add_move], the clock of the last step before the move; the clock at
    which the ramp finishes, first_clock plus the count-1 remaining
    intervals, becomes the new last_step_clock instead. *)
Theorem add_move_min_clock_is_previous_last_step_clock
    (sc : stepcompress) (first_clock : Z) (move : step_move) :
  let sc' := add_move sc first_clock move in
  exists qm,
    msg_queue sc' = msg_queue sc ++ [qm]
    /\ msg qm = [u32 (queue_step_msgtag sc); u32 (oid sc);
                 u32 (interval move); u32 (count move); u32 (add move)]
    /\ min_clock qm = last_step_clock sc
    /\ (1 <= count move <= 46341 ->
        last_step_clock sc' =
          u64 (first_clock
               + u32 (ramp_ticks (interval move) (add move)
                        (Z.to_nat (count move - 1))))).
Proof.
  intros sc'.
  destruct (add_move_message sc first_clock move)
    as (qm & Hq & Hm & Hmin & _ & Hlast).
  exists qm. repeat split; try assumption.
  intros Hc. fold sc' in Hlast. rewrite Hlast. do 3 f_equal.
  pose proof (ramp_ticks_closed (interval move) (add move)
                (Z.to_nat (count move - 1))) as Hr.
  rewrite Z2Nat.id in Hr by lia.
  pose proof (tri_down_exact (count move) Hc) as Ht.
  replace (count move - 1 + 1) with (count move) in Hr by lia.
  nia.
Qed.

Lemma add_move_min_clock_is_previous_last_step_clock_witness :
  exists qm,
    msg_queue (add_move scenario_at_1000 1100 (mk_step_move 100 5 0))
    = msg_queue scenario_at_1000 ++ [qm]
    /\ msg qm = [0; 0; 100; 5; 0]
    /\ min_clock qm = 1000
    /\ last_step_clock (add_move scenario_at_1000 1100 (mk_step_move 100 5 0))
       = 1500.
Proof.
  destruct (add_move_min_clock_is_previous_last_step_clock scenario_at_1000
              1100 (mk_step_move 100 5 0)) as (qm & Hq & Hm & Hmin & Hlast).
  exists qm. split; [ exact Hq | ]. split; [ exact Hm | ].
  split; [ exact Hmin | ]. rewrite Hlast; [ reflexivity | cbn; lia ].
Defined.

(** C2 as stated fails: a move of five steps 100 ticks apart that starts
    at clock 1100 finishes at clock 1500, and its message is enqueued with
    min_clock 1000. *)
Lemma add_move_min_clock_is_not_last_clock :
  let sc' := add_move scenario_at_1000 1100 (mk_step_move 100 5 0) in
  last_step_clock sc' = 1100 + ramp_ticks 100 0 4
  /\ last_step_clock sc' = 1500
  /\ (map min_clock (msg_queue sc') = [1000])
  /\ ~ Forall (fun qm => min_clock qm = last_step_clock sc') (msg_queue sc').
Proof.
  cbn zeta. split; [ reflexivity | ]. split; [ reflexivity | ].
  split; [ reflexivity | ].
  intros H. apply Forall_cons in H as [H _]. vm_compute in H. discriminate.
Qed.

End AddMove.

(** ** Far-future steps *)

Section FarStep.

Lemma calc_last_step_print_time_fields (sc : stepcompress) :
  let sc' := calc_last_step_print_time sc in
  msg_queue sc' = msg_queue sc
  /\ last_step_clock sc' = last_step_clock sc
  /\ last_interval sc' = last_interval sc
  /\ queue sc' = queue sc
  /\ queue_pos sc' = queue_pos sc
  /\ queue_next sc' = queue_next sc
  /\ next_step_clock sc' = next_step_clock sc
  /\ next_step_dir sc' = next_step_dir sc
  /\ sdir sc' = sdir sc.
Proof. repeat split. Qed.

(** The single-step command of [stepcompress_flush_far]. *)
Lemma flush_far_message (sc : stepcompress) (step_clock : Z) :
  step_clock >= u64 (last_step_clock sc + CLOCK_DIFF_MAX) ->
  exists sc2 qm,
    stepcompress_flush_far sc step_clock = Ok sc2
    /\ msg_queue sc2 = msg_queue sc ++ [qm]
    /\ msg qm = [u32 (queue_step_msgtag sc); u32 (oid sc);
                 u32 (step_clock - last_step_clock sc); 1; 0]
    /\ req_clock qm = step_clock
    /\ min_clock qm = last_step_clock sc
    /\ last_step_clock sc2 = u64 step_clock.
Proof.
  intros Hfar. unfold stepcompress_flush_far.
  set (move := mk_step_move _ 1 0).
  set (sc1 := with_last_ideal_step_clock sc step_clock).
  destruct (add_move_message sc1 step_clock move)
    as (qm & Hq & Hm & Hmin & Hreq & Hlast).
  eexists. exists qm. split; [ reflexivity | ].
  destruct (calc_last_step_print_time_fields (add_move sc1 step_clock move))
    as (-> & -> & _).
  split; [ exact Hq | ]. split.
  { rewrite Hm. cbn [interval count add move]. f_equal. f_equal. f_equal.
    unfold u32, wrap. now rewrite Z.mod_mod by lia. }
  split.
  { rewrite Hreq. cbn [count move last_step_clock sc1
                         with_last_ideal_step_clock].
    destruct (Z.geb_spec step_clock
                (u64 (last_step_clock sc + CLOCK_DIFF_MAX))); [ | lia ].
    reflexivity. }
  split; [ exact Hmin | ].
  rewrite Hlast. cbn [count add interval move]. f_equal.
  change (tri_down 1) with 0. rewrite Z.mul_0_r, Z.sub_diag, Z.mul_0_r.
  change (u32 (0 + 0)) with 0. lia.
Qed.

(** C7, as the code has it: a pending step at least CLOCK_DIFF_MAX after
    last_step_clock takes the far path of [queue_append]; the queue is
    first flushed up to step_clock - CLOCK_DIFF_MAX + 1, and when the step
    is still at least CLOCK_DIFF_MAX past the last_step_clock the flush
    left, one queue_step {interval, count = 1, add = 0} is appended with
    req_clock = step_clock, where interval is step_clock - last_step_clock
    reduced modulo 2^32 (the difference itself when it is below 2^32). *)
Theorem queue_append_far_single_step (sc sc1 : stepcompress) :
  let step_clock := next_step_clock sc in
  (next_step_dir sc = sdir sc ->
   step_clock >= u64 (last_step_clock sc + CLOCK_DIFF_MAX) ->
   queue_append sc = queue_append_far sc)
  /\ (queue_flush (with_next_step sc 0 (next_step_dir sc))
        (u64 (step_clock - CLOCK_DIFF_MAX + 1)) = Ok sc1 ->
      step_clock >= u64 (last_step_clock sc1 + CLOCK_DIFF_MAX) ->
      exists sc2 qm,
        queue_append_far sc = Ok sc2
        /\ msg_queue sc2 = msg_queue sc1 ++ [qm]
        /\ msg qm = [u32 (queue_step_msgtag sc1); u32 (oid sc1);
                     (step_clock - last_step_clock sc1) mod 2 ^ 32; 1; 0]
        /\ (0 <= step_clock - last_step_clock sc1 < 2 ^ 32 ->
            msg qm = [u32 (queue_step_msgtag sc1); u32 (oid sc1);
                      step_clock - last_step_clock sc1; 1; 0])
        /\ req_clock qm = step_clock
        /\ last_step_clock sc2 = u64 step_clock)
  /\ (exists sc2 dm qm,
        scenario_S4 = Ok sc2
        /\ msg_queue sc2 = [dm; qm]
        /\ msg qm = [0; 0; 2 * CLOCK_DIFF_MAX; 1; 0]
        /\ req_clock qm = 2 * CLOCK_DIFF_MAX).
Proof.
  intros step_clock. split; [ | split ].
  - intros Hdir Hfar. unfold queue_append.
    rewrite (proj2 (Z.eqb_eq _ _) Hdir). cbn [bind].
    destruct (Z.geb_spec (next_step_clock sc)
                (u64 (last_step_clock sc + CLOCK_DIFF_MAX)));
      [ reflexivity | ].
    subst step_clock. lia.
  - intros Hflush Hfar. unfold queue_append_far. fold step_clock.
    rewrite Hflush. cbn [bind].
    destruct (Z.geb_spec step_clock
                (u64 (last_step_clock sc1 + CLOCK_DIFF_MAX))); [ | lia ].
    destruct (flush_far_message sc1 step_clock Hfar)
      as (sc2 & qm & Hres & Hq & Hm & Hreq & _ & Hlast).
    exists sc2, qm. repeat split; try assumption.
    intros Hlt. rewrite Hm. do 2 f_equal.
    f_equal. now apply u32_small.
  - do 3 eexists. split; [ vm_compute; reflexivity | ].
    repeat split.
Qed.

Lemma queue_append_far_single_step_witness :
  let sc := with_next_step (scenario_stepper 0) (2 * CLOCK_DIFF_MAX) 1 in
  exists sc2 qm,
    queue_append_far sc = Ok sc2
    /\ msg_queue sc2 = [qm]
    /\ msg qm = [0; 0; 2 * CLOCK_DIFF_MAX; 1; 0]
    /\ req_clock qm = 2 * CLOCK_DIFF_MAX
    /\ last_step_clock sc2 = 2 * CLOCK_DIFF_MAX.
Proof.
  intros sc.
  destruct (queue_append_far_single_step sc
              (with_next_step sc 0 (next_step_dir sc)))
    as (_ & Hfar & _).
  destruct Hfar as (sc2 & qm & Hres & Hq & _ & Hm & Hreq & Hlast).
  - reflexivity.
  - vm_compute. discriminate.
  - exists sc2, qm. split; [ exact Hres | ]. split; [ exact Hq | ].
    split; [ apply Hm; vm_compute; split; [ discriminate | reflexivity ] | ].
    split; [ exact Hreq | exact Hlast ].
Defined.

(** C7 as stated fails for a step 2^32 ticks or more after
    last_step_clock: a first step at clock 2^32 + 5 is sent with
    interval 5. *)
Lemma far_step_interval_wraps :
  exists sc1 sc2 dm qm,
    stepcompress_append (scenario_stepper 0) 1 0%float 4294.967301%float
    = Ok sc1
    /\ last_step_clock sc1 = 0
    /\ next_step_clock sc1 = 2 ^ 32 + 5
    /\ stepcompress_commit sc1 = Ok sc2
    /\ msg_queue sc2 = [dm; qm]
    /\ msg qm = [0; 0; 5; 1; 0]
    /\ req_clock qm = 2 ^ 32 + 5
    /\ nth 2 (msg qm) 0 <> next_step_clock sc1 - last_step_clock sc1.
Proof.
  do 4 eexists.
  split; [ vm_compute; reflexivity | ].
  do 2 (split; [ vm_compute; reflexivity | ]).
  split; [ vm_compute; reflexivity | ].
  do 3 (split; [ reflexivity | ]).
  vm_compute. discriminate.
Qed.

End FarStep.

(** ** The step queue under flush and append *)

Section QueueBounds.

Lemma add_move_frame (sc : stepcompress) (fc : Z) (m : step_move) :
  let sc' := add_move sc fc m in
  queue sc' = queue sc
  /\ queue_pos sc' = queue_pos sc
  /\ queue_next sc' = queue_next sc
  /\ next_step_clock sc' = next_step_clock sc
  /\ next_step_dir sc' = next_step_dir sc
  /\ sdir sc' = sdir sc
  /\ max_error sc' = max_error sc.
Proof. repeat split. Qed.

Lemma wrap_compress_count_range (sc : stepcompress) :
  0 <= count (wrap_compress sc) < 2 ^ 16.
Proof.
  unfold wrap_compress.
  repeat match goal with
         | |- context [if ?b then _ else _] => destruct b
         end; cbn [count]; apply u16_range.
Qed.

(** What a pass of the flush loop does to the queue cursors. *)
Lemma queue_flush_pass_cursors (sc sc' : stepcompress) (brk : bool) :
  queue_flush_pass sc = Ok (sc', brk) ->
  queue sc' = queue sc
  /\ next_step_clock sc' = next_step_clock sc
  /\ next_step_dir sc' = next_step_dir sc
  /\ sdir sc' = sdir sc
  /\ check_line sc (wrap_compress sc) = Ok tt
  /\ (if brk then queue_pos sc' = 0 /\ queue_next sc' = 0
      else queue_next sc' = queue_next sc
           /\ queue_pos sc' = queue_pos sc + count (wrap_compress sc)
           /\ queue_pos sc' < queue_next sc').
Proof.
  unfold queue_flush_pass.
  destruct (check_line sc (wrap_compress sc)) as [[] | e]; cbn [bind];
    [ | discriminate ].
  match goal with
  | |- context [if ?b then _ else _] => destruct b eqn:Hcmp
  end; intros [= <- <-]; cbn in *.
  - repeat split.
  - repeat split. lia.
Qed.

(** The first pass that leaves the loop or runs out of clock ends it; the
    cursors stay inside the cells that were queued. *)
Lemma queue_flush_loop_cursors (fuel : nat) (sc sc' : stepcompress)
    (move_clock : Z) :
  queue_flush_loop fuel sc move_clock = Ok sc' ->
  queue_pos sc <= queue_next sc ->
  queue sc' = queue sc
  /\ next_step_clock sc' = next_step_clock sc
  /\ next_step_dir sc' = next_step_dir sc
  /\ sdir sc' = sdir sc
  /\ ((queue_pos sc' = 0 /\ queue_next sc' = 0)
      \/ (queue_next sc' = queue_next sc
          /\ queue_pos sc <= queue_pos sc' <= queue_next sc')).
Proof.
  revert sc. induction fuel as [| fuel IH]; intros sc Hrun Hpos;
    cbn [queue_flush_loop] in Hrun;
    destruct (last_step_clock sc <? move_clock);
    try (injection Hrun as <-; repeat split; right; lia);
    destruct (queue_flush_pass sc) as [[sc1 brk] | e] eqn:Hpass;
    cbn [bind] in Hrun; try discriminate;
    pose proof (wrap_compress_count_range sc) as Hcount;
    apply queue_flush_pass_cursors in Hpass
      as (Hq & Hc & Hd & Hs & _ & Hcur);
    destruct brk.
  - injection Hrun as <-. destruct Hcur. repeat split; try assumption.
    left. split; assumption.
  - injection Hrun as <-. destruct Hcur as (Hn & Hp & Hlt).
    repeat split; try assumption. right. lia.
  - injection Hrun as <-. destruct Hcur. repeat split; try assumption.
    left. split; assumption.
  - destruct Hcur as (Hn & Hp & Hlt).
    apply IH in Hrun as (Hq' & Hc' & Hd' & Hs' & Hcur'); [ | lia ].
    repeat split; try congruence.
    destruct Hcur' as [? | (? & ? & ?)]; [ left; assumption | right; lia ].
Qed.

Lemma queue_flush_cursors (sc sc' : stepcompress) (move_clock : Z) :
  queue_flush sc move_clock = Ok sc' ->
  queue_pos sc <= queue_next sc ->
  queue sc' = queue sc
  /\ next_step_clock sc' = next_step_clock sc
  /\ next_step_dir sc' = next_step_dir sc
  /\ sdir sc' = sdir sc
  /\ ((queue_pos sc' = 0 /\ queue_next sc' = 0)
      \/ (queue_next sc' = queue_next sc
          /\ queue_pos sc <= queue_pos sc' <= queue_next sc')).
Proof.
  unfold queue_flush. intros Hrun Hpos.
  destruct (queue_pos sc >=? queue_next sc).
  - injection Hrun as <-. repeat split. right. lia.
  - destruct (queue_flush_loop _ sc move_clock) as [sc1 | e] eqn:Hloop;
      cbn [bind] in Hrun; [ | discriminate ].
    injection Hrun as <-.
    apply queue_flush_loop_cursors in Hloop; [ | assumption ].
    exact Hloop.
Qed.

Lemma check_line_count (sc : stepcompress) (move : step_move) :
  check_line sc move = Ok tt -> count move <> 0.
Proof.
  unfold check_line. destruct (Z.eqb_spec (count move) 0); [ | auto ].
  discriminate.
Qed.

(** The flush loop does not use up its fuel: every pass that stays in the
    loop consumes a cell and leaves one. *)
Lemma queue_flush_loop_fuel (move_clock : Z) (fuel : nat) :
  forall (sc : stepcompress) (extra : nat),
    queue_next sc - queue_pos sc <= Z.of_nat fuel ->
    queue_flush_loop (fuel + extra) sc move_clock
    = queue_flush_loop fuel sc move_clock.
Proof.
  induction fuel as [| fuel IH]; intros sc extra Hfuel.
  - destruct extra as [| extra]; [ reflexivity | ].
    cbn [Nat.add queue_flush_loop].
    destruct (last_step_clock sc <? move_clock); [ | reflexivity ].
    destruct (queue_flush_pass sc) as [[sc' brk] | e] eqn:Hpass;
      cbn [bind]; [ | reflexivity ].
    destruct brk; [ reflexivity | ].
    apply queue_flush_pass_cursors in Hpass
      as (_ & _ & _ & _ & Hcheck & Hn & Hp & Hlt).
    pose proof (wrap_compress_count_range sc).
    apply check_line_count in Hcheck. lia.
  - cbn [Nat.add queue_flush_loop].
    destruct (last_step_clock sc <? move_clock); [ | reflexivity ].
    destruct (queue_flush_pass sc) as [[sc' brk] | e] eqn:Hpass;
      cbn [bind]; [ | reflexivity ].
    destruct brk; [ reflexivity | ].
    apply queue_flush_pass_cursors in Hpass
      as (_ & _ & _ & _ & Hcheck & Hn & Hp & Hlt).
    pose proof (wrap_compress_count_range sc).
    apply check_line_count in Hcheck.
    apply IH. lia.
Qed.

Lemma queue_flush_fuel (sc : stepcompress) (move_clock : Z) (extra : nat) :
  queue_flush_loop (Z.to_nat (queue_next sc - queue_pos sc) + extra) sc
    move_clock
  = queue_flush_loop (Z.to_nat (queue_next sc - queue_pos sc)) sc move_clock.
Proof. apply queue_flush_loop_fuel. lia. Qed.

(** The doubling of the allocation ends within its 32 passes. *)
Lemma grow_alloc_fuel (in_use0 : Z) (fuel : nat) :
  forall (alloc : Z) (extra : nat),
    1 <= alloc < 2 ^ 31 -> in_use0 < 2 ^ 30 ->
    in_use0 < alloc * 2 ^ Z.of_nat fuel ->
    grow_alloc (fuel + extra) in_use0 alloc = grow_alloc fuel in_use0 alloc.
Proof.
  induction fuel as [| fuel IH]; intros alloc extra Halloc Huse Hfuel.
  - cbn in Hfuel. destruct extra as [| extra]; [ reflexivity | ].
    cbn [Nat.add grow_alloc].
    destruct (Z.geb_spec in_use0 alloc); [ lia | reflexivity ].
  - cbn [Nat.add grow_alloc].
    destruct (Z.geb_spec in_use0 alloc); [ | reflexivity ].
    rewrite s32_small by lia.
    apply IH; [ lia | exact Huse | ].
    rewrite Nat2Z.inj_succ, Z.pow_succ_r in Hfuel by lia. lia.
Qed.

(** Making room and storing the pending step: the tail of
    [queue_append_extend], after its flush. *)
Lemma extend_store_in_use (sc sc' : stepcompress) :
  0 <= queue_pos sc <= queue_next sc ->
  queue_next sc < 2 ^ 31 ->
  queue_append_extend sc = Ok sc' ->
  in_use sc <= 65535 + 2000 ->
  in_use sc' = in_use sc + 1
  /\ msg_queue sc' = msg_queue sc
  /\ last_step_clock sc' = last_step_clock sc
  /\ sdir sc' = sdir sc
  /\ next_step_dir sc' = next_step_dir sc
  /\ next_step_clock sc' = 0
  /\ 0 <= queue_pos sc' <= queue_pos sc
  /\ mcu_freq sc' = mcu_freq sc
  /\ last_step_print_time sc' = last_step_print_time sc.
Proof.
  unfold queue_append_extend, in_use. intros Hpos Hnext Hrun Hsmall.
  destruct (Z.gtb_spec (queue_next sc - queue_pos sc) (65535 + 2000));
    [ lia | ].
  cbn [bind] in Hrun. injection Hrun as <-.
  rewrite (s32_small (queue_next sc - queue_pos sc)) by lia.
  destruct (queue_next sc >=? queue_end sc); [ destruct (queue_pos sc >? 0) | ];
    cbn; repeat split; lia.
Qed.

End QueueBounds.

Section QueueCap.

(** An append that changes no direction, is not far and finds at most
    65535 + 2000 cells in use stores the pending step, flushing nothing. *)
Lemma queue_append_stores (sc : stepcompress) :
  next_step_dir sc = sdir sc ->
  next_step_clock sc < u64 (last_step_clock sc + CLOCK_DIFF_MAX) ->
  0 <= queue_pos sc <= queue_next sc ->
  queue_next sc < 2 ^ 31 ->
  queue_next sc < queue_end sc \/ in_use sc <= 65535 + 2000 ->
  exists sc',
    queue_append sc = Ok sc'
    /\ in_use sc' = in_use sc + 1
    /\ msg_queue sc' = msg_queue sc
    /\ last_step_clock sc' = last_step_clock sc
    /\ sdir sc' = sdir sc
    /\ next_step_dir sc' = next_step_dir sc
    /\ next_step_clock sc' = 0
    /\ 0 <= queue_pos sc' <= queue_pos sc
    /\ mcu_freq sc' = mcu_freq sc
    /\ last_step_print_time sc' = last_step_print_time sc.
Proof.
  intros Hdir Hnear Hpos Hnext Hroom. unfold queue_append.
  rewrite (proj2 (Z.eqb_eq _ _) Hdir). cbn [bind].
  destruct (Z.geb_spec (next_step_clock sc)
              (u64 (last_step_clock sc + CLOCK_DIFF_MAX))); [ lia | ].
  destruct (Z.geb_spec (queue_next sc) (queue_end sc)) as [Hfull | Hfree].
  - destruct Hroom as [Hroom | Hroom]; [ lia | ].
    destruct (queue_append_extend sc) as [sc' | e] eqn:Hext.
    + exists sc'. split; [ reflexivity | ].
      now apply extend_store_in_use.
    + unfold queue_append_extend in Hext. unfold in_use in Hroom.
      destruct (Z.gtb_spec (queue_next sc - queue_pos sc) (65535 + 2000));
        [ lia | discriminate ].
  - eexists. split; [ reflexivity | ]. unfold in_use. cbn.
    repeat split; lia.
Qed.

(** C3, as the code has it: the cap of 65535 + 2000 unconsumed entries is
    looked at only by [queue_append_extend], that is when an append finds
    the buffer full.  An append with room in the buffer, or with at most
    65535 + 2000 entries in use, stores the step and flushes nothing, so
    the count grows by one whatever it was; an append that finds the
    buffer full with more entries in use first flushes up to the clock of
    the entry at queue_next - 65535 and then stores the step. *)
Theorem queue_cap_checked_when_full (sc : stepcompress) :
  next_step_dir sc = sdir sc ->
  next_step_clock sc < u64 (last_step_clock sc + CLOCK_DIFF_MAX) ->
  0 <= queue_pos sc <= queue_next sc ->
  queue_next sc < 2 ^ 31 ->
  (queue_next sc < queue_end sc \/ in_use sc <= 65535 + 2000 ->
   exists sc',
     queue_append sc = Ok sc'
     /\ in_use sc' = in_use sc + 1
     /\ msg_queue sc' = msg_queue sc
     /\ last_step_clock sc' = last_step_clock sc)
  /\ (queue_next sc >= queue_end sc -> in_use sc > 65535 + 2000 ->
      forall sc', queue_append sc = Ok sc' ->
      exists sc1,
        queue_flush sc
          (u64 (last_step_clock sc
                + u32 (peek (queue sc) (queue_next sc - 65535)
                       - u32 (last_step_clock sc)))) = Ok sc1
        /\ in_use sc1 <= in_use sc
        /\ in_use sc' = in_use sc1 + 1).
Proof.
  intros Hdir Hnear Hpos Hnext. split.
  - intros Hroom.
    destruct (queue_append_stores sc Hdir Hnear Hpos Hnext Hroom)
      as (sc' & Hrun & Huse & Hmsg & Hclock & _).
    exists sc'. repeat split; assumption.
  - intros Hfull Hmany sc' Hrun. unfold queue_append in Hrun.
    rewrite (proj2 (Z.eqb_eq _ _) Hdir) in Hrun. cbn [bind] in Hrun.
    destruct (Z.geb_spec (next_step_clock sc)
                (u64 (last_step_clock sc + CLOCK_DIFF_MAX))); [ lia | ].
    destruct (Z.geb_spec (queue_next sc) (queue_end sc)); [ | lia ].
    unfold queue_append_extend in Hrun. unfold in_use in Hmany.
    destruct (Z.gtb_spec (queue_next sc - queue_pos sc) (65535 + 2000));
      [ | lia ].
    destruct (queue_flush sc _) as [sc1 | e] eqn:Hflush;
      cbn [bind] in Hrun; [ | discriminate ].
    exists sc1. split; [ reflexivity | ].
    apply queue_flush_cursors in Hflush as (_ & _ & _ & _ & Hcur); [ | lia ].
    injection Hrun as <-. unfold in_use.
    assert (Hs : s32 (queue_next sc1 - queue_pos sc1)
                 = queue_next sc1 - queue_pos sc1).
    { apply s32_small. destruct Hcur as [(-> & ->) | (-> & ?)]; lia. }
    split; [ destruct Hcur as [(-> & ->) | (-> & ?)]; lia | ].
    rewrite Hs.
    destruct (queue_next sc1 >=? queue_end sc1);
      [ destruct (queue_pos sc1 >? 0) | ]; cbn; lia.
Qed.

(** The scenario steps accumulate as long as the cap is not looked at. *)
Lemma append_steps_accumulate (n : nat) :
  forall (k : Z) (sc : stepcompress),
    scenario_clocks_near n k = true ->
    last_step_clock sc = 0 ->
    last_step_print_time sc = last_step_print_time (scenario_stepper 0) ->
    mcu_freq sc = mcu_freq (scenario_stepper 0) ->
    sdir sc = 1 -> next_step_dir sc = 1 ->
    0 < next_step_clock sc < CLOCK_DIFF_MAX ->
    queue_pos sc = 0 -> 0 <= queue_next sc ->
    in_use sc + Z.of_nat n <= 65535 + 2000 + 1 ->
    exists sc',
      append_steps n k 1 sc = Ok sc'
      /\ in_use sc' = in_use sc + Z.of_nat n
      /\ msg_queue sc' = msg_queue sc.
Proof.
  induction n as [| n IH];
    intros k sc Hclocks Hlsc Hpt Hfreq Hsdir Hdir Hpend Hpos Hnext Hcap.
  - exists sc. cbn. repeat split. lia.
  - cbn [scenario_clocks_near] in Hclocks.
    apply andb_prop in Hclocks as [Hk Hrest].
    apply andb_prop in Hk as [Hk0 Hk1].
    apply Z.ltb_lt in Hk0, Hk1.
    assert (Hclock : append_step_clock sc 0%float (of_Z k * 0.000001)%float
                     = scenario_clock k).
    { unfold scenario_clock, append_step_clock. now rewrite Hlsc, Hpt, Hfreq. }
    assert (Hcdm : u64 (last_step_clock sc + CLOCK_DIFF_MAX) = CLOCK_DIFF_MAX)
      by (rewrite Hlsc; reflexivity).
    assert (Hroom : queue_next sc < queue_end sc
                    \/ in_use sc <= 65535 + 2000) by (right; lia).
    assert (Hsmall : queue_next sc < 2 ^ 31) by (unfold in_use in Hcap; lia).
    destruct (queue_append_stores sc ltac:(congruence) ltac:(lia) ltac:(lia)
                Hsmall Hroom) as
      (sc1 & Hrun & Huse & Hmsg & Hlsc1 & Hsdir1 & Hdir1 & Hpend1 & Hpos1
       & Hfreq1 & Hpt1).
    assert (Hnext1 : 0 <= queue_next sc1) by (unfold in_use in Huse; lia).
    cbn [append_steps]. unfold stepcompress_append.
    destruct (Z.eqb_spec (next_step_clock sc) 0); [ lia | ].
    rewrite Hdir. change (negb (1 =? 1)) with false. cbn [andb].
    rewrite Hrun. cbn [bind]. rewrite Hclock.
    destruct (IH (k + 1) (with_next_step sc1 (scenario_clock k) 1) Hrest)
      as (sc' & Hrun' & Huse' & Hmsg');
      [ exact (eq_trans Hlsc1 Hlsc) | exact (eq_trans Hpt1 Hpt)
      | exact (eq_trans Hfreq1 Hfreq) | exact (eq_trans Hsdir1 Hsdir)
      | reflexivity | cbn; lia | cbn; lia | cbn; lia
      | unfold in_use in *; cbn; lia | ].
    exists sc'. split; [ exact Hrun' | ].
    unfold in_use in *. cbn in Huse', Hmsg'. split; [ lia | congruence ].
Qed.

Lemma append_steps_split (a b : nat) (k d : Z) (sc : stepcompress) :
  append_steps (a + b) k d sc
  = (do sc' <- append_steps a k d sc;
     append_steps b (k + Z.of_nat a) d sc').
Proof.
  revert k sc. induction a as [| a IH]; intros k sc.
  - cbn. now rewrite Z.add_0_r.
  - cbn [Nat.add append_steps].
    destruct (stepcompress_append sc d _ _) as [sc1 | e]; cbn [bind];
      [ | reflexivity ].
    rewrite IH. rewrite Nat2Z.inj_succ.
    now replace (k + 1 + Z.of_nat a) with (k + Z.succ (Z.of_nat a)) by lia.
Qed.

(** C3 as stated fails: 65535 + 2000 + 2 steps of one direction, appended
    one microsecond apart to a fresh stepper and never flushed, all
    succeed and leave 65535 + 2000 + 1 entries in the queue. *)
Lemma queue_outgrows_cap :
  exists sc,
    append_steps (2 + Z.to_nat (65535 + 2000)) 1 1 (scenario_stepper 0) = Ok sc
    /\ queue_next sc - queue_pos sc = 65535 + 2000 + 1
    /\ ~ (queue_next sc - queue_pos sc <= 65535 + 2000).
Proof.
  rewrite append_steps_split.
  assert (Hclocks : scenario_clocks_near (Z.to_nat (65535 + 2000)) 3 = true)
    by (vm_compute; reflexivity).
  set (first := append_steps 2 1 1 (scenario_stepper 0)).
  assert (Hfirst : exists sc2, first = Ok sc2
            /\ last_step_clock sc2 = 0
            /\ last_step_print_time sc2
               = last_step_print_time (scenario_stepper 0)
            /\ mcu_freq sc2 = mcu_freq (scenario_stepper 0)
            /\ sdir sc2 = 1 /\ next_step_dir sc2 = 1
            /\ next_step_clock sc2 = 2
            /\ queue_pos sc2 = 0 /\ queue_next sc2 = 1).
  { eexists. split; [ vm_compute; reflexivity | ]. repeat split. }
  destruct Hfirst as (sc2 & -> & Hlsc & Hpt & Hfreq & Hsdir & Hdir & Hpend
                      & Hp & Hn).
  cbn [bind].
  destruct (append_steps_accumulate (Z.to_nat (65535 + 2000)) (1 + Z.of_nat 2)
              sc2) as (sc & Hrun & Huse & _); try assumption.
  - rewrite Hpend. vm_compute. split; reflexivity.
  - lia.
  - unfold in_use. rewrite Z2Nat.id by lia. lia.
  - exists sc. split; [ exact Hrun | ].
    unfold in_use in Huse. rewrite Z2Nat.id in Huse by lia. lia.
Qed.

End QueueCap.

(** ** The order of the batch *)

Section BatchOrder.

Variable MAX_CLOCK : Z.
Variable move_clock : Z.

(** The scan returns the lowest of the head clocks below its starting
    bound, with a head that has it. *)
Lemma find_lowest_spec (scs : list stepcompress) :
  forall (i : nat) (lowest : Z) (qm : option (nat * queue_message)),
    let r := find_lowest scs i lowest qm in
    fst r <= lowest
    /\ (forall j sc m rest,
          scs !! j = Some sc -> msg_queue sc = m :: rest ->
          fst r <= req_clock m)
    /\ (r = (lowest, qm)
        \/ exists j sc m rest,
             r = (req_clock m, Some ((i + j)%nat, m))
             /\ scs !! j = Some sc /\ msg_queue sc = m :: rest).
Proof.
  induction scs as [| sc tl IH]; intros i lowest qm; cbn zeta.
  - cbn. split; [ lia | ]. split; [ | now left ].
    intros j sc m rest H. discriminate.
  - cbn [find_lowest].
    destruct (msg_queue sc) as [| m rest] eqn:Hq.
    + destruct (IH (S i) lowest qm) as (Hle & Hall & Hsel).
      split; [ exact Hle | ]. split.
      * intros [| j] sc' m' rest' Hj Hq'; cbn in Hj.
        -- injection Hj as <-. congruence.
        -- eapply Hall; eassumption.
      * destruct Hsel as [Hsel | (j & sc' & m' & rest' & Hs & Hj & Hq')];
          [ now left | right ].
        exists (S j), sc', m', rest'. rewrite Nat.add_succ_r. auto.
    + destruct (Z.ltb_spec (req_clock m) lowest) as [Hlt | Hge].
      * destruct (IH (S i) (req_clock m) (Some (i, m))) as (Hle & Hall & Hsel).
        split; [ lia | ]. split.
        -- intros [| j] sc' m' rest' Hj Hq'; cbn in Hj.
           ++ injection Hj as <-. rewrite Hq in Hq'. injection Hq' as <- <-.
              exact Hle.
           ++ eapply Hall; eassumption.
        -- right.
           destruct Hsel as [Hsel | (j & sc' & m' & rest' & Hs & Hj & Hq')].
           ++ exists O, sc, m, rest. rewrite Nat.add_0_r. auto.
           ++ exists (S j), sc', m', rest'. rewrite Nat.add_succ_r. auto.
      * destruct (IH (S i) lowest qm) as (Hle & Hall & Hsel).
        split; [ exact Hle | ]. split.
        -- intros [| j] sc' m' rest' Hj Hq'; cbn in Hj.
           ++ injection Hj as <-. rewrite Hq in Hq'. injection Hq' as <- <-.
              lia.
           ++ eapply Hall; eassumption.
        -- destruct Hsel as [Hsel | (j & sc' & m' & rest' & Hs & Hj & Hq')];
             [ now left | right ].
           exists (S j), sc', m', rest'. rewrite Nat.add_succ_r. auto.
Qed.

(** What the scan of [order_loop] finds. *)
Lemma find_lowest_head (scs : list stepcompress) (lowest : Z) (i : nat)
    (qm : queue_message) :
  find_lowest scs 0 MAX_CLOCK None = (lowest, Some (i, qm)) ->
  lowest = req_clock qm
  /\ (exists sc rest, scs !! i = Some sc /\ msg_queue sc = qm :: rest)
  /\ (forall j sc m rest,
        scs !! j = Some sc -> msg_queue sc = m :: rest ->
        req_clock qm <= req_clock m).
Proof.
  intros Hfind.
  destruct (find_lowest_spec scs 0 MAX_CLOCK None) as (_ & Hall & Hsel).
  rewrite Hfind in Hall, Hsel. cbn [fst] in Hall.
  destruct Hsel as [Hsel | (j & sc & m & rest & Hs & Hj & Hq)];
    [ discriminate | ].
  injection Hs as -> -> ->. cbn [Nat.add] in *.
  split; [ reflexivity | ]. split; [ exists sc, rest; auto | exact Hall ].
Qed.

Lemma commands_lookup (scs : list stepcompress) (i : nat) (sc : stepcompress) :
  scs !! i = Some sc ->
  commands scs !! i = Some (map command_of (msg_queue sc)).
Proof.
  revert i. induction scs as [| sc0 tl IH]; intros [| i] H; cbn in *;
    try discriminate.
  - now injection H as <-.
  - now apply IH.
Qed.

Lemma commands_insert (scs : list stepcompress) (i : nat) (sc : stepcompress) :
  commands (<[i := sc]> scs)
  = <[i := map command_of (msg_queue sc)]> (commands scs).
Proof.
  revert i. induction scs as [| sc0 tl IH]; intros [| i]; cbn;
    try reflexivity.
  f_equal. apply IH.
Qed.

Lemma pop_msg_commands (scs : list stepcompress) (i : nat)
    (sc : stepcompress) (qm : queue_message) (rest : list queue_message) :
  scs !! i = Some sc -> msg_queue sc = qm :: rest ->
  commands (pop_msg scs i) = <[i := map command_of rest]> (commands scs).
Proof.
  intros Hi Hq. unfold pop_msg. rewrite Hi, commands_insert. cbn.
  now rewrite Hq.
Qed.

(** Every pass of [order_loop] takes the head of one stepper's queue:
    the batch is drawn from the queues, head by head. *)
Lemma order_loop_drawn (fuel : nat) :
  forall (scs : list stepcompress) (mc : list Z) (msgs : list queue_message)
         (scs' : list stepcompress) (mc' : list Z)
         (out : list queue_message),
    order_loop fuel MAX_CLOCK move_clock scs mc msgs = (scs', mc', out) ->
    exists (tags : list nat) (batch : list queue_message),
      out = msgs ++ batch
      /\ length tags = length batch
      /\ drawn_from (commands scs) (zip tags (map command_of batch))
           (commands scs').
Proof.
  induction fuel as [| fuel IH]; intros scs mc msgs scs' mc' out Hrun;
    cbn [order_loop] in Hrun;
    destruct (find_lowest scs 0 MAX_CLOCK None) as [lowest [[i qm] |]] eqn:Hf;
    try (injection Hrun as <- <- <-; exists [], [];
         rewrite app_nil_r; repeat split; constructor);
    (destruct (negb (min_clock qm =? 0) && (lowest >? move_clock));
     [ injection Hrun as <- <- <-; exists [], [];
       rewrite app_nil_r; repeat split; constructor | ]);
    apply find_lowest_head in Hf as (-> & (sc & rest & Hi & Hq) & _).
  - injection Hrun as <- <- <-.
    exists [i], [mk_queue_message (msg qm) (peek mc 0) (req_clock qm)].
    repeat split. cbn [zip_with map].
    apply drawn_head with (rest := map command_of rest).
    + rewrite (commands_lookup _ _ _ Hi), Hq. reflexivity.
    + rewrite <- (pop_msg_commands _ _ _ _ _ Hi Hq). constructor.
  - apply IH in Hrun as (tags & batch & -> & Hlen & Hdrawn).
    exists (i :: tags),
      (mk_queue_message (msg qm) (peek mc 0) (req_clock qm) :: batch).
    rewrite <- app_assoc. repeat split; [ cbn; now rewrite Hlen | ].
    cbn [zip_with map]. apply drawn_head with (rest := map command_of rest).
    + rewrite (commands_lookup _ _ _ Hi), Hq. reflexivity.
    + rewrite <- (pop_msg_commands _ _ _ _ _ Hi Hq). exact Hdrawn.
Qed.

Lemma queued_msgs_cons (sc : stepcompress) (tl : list stepcompress) :
  queued_msgs (sc :: tl) = (length (msg_queue sc) + queued_msgs tl)%nat.
Proof. reflexivity. Qed.

Lemma queued_msgs_insert (scs : list stepcompress) (i : nat)
    (sc sc' : stepcompress) :
  scs !! i = Some sc ->
  S (length (msg_queue sc')) = length (msg_queue sc) ->
  S (queued_msgs (<[i := sc']> scs)) = queued_msgs scs.
Proof.
  revert i. induction scs as [| sc0 tl IH]; intros i Hi Hlen.
  - destruct i; discriminate.
  - destruct i as [| i]; cbn in Hi.
    + injection Hi as ->.
      change (<[0%nat := sc']> (sc :: tl)) with (sc' :: tl).
      rewrite !queued_msgs_cons. lia.
    + change (<[S i := sc']> (sc0 :: tl)) with (sc0 :: <[i := sc']> tl).
      rewrite !queued_msgs_cons. specialize (IH i Hi Hlen). lia.
Qed.

(** The merge does not use up its fuel: every pass that stays in the loop
    unlinks a queued message. *)
Lemma order_loop_fuel (fuel : nat) :
  forall (scs : list stepcompress) (mc : list Z) (msgs : list queue_message)
         (extra : nat),
    (queued_msgs scs <= fuel)%nat ->
    order_loop (fuel + extra) MAX_CLOCK move_clock scs mc msgs
    = order_loop fuel MAX_CLOCK move_clock scs mc msgs.
Proof.
  induction fuel as [| fuel IH]; intros scs mc msgs extra Hfuel;
    [ destruct extra as [| extra]; [ reflexivity | ] | ];
    cbn [Nat.add order_loop];
    destruct (find_lowest scs 0 MAX_CLOCK None) as [lowest [[i qm] |]] eqn:Hf;
    try reflexivity;
    (destruct (negb (min_clock qm =? 0) && (lowest >? move_clock));
     [ reflexivity | ]);
    apply find_lowest_head in Hf as (_ & (sc & rest & Hi & Hq) & _);
    assert (Hpop : S (queued_msgs (pop_msg scs i)) = queued_msgs scs)
      by (unfold pop_msg; rewrite Hi;
          apply (queued_msgs_insert scs i sc); [ exact Hi | ];
          cbn; now rewrite Hq).
  - lia.
  - apply IH. lia.
Qed.

Lemma poke_length (mc : list Z) (pos v : Z) :
  length (poke mc pos v) = length mc.
Proof.
  unfold poke. destruct (pos <? 0); [ reflexivity | apply length_insert ].
Qed.

(** The sift does not use up its fuel: every pass that stays in the loop
    moves to a child, and past the end of the heap it stops. *)
Lemma heap_replace_loop_fuel (req : Z) (fuel : nat) :
  forall (mc : list Z) (pos : Z) (extra : nat),
    req <= UINT64_MAX -> 0 <= pos ->
    Z.of_nat (length mc) <= Z.of_nat fuel + pos ->
    heap_replace_loop (fuel + extra) mc req pos
    = heap_replace_loop fuel mc req pos.
Proof.
  induction fuel as [| fuel IH]; intros mc pos extra Hreq Hpos Hfuel.
  - destruct extra as [| extra]; [ reflexivity | ].
    cbn [Nat.add heap_replace_loop].
    destruct (Z.ltb_spec (2 * pos + 2) (Z.of_nat (length mc))); [ lia | ].
    destruct (Z.ltb_spec (2 * pos + 1) (Z.of_nat (length mc))); [ lia | ].
    destruct (Z.leb_spec req UINT64_MAX); [ reflexivity | lia ].
  - cbn [Nat.add heap_replace_loop].
    destruct (_ && _); [ reflexivity | ].
    destruct (_ <? _); apply IH; rewrite ?poke_length; lia.
Qed.

Lemma heap_replace_fuel (mc : list Z) (req : Z) (extra : nat) :
  req <= UINT64_MAX ->
  heap_replace_loop (length mc + extra) mc req 0 = heap_replace mc req.
Proof.
  intros Hreq. unfold heap_replace. apply heap_replace_loop_fuel; lia.
Qed.

(** Drawing head by head keeps every stepper's own order: the picks of a
    stepper, in batch order, are the front of its queue. *)
Lemma drawn_from_front (qs qs' : list (list command))
    (picks : list (nat * command)) :
  drawn_from qs picks qs' ->
  forall (i : nat) (q : list command),
    qs !! i = Some q ->
    exists q', qs' !! i = Some q' /\ q = picks_of i picks ++ q'.
Proof.
  induction 1 as [qs | qs qs' j c rest picks Hj Hdrawn IH]; intros i q Hi.
  - exists q. split; [ exact Hi | reflexivity ].
  - unfold picks_of. cbn [List.filter fst].
    destruct (Nat.eqb_spec j i) as [-> | Hne].
    + rewrite Hi in Hj. injection Hj as ->.
      destruct (IH i rest) as (q' & Hq' & ->).
      { apply list_lookup_insert_eq. eapply lookup_lt_Some. exact Hi. }
      exists q'. split; [ exact Hq' | reflexivity ].
    + destruct (IH i q) as (q' & Hq' & ->).
      { rewrite list_lookup_insert_ne by exact Hne. exact Hi. }
      exists q'. split; [ exact Hq' | reflexivity ].
Qed.

(** Every pick names one of the steppers. *)
Lemma drawn_from_tags (qs qs' : list (list command))
    (picks : list (nat * command)) :
  drawn_from qs picks qs' ->
  Forall (fun p => (fst p < length qs)%nat) picks.
Proof.
  induction 1 as [qs | qs qs' j c rest picks Hj Hdrawn IH].
  - constructor.
  - constructor.
    + cbn. eapply lookup_lt_Some. exact Hj.
    + now rewrite length_insert in IH.
Qed.

Lemma zip_tags (tags : list nat) (cs : list command) :
  length tags = length cs -> map fst (zip tags cs) = tags.
Proof.
  revert cs. induction tags as [| t tags IH]; intros [| c cs] Hlen;
    cbn in *; try discriminate; [ reflexivity | ].
  now rewrite IH by lia.
Qed.

Lemma strongly_sorted_snoc (l : list Z) (x : Z) :
  StronglySorted Z.le l -> Forall (fun y => y <= x) l ->
  StronglySorted Z.le (l ++ [x]).
Proof.
  induction 1 as [| y l Hs IH Hy]; intros Hall; cbn.
  - repeat constructor.
  - apply Forall_cons in Hall as [Hyx Hall]. constructor.
    + now apply IH.
    + apply Forall_app. split; [ exact Hy | now constructor ].
Qed.

Lemma queues_sorted_pop (scs : list stepcompress) (i : nat) :
  queues_sorted scs -> queues_sorted (pop_msg scs i).
Proof.
  unfold queues_sorted, pop_msg. intros Hs.
  destruct (scs !! i) as [sc |] eqn:Hi; [ | exact Hs ].
  apply Forall_insert; [ exact Hs | ].
  cbn. pose proof (proj1 (Forall_lookup _ _) Hs i sc Hi) as Hsc.
  cbn in Hsc. destruct (msg_queue sc) as [| m rest]; [ constructor | ].
  cbn in *. now inversion Hsc.
Qed.

(** A clock below every head of sorted queues is below every queued
    message. *)
Lemma head_bound_all (scs : list stepcompress) (b : Z) :
  queues_sorted scs ->
  (forall j sc m rest,
     scs !! j = Some sc -> msg_queue sc = m :: rest -> b <= req_clock m) ->
  forall j sc m,
    scs !! j = Some sc -> In m (msg_queue sc) -> b <= req_clock m.
Proof.
  intros Hs Hheads j sc m Hj Hin.
  pose proof (proj1 (Forall_lookup _ _) Hs j sc Hj) as Hsc. cbn in Hsc.
  destruct (msg_queue sc) as [| m0 rest] eqn:Hq; [ contradiction | ].
  specialize (Hheads j sc m0 rest Hj Hq).
  destruct Hin as [<- | Hin]; [ exact Hheads | ].
  apply Sorted_StronglySorted in Hsc; [ | intros x y z; apply Z.le_trans ].
  cbn in Hsc. apply StronglySorted_inv in Hsc as [_ Hall].
  unfold clocks in Hall. rewrite Forall_map in Hall.
  pose proof (proj1 (Forall_forall _ _) Hall m ltac:(now apply list_elem_of_In))
    as Hm.
  cbn in Hm. lia.
Qed.

Lemma pop_msg_elements (scs : list stepcompress) (i j : nat)
    (sc : stepcompress) (m : queue_message) :
  pop_msg scs i !! j = Some sc -> In m (msg_queue sc) ->
  exists sc0, scs !! j = Some sc0 /\ In m (msg_queue sc0).
Proof.
  unfold pop_msg. destruct (scs !! i) as [sci |] eqn:Hi;
    [ | intros; exists sc; auto ].
  destruct (Nat.eq_dec i j) as [-> | Hne].
  - rewrite list_lookup_insert_eq by (eapply lookup_lt_Some; exact Hi).
    intros [= <-] Hin. exists sci. split; [ exact Hi | ].
    cbn in Hin. destruct (msg_queue sci); [ contradiction | now right ].
  - rewrite list_lookup_insert_ne by exact Hne. intros Hj Hin.
    exists sc. auto.
Qed.

(** The batch of sorted queues is sorted: every pick is below all that is
    still queued, hence below every later pick. *)
Lemma order_loop_sorted (fuel : nat) :
  forall (scs : list stepcompress) (mc : list Z) (msgs : list queue_message)
         (scs' : list stepcompress) (mc' : list Z)
         (out : list queue_message),
    order_loop fuel MAX_CLOCK move_clock scs mc msgs = (scs', mc', out) ->
    queues_sorted scs ->
    StronglySorted Z.le (clocks msgs) ->
    Forall (fun y => forall j sc m,
              scs !! j = Some sc -> In m (msg_queue sc) -> y <= req_clock m)
      (clocks msgs) ->
    StronglySorted Z.le (clocks out).
Proof.
  induction fuel as [| fuel IH];
    intros scs mc msgs scs' mc' out Hrun Hs Hsorted Hbelow;
    cbn [order_loop] in Hrun;
    destruct (find_lowest scs 0 MAX_CLOCK None) as [lowest [[i qm] |]] eqn:Hf;
    try (injection Hrun as <- <- <-; exact Hsorted);
    (destruct (negb (min_clock qm =? 0) && (lowest >? move_clock));
     [ injection Hrun as <- <- <-; exact Hsorted | ]);
    apply find_lowest_head in Hf as (-> & (sc & rest & Hi & Hq) & Hheads);
    pose proof (head_bound_all scs (req_clock qm) Hs Hheads) as Hall;
    assert (Hsnoc : StronglySorted Z.le
              (clocks (msgs ++ [mk_queue_message (msg qm) (peek mc 0)
                                  (req_clock qm)])))
      by (unfold clocks; rewrite map_app; apply strongly_sorted_snoc;
          [ exact Hsorted
          | eapply Forall_impl; [ exact Hbelow | ];
            cbn; intros y Hy; apply (Hy i sc qm Hi); rewrite Hq; now left ]).
  - injection Hrun as <- <- <-. exact Hsnoc.
  - apply (IH _ _ _ _ _ _ Hrun).
    + now apply queues_sorted_pop.
    + exact Hsnoc.
    + unfold clocks. rewrite map_app. apply Forall_app. split.
      * eapply Forall_impl; [ exact Hbelow | ].
        cbn. intros y Hy j sc1 m Hj Hin.
        destruct (pop_msg_elements _ _ _ _ _ Hj Hin) as (sc0 & Hj0 & Hin0).
        eapply Hy; eassumption.
      * repeat constructor. cbn. intros j sc1 m Hj Hin.
        destruct (pop_msg_elements _ _ _ _ _ Hj Hin) as (sc0 & Hj0 & Hin0).
        eapply Hall; eassumption.
Qed.

End BatchOrder.

Section BatchOrderProperties.

(** C6, as the code has it: [steppersync_flush] first flushes every
    stepper, which may enqueue further messages, and then merges.  When
    the queues are in non-decreasing req_clock order after those flushes,
    the batch is in non-decreasing req_clock order; and in every case the
    messages of the batch that come from one stepper are, in batch order,
    the front of that stepper's queue, the rest of which stays queued. *)
Theorem steppersync_flush_batch_order
    (MAX_CLOCK : Z) (ss ss' : steppersync) (move_clock : Z)
    (batch : list queue_message) :
  steppersync_flush MAX_CLOCK ss move_clock = Ok (ss', batch) ->
  exists scs,
    flush_all (sc_list ss) move_clock = Ok scs
    /\ (queues_sorted scs -> Sorted Z.le (clocks batch))
    /\ exists tags,
         length tags = length batch
         /\ Forall (fun t => (t < length scs)%nat) tags
         /\ drawn_from (commands scs) (zip tags (map command_of batch))
              (commands (sc_list ss'))
         /\ forall i sc,
              scs !! i = Some sc ->
              exists sc',
                sc_list ss' !! i = Some sc'
                /\ map command_of (msg_queue sc)
                   = picks_of i (zip tags (map command_of batch))
                     ++ map command_of (msg_queue sc').
Proof.
  unfold steppersync_flush. intros Hrun.
  destruct (flush_all (sc_list ss) move_clock) as [scs | e];
    cbn [bind] in Hrun; [ | discriminate ].
  destruct (order_loop _ MAX_CLOCK move_clock scs (move_clocks ss) [])
    as [[scs' mc'] out] eqn:Hloop.
  injection Hrun as <- <-. exists scs. split; [ reflexivity | ]. split.
  - intros Hsorted. apply StronglySorted_Sorted.
    apply (order_loop_sorted _ _ _ _ _ _ _ _ _ Hloop Hsorted); constructor.
  - apply order_loop_drawn in Hloop as (tags & batch & -> & Hlen & Hdrawn).
    exists tags. split; [ exact Hlen | ]. cbn [app sc_list]. split.
    { pose proof (drawn_from_tags _ _ _ Hdrawn) as Htags.
      rewrite <- (zip_tags tags (map command_of batch))
        by now rewrite length_map.
      rewrite Forall_map.
      eapply Forall_impl; [ exact Htags | ].
      cbn. intros p Hp. unfold commands in Hp. now rewrite length_map in Hp. }
    split; [ exact Hdrawn | ].
    intros i sc Hi.
    destruct (drawn_from_front _ _ _ Hdrawn i _ (commands_lookup _ _ _ Hi))
      as (q' & Hq' & Hfront).
    unfold commands in Hq'.
    rewrite list_lookup_fmap in Hq'.
    destruct (scs' !! i) as [sc' |]; [ | discriminate ].
    injection Hq' as <-. exists sc'. split; [ reflexivity | exact Hfront ].
Qed.

End BatchOrderProperties.

Section BatchOrderScenarios.

Lemma steppersync_flush_batch_order_witness :
  match scenario_S5 with
  | Ok ss =>
      match steppersync_flush scenario_MAX_CLOCK ss 2000 with
      | Ok (ss', batch) =>
          clocks batch = [900; 900; 1000; 1000] /\ Sorted Z.le (clocks batch)
      | Err _ => False
      end
  | Err _ => False
  end.
Proof.
  destruct scenario_S5 as [ss | e] eqn:Hss;
    vm_compute in Hss; [ injection Hss as <- | discriminate ].
  match goal with
  | |- match ?r with _ => _ end =>
      destruct r as [[ss' batch] | e] eqn:Hrun
  end.
  - pose proof Hrun as Hval. vm_compute in Hval. injection Hval as _ <-.
    split; [ reflexivity | ].
    apply steppersync_flush_batch_order in Hrun
      as (scs & Hflush & Hsorted & _).
    apply Hsorted.
    vm_compute in Hflush. injection Hflush as <-.
    repeat constructor; cbn; lia.
  - vm_compute in Hrun. discriminate.
Defined.

(** C6 as stated fails: the queue of the stepper of [scenario_reset_back]
    holds one message, at clock 5000; the flush of its pending step
    enqueues two messages at clock 0 behind it, and the batch carries the
    clocks 5000, 0, 0. *)
Lemma batch_unsorted_after_reset :
  exists ss ss' batch,
    scenario_reset_back = Ok ss
    /\ queues_sorted (sc_list ss)
    /\ steppersync_flush scenario_MAX_CLOCK ss 1000 = Ok (ss', batch)
    /\ clocks batch = [5000; 0; 0]
    /\ ~ Sorted Z.le (clocks batch).
Proof.
  do 3 eexists.
  split; [ vm_compute; reflexivity | ].
  split; [ repeat constructor | ].
  split; [ vm_compute; reflexivity | ].
  split; [ reflexivity | ].
  cbn. intros H. inversion H as [| ? ? _ Hhd]. inversion Hhd. lia.
Qed.

End BatchOrderScenarios.

(** ** Verification of the emitted moves *)

Section Verification.

Variable sc : stepcompress.
Hypothesis max_error_typed : 0 <= max_error sc < 2 ^ 32.

Lemma rel_clock_range (k : Z) : 0 <= rel_clock sc k < 2 ^ 32.
Proof.
  unfold rel_clock. destruct (k <=? 0); [ lia | apply u32_range ].
Qed.

Lemma u32_sub_u32 (a b : Z) : u32 (a - u32 b) = u32 (a - b).
Proof. unfold u32, wrap. now rewrite Zminus_mod_idemp_r. Qed.

(** The point of [check_line] for loop index [i] is the window of step
    i + 1, when the clocks of the two steps are in order. *)
Lemma minmax_point_window (i : nat) :
  rel_clock sc (Z.of_nat i) <= rel_clock sc (Z.of_nat i + 1) ->
  let point := minmax_point sc (qr_init sc 65535)
                 (queue_pos sc + Z.of_nat i) in
  u32 (minp point) = window_minp sc (Z.of_nat i + 1)
  /\ u32 (maxp point) = window_maxp sc (Z.of_nat i + 1).
Proof.
  intros Hord. unfold minmax_point, window_minp, window_maxp.
  cbn [qr_init qr_queue_pos qr_last_step_clock minp maxp].
  replace (Z.of_nat i + 1 - 1) with (Z.of_nat i) by lia.
  set (P := rel_clock sc (Z.of_nat i + 1)) in *.
  set (Q := rel_clock sc (Z.of_nat i)) in *.
  assert (HP : u32 (peek (queue sc) (queue_pos sc + Z.of_nat i)
                    - u32 (last_step_clock sc)) = P).
  { subst P. unfold rel_clock.
    destruct (Z.leb_spec (Z.of_nat i + 1) 0); [ lia | ].
    rewrite u32_sub_u32.
    now replace (queue_pos sc + (Z.of_nat i + 1) - 1)
      with (queue_pos sc + Z.of_nat i) by lia. }
  assert (HQ : (if queue_pos sc + Z.of_nat i >? queue_pos sc
                then u32 (peek (queue sc) (queue_pos sc + Z.of_nat i - 1)
                          - u32 (last_step_clock sc))
                else 0) = Q).
  { subst Q. unfold rel_clock.
    destruct (Z.gtb_spec (queue_pos sc + Z.of_nat i) (queue_pos sc));
      destruct (Z.leb_spec (Z.of_nat i) 0); try lia.
    now rewrite u32_sub_u32. }
  rewrite HP, HQ.
  pose proof (rel_clock_range (Z.of_nat i + 1)) as RP. fold P in RP.
  pose proof (rel_clock_range (Z.of_nat i)) as RQ. fold Q in RQ.
  rewrite (u32_small (P - Q)) by lia.
  rewrite Z.quot_div_nonneg by lia.
  pose proof (Z.div_pos (P - Q) 2 ltac:(lia) ltac:(lia)) as Hd0.
  assert (Hd1 : (P - Q) / 2 <= P - Q)
    by (apply Z.div_le_upper_bound; lia).
  rewrite !u32_s32. split.
  - destruct (Z.gtb_spec ((P - Q) / 2) (max_error sc)).
    + rewrite Z.min_l by lia. apply u32_small. lia.
    + rewrite Z.min_r by lia. apply u32_small. lia.
  - apply u32_small. lia.
Qed.

Lemma ramp_clock_succ (move : step_move) (i : nat) :
  ramp_clock move (S i)
  = ramp_clock move i + ramp_interval move (Z.of_nat i + 1).
Proof. cbn [ramp_clock]. now rewrite Nat2Z.inj_succ. Qed.

(** A sum that passes the window test has not wrapped. *)
Lemma window_excludes_wrap (S I P Q E : Z) :
  0 <= S <= Q -> Q <= P -> P < 2 ^ 32 -> 0 <= I < 2 ^ 31 -> 0 <= E ->
  P - Z.min E ((P - Q) / 2) <= u32 (S + I) <= P ->
  u32 (S + I) = S + I.
Proof.
  intros HS HQ HP HI HE Hwin.
  destruct (Z_lt_dec (S + I) (2 ^ 32)) as [Hlt | Hge];
    [ apply u32_small; lia | exfalso ].
  assert (Hw : u32 (S + I) = S + I - 2 ^ 32).
  { unfold u32, wrap. symmetry. apply Z.mod_unique with (q := 1); lia. }
  assert (Hhalf : (P - Q) / 2 <= P - Q)
    by (apply Z.div_le_upper_bound; lia).
  lia.
Qed.

(** The loop of [check_line] accepts only ramps whose every step is inside
    its window and whose every interval is below 2^31. *)
Lemma check_line_loop_sound (move : step_move) :
  - 2 ^ 15 <= add move < 2 ^ 15 ->
  forall (n i : nat) (I C : Z),
    check_line_loop n sc (qr_init sc 65535) move (Z.of_nat i) (u32 I) C
    = Ok tt ->
    - 2 ^ 15 <= I < 2 ^ 31 + 2 ^ 15 ->
    I = ramp_interval move (Z.of_nat i + 1) ->
    C = ramp_clock move i ->
    0 <= C <= rel_clock sc (Z.of_nat i) ->
    steps_ordered sc (Z.of_nat (i + n)) ->
    forall k : nat,
      (i < k <= i + n)%nat ->
      window_minp sc (Z.of_nat k) <= ramp_clock move k
                                  <= window_maxp sc (Z.of_nat k)
      /\ 0 <= ramp_interval move (Z.of_nat k) < 2 ^ 31.
Proof.
  intros Hadd. induction n as [| n IH]; intros i I C Hrun HI HIeq HS HSle Hord k Hk;
    [ lia | ].
  cbn [check_line_loop] in Hrun.
  change (qr_queue_pos (qr_init sc 65535)) with (queue_pos sc) in Hrun.
  assert (Hord1 : rel_clock sc (Z.of_nat i) <= rel_clock sc (Z.of_nat i + 1)).
  { specialize (Hord (Z.of_nat i + 1) ltac:(lia)).
    now replace (Z.of_nat i + 1 - 1) with (Z.of_nat i) in Hord by lia. }
  destruct (minmax_point_window i Hord1) as [Hmin Hmax].
  rewrite Hmin, Hmax in Hrun.
  destruct (Z.ltb_spec (u32 (C + u32 I)) (window_minp sc (Z.of_nat i + 1)));
    [ discriminate | ].
  destruct (Z.gtb_spec (u32 (C + u32 I)) (window_maxp sc (Z.of_nat i + 1)));
    [ discriminate | ].
  cbn [orb] in Hrun.
  destruct (Z.geb_spec (u32 I) 0x80000000) as [ | Hsmall];
    [ discriminate | ].
  assert (HIu : u32 I = I).
  { destruct (Z_lt_dec I 0) as [Hneg | Hpos]; [ exfalso | apply u32_small; lia ].
    assert (u32 I = I + 2 ^ 32)
      by (unfold u32, wrap; symmetry; apply Z.mod_unique with (q := -1); lia).
    lia. }
  assert (HI0 : 0 <= I < 2 ^ 31) by (pose proof (u32_range I); lia).
  rewrite HIu in *.
  pose proof (rel_clock_range (Z.of_nat i + 1)) as HP.
  assert (Hsum : u32 (C + I) = C + I).
  { apply (window_excludes_wrap C I (rel_clock sc (Z.of_nat i + 1))
             (rel_clock sc (Z.of_nat i)) (max_error sc)); try lia.
    unfold window_minp, window_maxp in *.
    replace (Z.of_nat i + 1 - 1) with (Z.of_nat i) in * by lia. lia. }
  rewrite Hsum in *.
  assert (Hnext : ramp_clock move (S i) = C + I)
    by (rewrite ramp_clock_succ; lia).
  destruct (Nat.eq_dec k (S i)) as [-> | Hne].
  - rewrite Nat2Z.inj_succ, <- Z.add_1_r, Hnext. rewrite <- HIeq. lia.
  - replace (Z.of_nat i + 1) with (Z.of_nat (S i)) in Hrun by lia.
    replace (u32 (I + add move)) with (u32 (I + add move)) in Hrun by reflexivity.
    apply (IH (S i) (I + add move) (C + I) Hrun); try lia.
    + unfold ramp_interval in *. rewrite Nat2Z.inj_succ. lia.
    + unfold window_maxp in *. rewrite Nat2Z.inj_succ, <- Z.add_1_r. lia.
    + now replace (S i + n)%nat with (i + S n)%nat by lia.
Qed.

Lemma wrap_compress_typed : move_typed (wrap_compress sc).
Proof.
  assert (Hs16 : forall x, - 2 ^ 15 <= s16 x < 2 ^ 15).
  { intros x. unfold s16, swrap. change (2 ^ (16 - 1)) with (2 ^ 15).
    pose proof (Z.mod_pos_bound (x + 2 ^ 15) (2 ^ 16) ltac:(lia)). lia. }
  unfold wrap_compress, move_typed.
  repeat match goal with
         | |- context [if ?b then _ else _] => destruct b
         end; cbn [interval count add];
    (split; [ apply u32_range | split; [ apply u16_range | apply Hs16 ] ]).
Qed.

(** What [check_line] accepts passes verification. *)
Lemma check_line_sound (move : step_move) :
  move_typed move ->
  check_line sc move = Ok tt ->
  1 <= count move
  /\ interval move < 2 ^ 31
  /\ ~ (count move > 1 /\ interval move = 0 /\ add move = 0)
  /\ (steps_ordered sc (count move) -> move_passes sc move).
Proof.
  intros (Hi & Hc & Ha) Hrun. unfold check_line in Hrun.
  destruct (Z.eqb_spec (count move) 0) as [ | Hc0]; [ discriminate | ].
  cbn [orb] in Hrun.
  destruct ((interval move =? 0) && (add move =? 0) && (count move >? 1))
    eqn:Hshape; [ discriminate | ].
  cbn [orb] in Hrun.
  destruct (Z.geb_spec (interval move) 0x80000000) as [ | Hi31];
    [ discriminate | ].
  assert (Hnz : ~ (count move > 1 /\ interval move = 0 /\ add move = 0)).
  { intros (H1 & H2 & H3). rewrite H2, H3 in Hshape. cbn in Hshape.
    destruct (Z.gtb_spec (count move) 1); [ discriminate | lia ]. }
  split; [ lia | ]. split; [ lia | ]. split; [ exact Hnz | ].
  intros Hord. unfold move_passes.
  split; [ lia | ]. split; [ lia | ]. split; [ exact Hnz | ].
  intros k Hk.
  assert (Hrun' : check_line_loop (Z.to_nat (count move)) sc
                    (qr_init sc 65535) move (Z.of_nat 0)
                    (u32 (interval move)) 0 = Ok tt)
    by (rewrite u32_small by lia; exact Hrun).
  destruct (check_line_loop_sound move Ha (Z.to_nat (count move)) 0
              (interval move) 0 Hrun') with (k := k) as [Hwin Hint].
  - lia.
  - unfold ramp_interval. cbn. lia.
  - reflexivity.
  - pose proof (rel_clock_range (Z.of_nat 0)). lia.
  - cbn [Nat.add]. now rewrite Z2Nat.id by lia.
  - lia.
  - split; [ exact Hwin | lia ].
Qed.

End Verification.

Section VerificationProperties.

(** C1, as the code has it: a pass of the flush loop emits the move of
    [wrap_compress] only after [check_line] has accepted it, and an
    accepted move passes verification: count >= 1, interval < 2^31, not
    (count > 1 and interval = 0 and add = 0) and, the clocks of the queued
    steps it covers being in non-decreasing order, every step inside its
    window with every interval below 2^31.  When [check_line] rejects the
    move the pass returns InvalidMove and emits nothing. *)
Theorem flushed_move_passes_verification (sc : stepcompress) :
  0 <= max_error sc < 2 ^ 32 ->
  let move := wrap_compress sc in
  (check_line sc move = Err InvalidMove ->
   queue_flush_pass sc = Err InvalidMove)
  /\ (forall sc' brk,
        queue_flush_pass sc = Ok (sc', brk) ->
        check_line sc move = Ok tt
        /\ 1 <= count move
        /\ interval move < 2 ^ 31
        /\ ~ (count move > 1 /\ interval move = 0 /\ add move = 0)
        /\ (steps_ordered sc (count move) -> move_passes sc move)
        /\ exists qm,
             msg_queue sc' = msg_queue sc ++ [qm]
             /\ msg qm = [u32 (queue_step_msgtag sc); u32 (oid sc);
                          interval move; count move; u32 (add move)]).
Proof.
  intros Hme move. split.
  - intros Hrej. unfold queue_flush_pass. fold move. now rewrite Hrej.
  - intros sc' brk Hpass.
    assert (Hcheck : check_line sc move = Ok tt).
    { unfold queue_flush_pass in Hpass. fold move in Hpass.
      destruct (check_line sc move) as [[] | e]; [ reflexivity | discriminate ]. }
    split; [ exact Hcheck | ].
    pose proof (wrap_compress_typed sc) as Htyped. fold move in Htyped.
    destruct (check_line_sound sc Hme move Htyped Hcheck)
      as (Hc & Hi & Hshape & Hwin).
    repeat (split; [ assumption | ]).
    unfold queue_flush_pass in Hpass. fold move in Hpass.
    rewrite Hcheck in Hpass. cbn [bind] in Hpass.
    set (sc1 := with_last_ideal_step_clock sc _) in Hpass.
    destruct (add_move_message sc1 (u64 (last_step_clock sc + interval move))
                move) as (qm & Hq & Hm & _).
    destruct Htyped as (Hti & Htc & _).
    exists qm. split.
    + destruct (_ >=? _) in Hpass; injection Hpass as <- _; exact Hq.
    + rewrite Hm. cbn [queue_step_msgtag oid sc1 with_last_ideal_step_clock].
      now rewrite (u32_small (interval move)), (u32_small (count move)) by lia.
Qed.

(** C1 as stated fails, on steps in order and on steps out of order, with
    max_error 25.  Two steps at clocks 100000 and 100005 are queued; the
    first is emitted at clock 99988, the move [wrap_compress] then produces
    for the second, {interval 5, count 1, add 0}, falls before its window
    [9, 17], [check_line] rejects it and [queue_flush] returns InvalidMove.
    A step at clock 100000 followed by one at clock 50000 cannot be
    scheduled at all: after the first is emitted at 99988 the move for the
    second has interval 2^32 - 49988 - 12, which [check_line] rejects. *)
Lemma flush_rejects_moves :
  (exists sc sc1,
     scenario_close_steps = Ok sc
     /\ (queue sc !! 0%nat = Some 100000 /\ queue sc !! 1%nat = Some 100005
         /\ queue_pos sc = 0 /\ queue_next sc = 2)
     /\ queue_flush_pass sc = Ok (sc1, false)
     /\ last_step_clock sc1 = 99988
     /\ wrap_compress sc1 = mk_step_move 5 1 0
     /\ window_minp sc1 1 = 9 /\ window_maxp sc1 1 = 17
     /\ ~ move_passes sc1 (wrap_compress sc1)
     /\ check_line sc1 (wrap_compress sc1) = Err InvalidMove
     /\ queue_flush sc UINT64_MAX = Err InvalidMove)
  /\ (exists sc sc1,
        scenario_backward_steps = Ok sc
        /\ (queue sc !! 0%nat = Some 100000 /\ queue sc !! 1%nat = Some 50000
            /\ queue_pos sc = 0 /\ queue_next sc = 2)
        /\ queue_flush_pass sc = Ok (sc1, false)
        /\ last_step_clock sc1 = 99988
        /\ wrap_compress sc1 = mk_step_move (2 ^ 32 - 49988 - 12) 1 0
        /\ ~ move_passes sc1 (wrap_compress sc1)
        /\ check_line sc1 (wrap_compress sc1) = Err InvalidMove
        /\ queue_flush sc UINT64_MAX = Err InvalidMove).
Proof.
  split.
  - do 2 eexists.
    split; [ vm_compute; reflexivity | ].
    split; [ repeat split | ].
    split; [ vm_compute; reflexivity | ].
    split; [ reflexivity | ].
    split; [ vm_compute; reflexivity | ].
    split; [ vm_compute; reflexivity | ].
    split; [ vm_compute; reflexivity | ].
    split; [ | split; vm_compute; reflexivity ].
    intros (_ & _ & _ & Hwin). specialize (Hwin 1%nat).
    vm_compute in Hwin. destruct Hwin as [[Hmin _] _].
    + split; discriminate.
    + apply Hmin. reflexivity.
  - do 2 eexists.
    split; [ vm_compute; reflexivity | ].
    split; [ repeat split | ].
    split; [ vm_compute; reflexivity | ].
    split; [ reflexivity | ].
    split; [ vm_compute; reflexivity | ].
    split; [ | split; vm_compute; reflexivity ].
    intros (_ & Hint & _). vm_compute in Hint. discriminate.
Qed.

End VerificationProperties.

Section ScenarioWitnesses.

Lemma flushed_move_passes_verification_witness :
  match scenario_S2 with
  | Ok sc =>
      wrap_compress sc = mk_step_move 87 6 15
      /\ move_passes sc (wrap_compress sc)
      /\ exists sc' qm,
           queue_flush_pass sc = Ok (sc', true)
           /\ msg_queue sc' = msg_queue sc ++ [qm]
           /\ msg qm = [11; 0; 87; 6; 15]
  | Err _ => False
  end.
Proof.
  destruct scenario_S2 as [sc | e] eqn:Hsc;
    vm_compute in Hsc; [ injection Hsc as <- | discriminate ].
  match goal with
  | |- wrap_compress ?s = _ /\ _ =>
      destruct (flushed_move_passes_verification s) as [_ Hpass];
      [ vm_compute; split; [ discriminate | reflexivity ] | ];
      destruct (queue_flush_pass s) as [[sc' brk] | e] eqn:Hrun
  end.
  - pose proof Hrun as Hval. vm_compute in Hval.
    specialize (Hpass sc' brk eq_refl)
      as (_ & _ & _ & _ & Hwin & qm & Hq & Hm).
    split; [ vm_compute; reflexivity | ]. split.
    + apply Hwin. intros k Hk.
      match type of Hk with
      | _ <= _ <= ?c => replace c with 6 in Hk by (vm_compute; reflexivity)
      end.
      assert (Hcases : k = 1 \/ k = 2 \/ k = 3 \/ k = 4 \/ k = 5 \/ k = 6)
        by lia.
      destruct Hcases as [-> | [-> | [-> | [-> | [-> | ->]]]]];
        vm_compute; discriminate.
    + exists sc', qm. injection Hval as <- <-.
      split; [ reflexivity | ]. split; [ exact Hq | exact Hm ].
  - vm_compute in Hrun. discriminate.
Defined.

Lemma queue_cap_checked_when_full_witness :
  match append_steps 2 1 1 (scenario_stepper 0) with
  | Ok sc =>
      in_use sc = 1
      /\ exists sc', queue_append sc = Ok sc' /\ in_use sc' = 2
  | Err _ => False
  end.
Proof.
  destruct (append_steps 2 1 1 (scenario_stepper 0)) as [sc | e] eqn:Hsc;
    vm_compute in Hsc; [ injection Hsc as <- | discriminate ].
  split; [ reflexivity | ].
  match goal with
  | |- exists sc', queue_append ?s = _ /\ _ =>
      destruct (queue_cap_checked_when_full s) as [Hroom _]
  end.
  - reflexivity.
  - vm_compute. reflexivity.
  - vm_compute. split; discriminate.
  - vm_compute. reflexivity.
  - destruct Hroom as (sc' & Hrun & Huse & _).
    + left. vm_compute. reflexivity.
    + exists sc'. split; [ exact Hrun | exact Huse ].
Defined.

End ScenarioWitnesses.

(** ** The direction flags *)

Section Direction.

(** X1: [stepcompress_set_invert_sdir] stores the flag as 0 or 1 and
    keeps the direction the mcu was last sent: when the flag changes and
    the direction in force is known (sdir >= 0), sdir is flipped with it,
    so that sdir XOR invert_sdir stays the same; an unknown direction
    (sdir < 0) stays unknown. *)
Theorem set_invert_sdir_keeps_sent_direction (sc : stepcompress) (invert : Z) :
  invert_sdir sc = 0 \/ invert_sdir sc = 1 ->
  let sc' := stepcompress_set_invert_sdir sc invert in
  invert_sdir sc' = (if invert =? 0 then 0 else 1)
  /\ (sdir sc < 0 -> sdir sc' = sdir sc)
  /\ (0 <= sdir sc ->
      0 <= sdir sc'
      /\ Z.lxor (sdir sc') (invert_sdir sc')
         = Z.lxor (sdir sc) (invert_sdir sc)).
Proof.
  intros Hinv. unfold stepcompress_set_invert_sdir.
  set (a := if invert =? 0 then 0 else 1).
  assert (Ha : a = 0 \/ a = 1) by (subst a; destruct (invert =? 0); auto).
  destruct (Z.eqb_spec a (invert_sdir sc)) as [He | Hne]; cbn zeta.
  - split; [ now symmetry | ]. split; [ reflexivity | ].
    intros Hpos. split; [ exact Hpos | reflexivity ].
  - cbn [with_sdir sdir invert_sdir]. split; [ reflexivity | ].
    destruct (Z.geb_spec (sdir sc) 0) as [Hs | Hs];
      (split; [ intros; lia | intros Hpos ]); [ | lia ].
    split; [ apply Z.lxor_nonneg; lia | ].
    assert (Hflip : a = Z.lxor (invert_sdir sc) 1)
      by (destruct Ha as [-> | ->], Hinv as [Hi | Hi]; rewrite Hi in *;
          try reflexivity; congruence).
    rewrite Hflip. apply Z.bits_inj'. intros n _. rewrite !Z.lxor_spec.
    now destruct (Z.testbit (sdir sc) n), (Z.testbit (invert_sdir sc) n),
      (Z.testbit 1 n).
Qed.

Lemma set_invert_sdir_keeps_sent_direction_witness :
  let sc := with_sdir (stepcompress_alloc 3) 1 0 in
  let sc' := stepcompress_set_invert_sdir sc 5 in
  invert_sdir sc' = 1 /\ sdir sc' = 0
  /\ Z.lxor (sdir sc') (invert_sdir sc') = Z.lxor (sdir sc) (invert_sdir sc).
Proof.
  intros sc sc'.
  destruct (set_invert_sdir_keeps_sent_direction sc 5) as (Hi & _ & Hd);
    [ left; reflexivity | ].
  destruct (Hd ltac:(cbn; lia)) as [_ Hx].
  split; [ exact Hi | ]. split; [ reflexivity | exact Hx ].
Defined.

End Direction.

(** ** The history list *)

Section HistoryList.

Lemma free_history_split (l : list history_steps) (end_clock : Z) :
  exists dropped,
    l = free_history l end_clock ++ dropped
    /\ Forall (fun hs => last_clock hs <= end_clock) dropped.
Proof.
  induction l as [| hs tl (dropped & Heq & Hall)].
  - exists []. split; [ reflexivity | constructor ].
  - cbn [free_history].
    destruct (free_history tl end_clock) as [| x r].
    + cbn [app] in Heq. subst dropped.
      destruct (Z.gtb_spec (last_clock hs) end_clock).
      * exists tl. split; [ reflexivity | exact Hall ].
      * exists (hs :: tl). split; [ reflexivity | ].
        constructor; [ lia | exact Hall ].
    + exists dropped. split; [ | exact Hall ].
      cbn [app]. f_equal. exact Heq.
Qed.

Lemma free_history_last (l : list history_steps) (end_clock : Z)
    (hs : history_steps) :
  last (free_history l end_clock) = Some hs -> end_clock < last_clock hs.
Proof.
  induction l as [| h tl IH]; cbn [free_history]; [ discriminate | ].
  destruct (free_history tl end_clock) as [| x r].
  - destruct (Z.gtb_spec (last_clock h) end_clock); [ | discriminate ].
    cbn. intros [= <-]. lia.
  - intros Hl. apply IH. exact Hl.
Qed.

(** X2: [free_history] takes entries off the old end of the history
    list and nothing else: what it drops is a tail of the list whose
    entries all ended by end_clock, and the oldest entry it keeps ended
    after end_clock; with end_clock UINT64_MAX, as [stepcompress_free]
    calls it, nothing is kept. *)
Theorem free_history_drops_expired_tail (l : list history_steps)
    (end_clock : Z) :
  (exists dropped,
     l = free_history l end_clock ++ dropped
     /\ Forall (fun hs => last_clock hs <= end_clock) dropped)
  /\ (forall hs,
        last (free_history l end_clock) = Some hs ->
        end_clock < last_clock hs)
  /\ (Forall (fun hs => last_clock hs <= UINT64_MAX) l ->
      free_history l UINT64_MAX = []).
Proof.
  split; [ apply free_history_split | ].
  split; [ apply free_history_last | ].
  intros Hall.
  destruct (free_history l UINT64_MAX) as [| x r] eqn:Hf; [ reflexivity | ].
  destruct (last (x :: r)) as [hs |] eqn:Hl.
  - rewrite <- Hf in Hl.
    pose proof (free_history_last _ _ _ Hl) as Hgt.
    destruct (free_history_split l UINT64_MAX) as (d & Heq & _).
    assert (Hin : elem_of hs l).
    { rewrite Heq. apply elem_of_app. left.
      apply last_Some_elem_of. exact Hl. }
    rewrite Forall_forall in Hall. specialize (Hall hs Hin). lia.
  - apply last_None in Hl. discriminate.
Qed.

End HistoryList.

(** ** Positions in the history *)

Section PastPositions.

(** Entries that begin after [clock] are passed over; the search goes on
    behind them with the start_position of the last one as its fallback. *)
Lemma find_past_position_loop_skip (newer l : list history_steps)
    (clock pos0 : Z) :
  Forall (fun h => clock < first_clock h) newer ->
  find_past_position_loop (newer ++ l) clock pos0
  = find_past_position_loop l clock
      (match last newer with Some h => start_position h | None => pos0 end).
Proof.
  revert pos0. induction newer as [| h tl IH]; intros pos0 Hall;
    [ reflexivity | ].
  apply Forall_cons in Hall as [Hh Htl].
  cbn [app find_past_position_loop].
  destruct (Z.ltb_spec clock (first_clock h)) as [_ | Hge]; [ | lia ].
  rewrite (IH _ Htl). destruct tl as [| h' tl']; [ reflexivity | ].
  change (last (h :: h' :: tl')) with (last (h' :: tl')).
  destruct (last (h' :: tl')) eqn:Hl; [ reflexivity | ].
  apply last_None in Hl. discriminate.
Qed.

Lemma constant_interval_offset (hs : history_steps) (clock : Z) :
  hs_add hs = 0 -> 0 < hs_interval hs ->
  first_clock hs <= clock ->
  clock - first_clock hs + hs_interval hs < 2 ^ 31 ->
  history_offset hs clock = (clock - first_clock hs) / hs_interval hs + 1.
Proof.
  intros Hadd Hint Hclock Hsmall. unfold history_offset.
  rewrite Hadd. cbn [Z.eqb].
  rewrite (s32_small (clock - first_clock hs)) by lia.
  rewrite s32_small by lia. unfold sdiv32.
  rewrite Z.quot_div_nonneg by lia.
  replace (clock - first_clock hs + hs_interval hs)
    with (clock - first_clock hs + 1 * hs_interval hs) by lia.
  rewrite Z.div_add by lia.
  pose proof (Z.div_pos (clock - first_clock hs) (hs_interval hs)
                ltac:(lia) ltac:(lia)).
  assert ((clock - first_clock hs) / hs_interval hs
          <= clock - first_clock hs)
    by (apply Z.div_le_upper_bound; nia).
  apply s32_small. lia.
Qed.

(** X3: inside a move of constant interval the search counts the steps
    taken up to [clock]: the step at first_clock and one more for every
    whole interval since. *)
Theorem find_past_position_constant_interval
    (sc : stepcompress) (newer older : list history_steps)
    (hs : history_steps) (clock : Z) :
  history_list sc = newer ++ hs :: older ->
  Forall (fun h => clock < first_clock h) newer ->
  first_clock hs <= clock < last_clock hs ->
  hs_add hs = 0 -> 0 < hs_interval hs ->
  clock - first_clock hs + hs_interval hs < 2 ^ 31 ->
  let steps := (clock - first_clock hs) / hs_interval hs + 1 in
  stepcompress_find_past_position sc clock
  = if step_count hs <? 0 then s64 (start_position hs - steps)
    else s64 (start_position hs + steps).
Proof.
  intros Hlist Hnewer [Hfirst Hlast] Hadd Hint Hsmall steps.
  unfold stepcompress_find_past_position.
  rewrite Hlist, (find_past_position_loop_skip _ _ _ _ Hnewer).
  cbn [find_past_position_loop].
  destruct (Z.ltb_spec clock (first_clock hs)); [ lia | ].
  destruct (Z.geb_spec clock (last_clock hs)); [ lia | ].
  now rewrite constant_interval_offset.
Qed.

(** X4: a move recorded by [add_move] does not change the past, and from
    its last step on the position is the new last_position. *)
Theorem find_past_position_after_add_move
    (sc : stepcompress) (fc : Z) (move : step_move) (clock : Z) :
  let sc' := add_move sc fc move in
  (clock < fc ->
   stepcompress_find_past_position sc' clock
   = stepcompress_find_past_position sc clock)
  /\ (fc <= clock -> last_step_clock sc' <= clock ->
      stepcompress_find_past_position sc' clock = last_position sc').
Proof.
  cbn zeta. unfold stepcompress_find_past_position, add_move.
  cbn [with_history history_list last_position last_step_clock
       with_last_step_clock find_past_position_loop first_clock last_clock
       start_position step_count].
  split.
  - intros Hlt.
    destruct (Z.ltb_spec clock fc); [ reflexivity | lia ].
  - intros Hfc Hlast.
    destruct (Z.ltb_spec clock fc); [ lia | ].
    match goal with
    | |- context [clock >=? ?c] => destruct (Z.geb_spec clock c)
    end; [ reflexivity | lia ].
Qed.

(** X5: the position set by [stepcompress_set_last_position] is the one
    found at its clock and at every later clock. *)
Theorem set_last_position_then_find
    (sc sc' : stepcompress) (clock pos : Z) :
  stepcompress_set_last_position sc clock pos = Ok sc' ->
  - 2 ^ 63 <= pos < 2 ^ 63 ->
  last_position sc' = pos
  /\ forall c : Z,
       clock <= c -> stepcompress_find_past_position sc' c = pos.
Proof.
  unfold stepcompress_set_last_position. intros Hrun Hpos.
  destruct (stepcompress_flush sc UINT64_MAX) as [sc1 | e];
    cbn [bind] in Hrun; [ | discriminate ].
  injection Hrun as <-. split; [ reflexivity | ].
  intros c Hc. unfold stepcompress_find_past_position.
  cbn [with_history history_list find_past_position_loop first_clock
       last_clock start_position step_count].
  destruct (Z.ltb_spec c clock); [ lia | ].
  destruct (Z.geb_spec c clock); [ | lia ].
  rewrite Z.add_0_r. apply s64_small. exact Hpos.
Qed.

End PastPositions.

(** ** The history handed out by [stepcompress_extract_old] *)

Section ExtractOld.

Lemma extract_old_loop_spec (l : list history_steps) :
  forall res max start_clock end_clock : Z,
    let out := extract_old_loop l res max start_clock end_clock in
    Z.of_nat (length out) <= Z.max 0 (max - res)
    /\ sublist out l
    /\ Forall (fun hs => start_clock < last_clock hs
                         /\ first_clock hs < end_clock) out.
Proof.
  induction l as [| hs tl IH]; intros res max start_clock end_clock;
    cbn [extract_old_loop].
  - cbn. split; [ lia | ]. split; constructor.
  - destruct (Z.geb_spec start_clock (last_clock hs)) as [Hs | Hs];
      [ cbn; split; [ lia | split; [ apply sublist_nil_l | constructor ] ] | ].
    destruct (Z.geb_spec res max) as [Hr | Hr];
      [ cbn; split; [ lia | split; [ apply sublist_nil_l | constructor ] ] | ].
    cbn [orb].
    destruct (Z.leb_spec end_clock (first_clock hs)) as [He | He].
    + destruct (IH res max start_clock end_clock) as (Hlen & Hsub & Hall).
      cbn zeta in *. split; [ exact Hlen | ].
      split; [ now apply sublist_cons | exact Hall ].
    + destruct (IH (res + 1) max start_clock end_clock) as (Hlen & Hsub & Hall).
      cbn zeta in *. cbn [length]. split; [ lia | ].
      split; [ now apply sublist_skip | ].
      constructor; [ lia | exact Hall ].
Qed.

(** X6: [stepcompress_extract_old] hands out at most [max] entries, in
    the order of the history list, each of them overlapping the window
    from start_clock to end_clock. *)
Theorem extract_old_bounded (sc : stepcompress)
    (max start_clock end_clock : Z) :
  let out := stepcompress_extract_old sc max start_clock end_clock in
  Z.of_nat (length out) <= Z.max 0 max
  /\ sublist out (history_list sc)
  /\ Forall (fun hs => start_clock < last_clock hs
                       /\ first_clock hs < end_clock) out.
Proof.
  unfold stepcompress_extract_old.
  pose proof (extract_old_loop_spec (history_list sc) 0 max start_clock
                end_clock) as H.
  now rewrite Z.sub_0_r in H.
Qed.

(** X7: with room for the whole history, every entry that overlaps the
    window and is not behind an entry that ended by start_clock is handed
    out. *)
Theorem extract_old_complete (sc : stepcompress)
    (max start_clock end_clock : Z)
    (recent older : list history_steps) (hs : history_steps) :
  history_list sc = recent ++ older ->
  Forall (fun h => start_clock < last_clock h) recent ->
  Z.of_nat (length recent) <= max ->
  In hs recent -> first_clock hs < end_clock ->
  In hs (stepcompress_extract_old sc max start_clock end_clock).
Proof.
  intros Hlist Hall Hmax Hin Hov. unfold stepcompress_extract_old.
  rewrite Hlist. clear Hlist.
  assert (Hgen : forall res,
    res + Z.of_nat (length recent) <= max ->
    In hs (extract_old_loop (recent ++ older) res max start_clock end_clock)).
  { clear Hmax. induction recent as [| h tl IH]; intros res Hmax;
      [ contradiction | ].
    apply Forall_cons in Hall as [Hh Htl]. cbn [length] in Hmax.
    cbn [app extract_old_loop].
    destruct (Z.geb_spec start_clock (last_clock h)); [ lia | ].
    destruct (Z.geb_spec res max); [ lia | ]. cbn [orb].
    destruct (Z.leb_spec end_clock (first_clock h)) as [He | He].
    - destruct Hin as [-> | Hin]; [ lia | ]. apply IH; try assumption. lia.
    - destruct Hin as [-> | Hin]; [ now left | right ].
      apply IH; try assumption. lia. }
  apply Hgen. lia.
Qed.

End ExtractOld.

(** ** The heap of move clocks *)

Section MoveClockHeap.

Lemma peek_poke_eq (mc : list Z) (i v : Z) :
  0 <= i < Z.of_nat (length mc) -> peek (poke mc i v) i = v.
Proof.
  intros Hi. unfold peek, poke.
  destruct (Z.ltb_spec i 0); [ lia | ].
  rewrite list_lookup_insert_eq by lia. reflexivity.
Qed.

Lemma peek_poke_ne (mc : list Z) (i j v : Z) :
  0 <= j -> i <> j -> peek (poke mc i v) j = peek mc j.
Proof.
  intros Hj Hne. unfold peek, poke.
  destruct (Z.ltb_spec j 0); [ lia | ].
  destruct (Z.ltb_spec i 0); [ reflexivity | ].
  rewrite list_lookup_insert_ne by lia. reflexivity.
Qed.

(** The sift with the hole at [pos]: the heap order holds everywhere but
    at the hole, and what is above the hole is below [req] and below what
    is under the hole. *)
Lemma heap_replace_loop_heap (req : Z) (fuel : nat) :
  req <= UINT64_MAX ->
  forall (mc : list Z) (pos : Z),
    0 <= pos < Z.of_nat (length mc) ->
    Z.of_nat (length mc) <= Z.of_nat fuel + pos ->
    (forall i j,
        0 <= i -> j = 2 * i + 1 \/ j = 2 * i + 2 ->
        j < Z.of_nat (length mc) -> i <> pos -> j <> pos ->
        peek mc i <= peek mc j) ->
    (forall p,
        0 <= p -> pos = 2 * p + 1 \/ pos = 2 * p + 2 ->
        peek mc p <= req
        /\ forall c, c = 2 * pos + 1 \/ c = 2 * pos + 2 ->
                     c < Z.of_nat (length mc) -> peek mc p <= peek mc c) ->
    is_heap (heap_replace_loop fuel mc req pos).
Proof.
  intros Hreq. induction fuel as [| fuel IH];
    intros mc pos Hpos Hfuel Hrest Hup; [ lia | ].
  cbn [heap_replace_loop].
  set (n := Z.of_nat (length mc)) in *.
  set (c1 := if 2 * pos + 1 <? n then peek mc (2 * pos + 1) else UINT64_MAX).
  set (c2 := if 2 * pos + 2 <? n then peek mc (2 * pos + 2) else UINT64_MAX).
  destruct (Z.leb_spec req c1) as [H1 | H1];
    [ destruct (Z.leb_spec req c2) as [H2 | H2] | ]; cbn [andb].
  - (* the hole is filled *)
    intros i j Hi Hj Hjn. rewrite poke_length in Hjn. fold n in Hjn.
    destruct (Z.eq_dec i pos) as [-> | Hip].
    + rewrite peek_poke_eq by lia. rewrite peek_poke_ne by lia.
      subst c1 c2. destruct Hj as [-> | ->].
      * destruct (Z.ltb_spec (2 * pos + 1) n); [ exact H1 | lia ].
      * destruct (Z.ltb_spec (2 * pos + 2) n); [ exact H2 | lia ].
    + destruct (Z.eq_dec j pos) as [-> | Hjp].
      * rewrite peek_poke_eq by lia. rewrite peek_poke_ne by lia.
        apply (Hup i Hi Hj).
      * rewrite !peek_poke_ne by lia. now apply Hrest.
  - (* the second child moves up *)
    assert (Hc2 : 2 * pos + 2 < n)
      by (subst c2; destruct (Z.ltb_spec (2 * pos + 2) n); lia).
    assert (Hc1 : c1 = peek mc (2 * pos + 1))
      by (subst c1; destruct (Z.ltb_spec (2 * pos + 1) n); [ reflexivity | lia ]).
    assert (Hc2v : c2 = peek mc (2 * pos + 2))
      by (subst c2; destruct (Z.ltb_spec (2 * pos + 2) n); [ reflexivity | lia ]).
    destruct (Z.ltb_spec c1 c2) as [Hlt | Hge]; [ lia | ].
    apply IH; rewrite ?poke_length; fold n; try lia.
    + intros i j Hi Hj Hjn Hic Hjc.
      destruct (Z.eq_dec i pos) as [-> | Hip].
      * rewrite peek_poke_eq by lia. rewrite peek_poke_ne by lia.
        destruct Hj as [-> | ->]; [ lia | lia ].
      * destruct (Z.eq_dec j pos) as [-> | Hjp].
        -- rewrite peek_poke_eq by lia. rewrite peek_poke_ne by lia.
           destruct (Hup i Hi Hj) as [_ Hsub]. rewrite Hc2v.
           apply Hsub; [ now right | exact Hc2 ].
        -- rewrite !peek_poke_ne by lia. now apply Hrest.
    + intros p Hp Hpc. assert (p = pos) by lia. subst p.
      rewrite peek_poke_eq by lia. split; [ lia | ].
      intros c Hc Hcn. rewrite peek_poke_ne by lia. rewrite Hc2v.
      apply Hrest; try lia.
  - (* the lower child moves up *)
    assert (Hc1 : 2 * pos + 1 < n)
      by (subst c1; destruct (Z.ltb_spec (2 * pos + 1) n); lia).
    assert (Hc1v : c1 = peek mc (2 * pos + 1))
      by (subst c1; destruct (Z.ltb_spec (2 * pos + 1) n); [ reflexivity | lia ]).
    destruct (Z.ltb_spec c1 c2) as [Hlt | Hge].
    + apply IH; rewrite ?poke_length; fold n; try lia.
      * intros i j Hi Hj Hjn Hic Hjc.
        destruct (Z.eq_dec i pos) as [-> | Hip].
        -- rewrite peek_poke_eq by lia. rewrite peek_poke_ne by lia.
           destruct Hj as [-> | ->]; [ lia | ].
           subst c2. destruct (Z.ltb_spec (2 * pos + 2) n); lia.
        -- destruct (Z.eq_dec j pos) as [-> | Hjp].
           ++ rewrite peek_poke_eq by lia. rewrite peek_poke_ne by lia.
              destruct (Hup i Hi Hj) as [_ Hsub]. rewrite Hc1v.
              apply Hsub; [ now left | exact Hc1 ].
           ++ rewrite !peek_poke_ne by lia. now apply Hrest.
      * intros p Hp Hpc. assert (p = pos) by lia. subst p.
        rewrite peek_poke_eq by lia. split; [ lia | ].
        intros c Hc Hcn. rewrite peek_poke_ne by lia. rewrite Hc1v.
        apply Hrest; try lia.
    + assert (Hc2 : 2 * pos + 2 < n)
        by (subst c2; destruct (Z.ltb_spec (2 * pos + 2) n); lia).
      assert (Hc2v : c2 = peek mc (2 * pos + 2))
        by (subst c2; destruct (Z.ltb_spec (2 * pos + 2) n);
            [ reflexivity | lia ]).
      apply IH; rewrite ?poke_length; fold n; try lia.
      * intros i j Hi Hj Hjn Hic Hjc.
        destruct (Z.eq_dec i pos) as [-> | Hip].
        -- rewrite peek_poke_eq by lia. rewrite peek_poke_ne by lia.
           destruct Hj as [-> | ->]; lia.
        -- destruct (Z.eq_dec j pos) as [-> | Hjp].
           ++ rewrite peek_poke_eq by lia. rewrite peek_poke_ne by lia.
              destruct (Hup i Hi Hj) as [_ Hsub]. rewrite Hc2v.
              apply Hsub; [ now right | exact Hc2 ].
           ++ rewrite !peek_poke_ne by lia. now apply Hrest.
      * intros p Hp Hpc. assert (p = pos) by lia. subst p.
        rewrite peek_poke_eq by lia. split; [ lia | ].
        intros c Hc Hcn. rewrite peek_poke_ne by lia. rewrite Hc2v.
        apply Hrest; try lia.
Qed.

(** Storing [x] where [b] was and [b] at the head is storing [x] at the
    head, up to the order of the cells. *)
Lemma insert_head_perm (l : list Z) (j : nat) (b x : Z) :
  l !! j = Some b -> Permutation (b :: <[j := x]> l) (x :: l).
Proof.
  revert j. induction l as [| a tl IH]; intros [| j] Hj; try discriminate.
  - cbn in Hj. injection Hj as ->. apply perm_swap.
  - cbn in Hj. cbn [list_insert]. change (<[S j := x]> (a :: tl))
      with (a :: <[j := x]> tl).
    rewrite perm_swap. rewrite (IH j Hj). apply perm_swap.
Qed.

Lemma insert_swap_perm (l : list Z) (i j : nat) (b x : Z) :
  (i < j)%nat -> l !! j = Some b ->
  Permutation (<[j := x]> (<[i := b]> l)) (<[i := x]> l).
Proof.
  revert i j. induction l as [| a tl IH]; intros i j Hij Hj;
    [ destruct j; discriminate | ].
  destruct j as [| j]; [ lia | ]. cbn in Hj.
  destruct i as [| i].
  - change (<[S j := x]> (<[0%nat := b]> (a :: tl)))
      with (b :: <[j := x]> tl).
    change (<[0%nat := x]> (a :: tl)) with (x :: tl).
    now apply insert_head_perm.
  - change (<[S j := x]> (<[S i := b]> (a :: tl)))
      with (a :: <[j := x]> (<[i := b]> tl)).
    change (<[S i := x]> (a :: tl)) with (a :: <[i := x]> tl).
    apply perm_skip. apply IH; [ lia | exact Hj ].
Qed.

Lemma poke_swap_perm (mc : list Z) (pos c x : Z) :
  0 <= pos < c -> c < Z.of_nat (length mc) ->
  Permutation (poke (poke mc pos (peek mc c)) c x) (poke mc pos x).
Proof.
  intros Hpos Hc. unfold poke, peek.
  destruct (Z.ltb_spec pos 0); [ lia | ].
  destruct (Z.ltb_spec c 0); [ lia | ].
  destruct (lookup_lt_is_Some_2 mc (Z.to_nat c) ltac:(lia)) as [b Hb].
  rewrite Hb. cbn [default]. apply insert_swap_perm; [ lia | exact Hb ].
Qed.

(** The sift moves cells up and stores [req]: the cells are those of the
    heap with [req] in the place of the hole. *)
Lemma heap_replace_loop_perm (req : Z) (fuel : nat) :
  req <= UINT64_MAX ->
  forall (mc : list Z) (pos : Z),
    0 <= pos < Z.of_nat (length mc) ->
    Z.of_nat (length mc) <= Z.of_nat fuel + pos ->
    Permutation (heap_replace_loop fuel mc req pos) (poke mc pos req).
Proof.
  intros Hreq. induction fuel as [| fuel IH]; intros mc pos Hpos Hfuel;
    [ lia | ].
  cbn [heap_replace_loop].
  set (n := Z.of_nat (length mc)) in *.
  destruct (Z.ltb_spec (2 * pos + 1) n) as [Hc1 | Hc1];
    destruct (Z.ltb_spec (2 * pos + 2) n) as [Hc2 | Hc2]; try lia;
    match goal with
    | |- context [if ?b && ?b' then _ else _] =>
        destruct (b && b') eqn:Hstop; [ reflexivity | ]
    end;
    try match goal with
    | |- context [if ?a <? ?b then _ else _] => destruct (Z.ltb_spec a b)
    end;
    try (rewrite IH by (rewrite ?poke_length; fold n; lia);
         apply poke_swap_perm; fold n; lia).
  (* what is left would move a cell that is not there up: [req] is above
     UINT64_MAX *)
  all: apply andb_false_iff in Hstop as [Hs | Hs]; apply Z.leb_gt in Hs; lia.
Qed.

(** In a heap the first cell is the lowest. *)
Lemma heap_root_lowest (mc : list Z) :
  is_heap mc ->
  forall k : nat, (k < length mc)%nat -> peek mc 0 <= peek mc (Z.of_nat k).
Proof.
  intros Hheap k. induction k as [k IH] using lt_wf_ind. intros Hk.
  destruct k as [| k]; [ apply Z.le_refl | ].
  destruct (Nat.Even_or_Odd k) as [[m ->] | [m ->]].
  - transitivity (peek mc (Z.of_nat m)); [ apply IH; lia | ].
    apply Hheap; lia.
  - transitivity (peek mc (Z.of_nat m)); [ apply IH; lia | ].
    apply Hheap; lia.
Qed.

Lemma heap_replace_spec (mc : list Z) (req_clock : Z) :
  is_heap mc -> req_clock <= UINT64_MAX ->
  is_heap (heap_replace mc req_clock)
  /\ length (heap_replace mc req_clock) = length mc
  /\ Permutation (heap_replace mc req_clock) (poke mc 0 req_clock)
  /\ forall c : Z,
       In c (heap_replace mc req_clock) ->
       peek (heap_replace mc req_clock) 0 <= c.
Proof.
  intros Hheap Hreq.
  assert (Hnil : heap_replace [] req_clock = [])
    by (unfold heap_replace; cbn [length heap_replace_loop];
        destruct (_ && _); reflexivity).
  assert (Hnew : is_heap (heap_replace mc req_clock)).
  { destruct (Nat.eq_dec (length mc) 0%nat) as [Hlen | Hlen].
    - apply length_zero_iff_nil in Hlen. subst mc. rewrite Hnil.
      intros i j Hi Hc Hj. cbn in Hj. lia.
    - apply heap_replace_loop_heap; try lia.
      intros i j Hi Hj Hjn _ _. now apply Hheap. }
  assert (Hperm : Permutation (heap_replace mc req_clock)
                    (poke mc 0 req_clock)).
  { destruct (Nat.eq_dec (length mc) 0%nat) as [Hlen | Hlen].
    - apply length_zero_iff_nil in Hlen. subst mc. now rewrite Hnil.
    - apply heap_replace_loop_perm; lia. }
  split; [ exact Hnew | ].
  split; [ rewrite (Permutation_length Hperm); apply poke_length | ].
  split; [ exact Hperm | ].
  intros c Hin. apply list_elem_of_In in Hin.
  apply list_elem_of_lookup_1 in Hin as [k Hk].
  pose proof (lookup_lt_Some _ _ _ Hk) as Hlt.
  pose proof (heap_root_lowest _ Hnew k Hlt) as Hlow.
  unfold peek at 2 in Hlow.
  destruct (Z.ltb_spec (Z.of_nat k) 0); [ lia | ].
  rewrite Nat2Z.id, Hk in Hlow. exact Hlow.
Qed.

(** X8: [heap_replace] puts [req_clock] in the place of the first cell
    and restores the heap: the result is a heap of the same size, holding
    the old cells but the first and [req_clock], the lowest of them in its
    first cell. *)
Theorem heap_replace_keeps_heap (mc : list Z) (req_clock : Z) :
  is_heap mc -> req_clock <= UINT64_MAX ->
  is_heap (heap_replace mc req_clock)
  /\ length (heap_replace mc req_clock) = length mc
  /\ Permutation (heap_replace mc req_clock) (poke mc 0 req_clock)
  /\ forall c : Z,
       In c (heap_replace mc req_clock) ->
       peek (heap_replace mc req_clock) 0 <= c.
Proof. apply heap_replace_spec. Qed.

End MoveClockHeap.

(** ** What the operations keep *)

Section Advances.

Lemma advances_same (sc sc' : stepcompress) :
  same_setup sc sc' -> msg_queue sc' = msg_queue sc ->
  last_step_clock sc' = last_step_clock sc ->
  advances sc sc'.
Proof.
  intros Hs Hm Hc. split; [ exact Hs | ]. split.
  - exists []. now rewrite app_nil_r.
  - unfold clocks_typed. now rewrite Hm, Hc.
Qed.

Lemma advances_refl (sc : stepcompress) : advances sc sc.
Proof. apply advances_same; repeat split. Qed.

Lemma advances_trans (a b c : stepcompress) :
  advances a b -> advances b c -> advances a c.
Proof.
  intros (Hs1 & (n1 & Hm1) & Ht1) (Hs2 & (n2 & Hm2) & Ht2).
  split; [ | split ].
  - unfold same_setup in *.
    destruct Hs1 as (? & ? & ? & ? & ? & ? & ?).
    destruct Hs2 as (? & ? & ? & ? & ? & ? & ?).
    repeat split; congruence.
  - exists (n1 ++ n2). now rewrite Hm2, Hm1, app_assoc.
  - auto.
Qed.

Lemma add_move_advances (sc : stepcompress) (fc : Z) (move : step_move) :
  advances sc (add_move sc fc move).
Proof.
  split; [ repeat split | ]. split.
  - eexists. reflexivity.
  - intros [Hc Hm]. split.
    + cbn. match goal with |- u64 ?x <= _ => pose proof (u64_range x) end.
      unfold UINT64_MAX. lia.
    + cbn [add_move msg_queue with_history with_last_step_clock
           with_msg_queue with_last_interval].
      apply Forall_app. split; [ exact Hm | ].
      constructor; [ exact Hc | constructor ].
Qed.

Lemma calc_last_step_print_time_advances (sc : stepcompress) :
  advances sc (calc_last_step_print_time sc).
Proof. apply advances_same; repeat split. Qed.

Lemma queue_flush_pass_advances (sc sc' : stepcompress) (brk : bool) :
  queue_flush_pass sc = Ok (sc', brk) -> advances sc sc'.
Proof.
  unfold queue_flush_pass.
  destruct (check_line sc (wrap_compress sc)) as [[] | e]; cbn [bind];
    [ | discriminate ].
  set (sc1 := with_last_ideal_step_clock sc _).
  set (sc2 := add_move sc1 _ _).
  assert (H2 : advances sc sc2).
  { apply (advances_trans _ sc1).
    - apply advances_same; repeat split.
    - apply add_move_advances. }
  destruct (_ >=? _); intros [= <- <-];
    (eapply advances_trans; [ exact H2 | ]);
    apply advances_same; repeat split.
Qed.

Lemma queue_flush_loop_advances (move_clock : Z) (fuel : nat) :
  forall sc sc' : stepcompress,
    queue_flush_loop fuel sc move_clock = Ok sc' -> advances sc sc'.
Proof.
  induction fuel as [| fuel IH]; intros sc sc' Hrun;
    cbn [queue_flush_loop] in Hrun;
    (destruct (last_step_clock sc <? move_clock);
     [ | injection Hrun as <-; apply advances_refl ]);
    destruct (queue_flush_pass sc) as [[sc1 brk] | e] eqn:Hpass;
    cbn [bind] in Hrun; try discriminate;
    apply queue_flush_pass_advances in Hpass;
    destruct brk; try (injection Hrun as <-; exact Hpass).
  eapply advances_trans; [ exact Hpass | ]. now apply IH.
Qed.

Lemma queue_flush_advances (sc sc' : stepcompress) (move_clock : Z) :
  queue_flush sc move_clock = Ok sc' -> advances sc sc'.
Proof.
  unfold queue_flush. destruct (queue_pos sc >=? queue_next sc).
  - intros [= <-]. apply advances_refl.
  - destruct (queue_flush_loop _ sc move_clock) as [sc1 | e] eqn:Hloop;
      cbn [bind]; [ | discriminate ].
    intros [= <-]. apply queue_flush_loop_advances in Hloop.
    eapply advances_trans; [ exact Hloop | ].
    apply calc_last_step_print_time_advances.
Qed.

Lemma stepcompress_flush_far_advances (sc sc' : stepcompress) (c : Z) :
  stepcompress_flush_far sc c = Ok sc' -> advances sc sc'.
Proof.
  unfold stepcompress_flush_far. intros [= <-].
  eapply advances_trans; [ | apply calc_last_step_print_time_advances ].
  eapply advances_trans; [ | apply add_move_advances ].
  apply advances_same; repeat split.
Qed.

Lemma set_next_step_dir_advances (sc sc' : stepcompress) (d : Z) :
  set_next_step_dir sc d = Ok sc' -> advances sc sc'.
Proof.
  unfold set_next_step_dir. destruct (sdir sc =? d).
  - intros [= <-]. apply advances_refl.
  - destruct (queue_flush sc UINT64_MAX) as [sc1 | e] eqn:Hflush;
      cbn [bind]; [ | discriminate ].
    intros [= <-]. apply queue_flush_advances in Hflush.
    eapply advances_trans; [ exact Hflush | ].
    split; [ repeat split | ]. split.
    + eexists. reflexivity.
    + intros [Hc Hm]. split; [ exact Hc | ].
      cbn [msg_queue with_msg_queue with_sdir].
      apply Forall_app. split; [ exact Hm | ].
      constructor; [ cbn; unfold UINT64_MAX; lia | constructor ].
Qed.

Lemma queue_append_far_advances (sc sc' : stepcompress) :
  queue_append_far sc = Ok sc' -> advances sc sc'.
Proof.
  unfold queue_append_far.
  destruct (queue_flush _ _) as [sc1 | e] eqn:Hflush; cbn [bind];
    [ | discriminate ].
  apply queue_flush_advances in Hflush.
  assert (H1 : advances sc sc1).
  { eapply advances_trans; [ | exact Hflush ].
    apply advances_same; repeat split. }
  destruct (_ >=? _).
  - intros Hfar. apply stepcompress_flush_far_advances in Hfar.
    eapply advances_trans; eassumption.
  - intros [= <-]. eapply advances_trans; [ exact H1 | ].
    apply advances_same; repeat split.
Qed.

Lemma queue_append_extend_advances (sc sc' : stepcompress) :
  queue_append_extend sc = Ok sc' -> advances sc sc'.
Proof.
  unfold queue_append_extend.
  match goal with
  | |- bind ?r _ = _ -> _ =>
      assert (H1 : forall sc1, r = Ok sc1 -> advances sc sc1);
      [ | destruct r as [sc1 | e]; cbn [bind]; [ | discriminate ] ]
  end.
  { intros sc1. destruct (_ >? _).
    - apply queue_flush_advances.
    - intros [= <-]. apply advances_refl. }
  specialize (H1 sc1 eq_refl). intros [= <-].
  eapply advances_trans; [ exact H1 | ].
  destruct (queue_next sc1 >=? queue_end sc1);
    [ destruct (queue_pos sc1 >? 0) | ];
    apply advances_same; repeat split.
Qed.

Lemma queue_append_advances (sc sc' : stepcompress) :
  queue_append sc = Ok sc' -> advances sc sc'.
Proof.
  unfold queue_append.
  match goal with
  | |- bind ?r _ = _ -> _ =>
      assert (H1 : forall sc1, r = Ok sc1 -> advances sc sc1);
      [ | destruct r as [sc1 | e]; cbn [bind]; [ | discriminate ] ]
  end.
  { intros sc1. destruct (_ =? _).
    - intros [= <-]. apply advances_refl.
    - apply set_next_step_dir_advances. }
  specialize (H1 sc1 eq_refl).
  destruct (_ >=? _);
    [ intros H; apply queue_append_far_advances in H
    | destruct (_ >=? _);
      [ intros H; apply queue_append_extend_advances in H
      | intros [= <-] ] ];
    try (eapply advances_trans; eassumption).
  eapply advances_trans; [ exact H1 | ].
  apply advances_same; repeat split.
Qed.

Lemma stepcompress_flush_advances (sc sc' : stepcompress) (move_clock : Z) :
  stepcompress_flush sc move_clock = Ok sc' -> advances sc sc'.
Proof.
  unfold stepcompress_flush.
  match goal with
  | |- bind ?r _ = _ -> _ =>
      assert (H1 : forall sc1, r = Ok sc1 -> advances sc sc1);
      [ | destruct r as [sc1 | e]; cbn [bind]; [ | discriminate ] ]
  end.
  { intros sc1. destruct (_ && _).
    - apply queue_append_advances.
    - intros [= <-]. apply advances_refl. }
  specialize (H1 sc1 eq_refl). intros H.
  apply queue_flush_advances in H. eapply advances_trans; eassumption.
Qed.

End Advances.

(** ** Flushing and committing *)

Section FlushCommit.

Lemma queue_flush_loop_frame (move_clock : Z) (fuel : nat) :
  forall sc sc' : stepcompress,
    queue_flush_loop fuel sc move_clock = Ok sc' ->
    queue sc' = queue sc
    /\ next_step_clock sc' = next_step_clock sc
    /\ next_step_dir sc' = next_step_dir sc
    /\ sdir sc' = sdir sc.
Proof.
  induction fuel as [| fuel IH]; intros sc sc' Hrun;
    cbn [queue_flush_loop] in Hrun;
    (destruct (last_step_clock sc <? move_clock);
     [ | injection Hrun as <-; repeat split ]);
    destruct (queue_flush_pass sc) as [[sc1 brk] | e] eqn:Hpass;
    cbn [bind] in Hrun; try discriminate;
    apply queue_flush_pass_cursors in Hpass as (Hq & Hc & Hd & Hs & _);
    destruct brk; try (injection Hrun as <-; repeat split; assumption).
  apply IH in Hrun as (Hq' & Hc' & Hd' & Hs'). repeat split; congruence.
Qed.

Lemma queue_flush_frame (sc sc' : stepcompress) (move_clock : Z) :
  queue_flush sc move_clock = Ok sc' ->
  queue sc' = queue sc
  /\ next_step_clock sc' = next_step_clock sc
  /\ next_step_dir sc' = next_step_dir sc
  /\ sdir sc' = sdir sc.
Proof.
  unfold queue_flush. destruct (queue_pos sc >=? queue_next sc).
  - intros [= <-]. repeat split.
  - destruct (queue_flush_loop _ sc move_clock) as [sc1 | e] eqn:Hloop;
      cbn [bind]; [ | discriminate ].
    intros [= <-]. apply queue_flush_loop_frame in Hloop. exact Hloop.
Qed.

(** The flush loop ends with the queue empty or the clock reached. *)
Lemma queue_flush_loop_done (move_clock : Z) (fuel : nat) :
  forall sc sc' : stepcompress,
    queue_flush_loop fuel sc move_clock = Ok sc' ->
    queue_next sc - queue_pos sc <= Z.of_nat fuel + 1 ->
    queue_next sc' <= queue_pos sc' \/ move_clock <= last_step_clock sc'.
Proof.
  induction fuel as [| fuel IH]; intros sc sc' Hrun Hfuel;
    cbn [queue_flush_loop] in Hrun;
    (destruct (Z.ltb_spec (last_step_clock sc) move_clock);
     [ | injection Hrun as <-; right; lia ]);
    destruct (queue_flush_pass sc) as [[sc1 brk] | e] eqn:Hpass;
    cbn [bind] in Hrun; try discriminate;
    pose proof (wrap_compress_count_range sc) as Hcount;
    apply queue_flush_pass_cursors in Hpass as (_ & _ & _ & _ & Hcheck & Hcur);
    apply check_line_count in Hcheck;
    destruct brk;
    try (injection Hrun as <-; destruct Hcur as [-> ->]; left; lia);
    destruct Hcur as (Hn & Hp & Hlt).
  - lia.
  - apply (IH _ _ Hrun). lia.
Qed.

Lemma queue_flush_reaches (sc sc' : stepcompress) (move_clock : Z) :
  queue_flush sc move_clock = Ok sc' ->
  queue_next sc' <= queue_pos sc' \/ move_clock <= last_step_clock sc'.
Proof.
  unfold queue_flush.
  destruct (Z.geb_spec (queue_pos sc) (queue_next sc)).
  - intros [= <-]. left. lia.
  - destruct (queue_flush_loop _ sc move_clock) as [sc1 | e] eqn:Hloop;
      cbn [bind]; [ | discriminate ].
    intros [= <-]. apply queue_flush_loop_done in Hloop; [ | lia ].
    exact Hloop.
Qed.

(** X9: [queue_flush] does not stop early: it returns with the step queue
    empty or with last_step_clock at or past move_clock. *)
Theorem queue_flush_reaches_move_clock
    (sc sc' : stepcompress) (move_clock : Z) :
  queue_flush sc move_clock = Ok sc' ->
  queue_next sc' <= queue_pos sc' \/ move_clock <= last_step_clock sc'.
Proof. apply queue_flush_reaches. Qed.

Lemma set_next_step_dir_post (sc sc' : stepcompress) (d : Z) :
  set_next_step_dir sc d = Ok sc' ->
  sdir sc' = d
  /\ next_step_clock sc' = next_step_clock sc
  /\ next_step_dir sc' = next_step_dir sc.
Proof.
  unfold set_next_step_dir. destruct (Z.eqb_spec (sdir sc) d).
  - intros [= <-]. repeat split. assumption.
  - destruct (queue_flush sc UINT64_MAX) as [sc1 | e] eqn:Hflush;
      cbn [bind]; [ | discriminate ].
    intros [= <-]. apply queue_flush_frame in Hflush as (_ & Hc & Hd & _).
    repeat split; assumption.
Qed.

(** After [queue_append] nothing is pending, and the direction in force
    is that of the step it queued. *)
Lemma queue_append_post (sc sc' : stepcompress) :
  queue_append sc = Ok sc' ->
  next_step_clock sc' = 0
  /\ next_step_dir sc' = next_step_dir sc
  /\ sdir sc' = next_step_dir sc.
Proof.
  unfold queue_append.
  match goal with
  | |- bind ?r _ = _ -> _ =>
      assert (H1 : forall sc1, r = Ok sc1 ->
                sdir sc1 = next_step_dir sc
                /\ next_step_clock sc1 = next_step_clock sc
                /\ next_step_dir sc1 = next_step_dir sc);
      [ | destruct r as [sc1 | e]; cbn [bind]; [ | discriminate ] ]
  end.
  { intros sc1. destruct (Z.eqb_spec (next_step_dir sc) (sdir sc)).
    - intros [= <-]. repeat split. congruence.
    - apply set_next_step_dir_post. }
  destruct (H1 sc1 eq_refl) as (Hs & Hc & Hd). clear H1.
  destruct (_ >=? _); [ | destruct (_ >=? _) ].
  - unfold queue_append_far.
    destruct (queue_flush _ _) as [sc2 | e] eqn:Hflush; cbn [bind];
      [ | discriminate ].
    apply queue_flush_frame in Hflush as (_ & Hc2 & Hd2 & Hs2).
    cbn in Hc2, Hd2, Hs2.
    destruct (_ >=? _); intros [= <-]; cbn; repeat split; congruence.
  - unfold queue_append_extend.
    match goal with
    | |- bind ?r _ = _ -> _ =>
        assert (H2 : forall sc2, r = Ok sc2 ->
                  next_step_dir sc2 = next_step_dir sc1
                  /\ sdir sc2 = sdir sc1);
        [ | destruct r as [sc2 | e]; cbn [bind]; [ | discriminate ] ]
    end.
    { intros sc2. destruct (_ >? _).
      - intros H. apply queue_flush_frame in H as (_ & _ & ? & ?). auto.
      - intros [= <-]. auto. }
    destruct (H2 sc2 eq_refl) as (Hd2 & Hs2). intros [= <-].
    destruct (queue_next sc2 >=? queue_end sc2);
      [ destruct (queue_pos sc2 >? 0) | ]; cbn; repeat split; congruence.
  - intros [= <-]. cbn. repeat split; congruence.
Qed.

(** X10: [stepcompress_commit] leaves no pending step, and a second commit
    changes nothing; the step direction of the last append stays, and it
    is the direction in force when a step was committed. *)
Theorem commit_leaves_no_pending_step (sc sc' : stepcompress) :
  stepcompress_commit sc = Ok sc' ->
  next_step_clock sc' = 0
  /\ stepcompress_commit sc' = Ok sc'
  /\ stepcompress_get_step_dir sc' = stepcompress_get_step_dir sc
  /\ (next_step_clock sc <> 0 -> sdir sc' = next_step_dir sc).
Proof.
  unfold stepcompress_commit, stepcompress_get_step_dir.
  destruct (Z.eqb_spec (next_step_clock sc) 0) as [Hz | Hnz].
  - intros [= <-]. rewrite Hz. cbn. repeat split. contradiction.
  - intros Hrun. apply queue_append_post in Hrun as (Hc & Hd & Hs).
    rewrite Hc. cbn. repeat split; auto.
Qed.

Lemma flush_pending_spec (sc sc' : stepcompress) (move_clock : Z) :
  stepcompress_flush sc move_clock = Ok sc' ->
  next_step_dir sc' = next_step_dir sc
  /\ (next_step_clock sc <= move_clock -> next_step_clock sc' = 0)
  /\ (next_step_clock sc <> 0 -> next_step_clock sc <= move_clock ->
      sdir sc' = next_step_dir sc)
  /\ (move_clock < next_step_clock sc ->
      next_step_clock sc' = next_step_clock sc
      /\ queue sc' = queue sc /\ sdir sc' = sdir sc).
Proof.
  unfold stepcompress_flush.
  destruct (Z.eqb_spec (next_step_clock sc) 0) as [Hz | Hnz]; cbn [negb andb].
  - cbn [bind]. intros H. apply queue_flush_frame in H as (Hq & Hc & Hd & Hs).
    split; [ exact Hd | ]. split; [ intros; congruence | ].
    split; [ contradiction | ]. auto.
  - destruct (Z.geb_spec move_clock (next_step_clock sc)) as [Hge | Hlt].
    + destruct (queue_append sc) as [sc1 | e] eqn:Happ; cbn [bind];
        [ | discriminate ].
      apply queue_append_post in Happ as (Hc1 & Hd1 & Hs1).
      intros H. apply queue_flush_frame in H as (Hq & Hc & Hd & Hs).
      split; [ congruence | ]. split; [ intros; congruence | ].
      split; [ intros; congruence | intros; lia ].
    + cbn [bind]. intros H.
      apply queue_flush_frame in H as (Hq & Hc & Hd & Hs).
      split; [ exact Hd | ]. split; [ intros; lia | ].
      split; [ intros; lia | auto ].
Qed.



(** X13: [stepcompress_queue_msg] flushes the stepper up to UINT64_MAX,
    which queues the pending step and leaves the step queue empty (or the
    clock of the last step at UINT64_MAX), and then queues the message it
    allocates for the given words behind everything queued before,
    setting its req_clock, to the clock of the last step, and nothing
    else. *)
Theorem queue_msg_goes_last (sc sc' : stepcompress) (data : list Z) :
  stepcompress_queue_msg sc data = Ok sc' ->
  (exists flushed,
     let qm := message_alloc_and_encode data in
     msg_queue sc'
     = msg_queue sc ++ flushed
       ++ [mk_queue_message (msg qm) (min_clock qm) (last_step_clock sc')])
  /\ (next_step_clock sc <= UINT64_MAX -> next_step_clock sc' = 0)
  /\ (queue_next sc' <= queue_pos sc' \/ UINT64_MAX <= last_step_clock sc').
Proof.
  unfold stepcompress_queue_msg.
  destruct (stepcompress_flush sc UINT64_MAX) as [sc1 | e] eqn:Hflush;
    cbn [bind]; [ | discriminate ].
  intros [= <-]. split; [ | split ].
  - destruct (stepcompress_flush_advances _ _ _ Hflush)
      as (_ & (new & Hnew) & _).
    exists new. cbn zeta.
    cbn [msg_queue with_msg_queue last_step_clock].
    rewrite Hnew. now rewrite <- app_assoc.
  - intros Htyped.
    now apply flush_pending_spec in Hflush as (_ & Hz & _); auto.
  - unfold stepcompress_flush in Hflush.
    destruct (if _ && _ then _ else _) as [sc0 | e]; cbn [bind] in Hflush;
      [ | discriminate ].
    apply queue_flush_reaches in Hflush. exact Hflush.
Qed.

Lemma reset_spec (sc sc' : stepcompress) (clock : Z) :
  stepcompress_reset sc clock = Ok sc' ->
  last_step_clock sc' = clock
  /\ last_interval sc' = 0
  /\ sdir sc' = -1
  /\ (next_step_clock sc <= UINT64_MAX -> next_step_clock sc' = 0)
  /\ stepcompress_get_step_dir sc' = stepcompress_get_step_dir sc
  /\ same_setup sc sc'
  /\ (exists new, msg_queue sc' = msg_queue sc ++ new)
  /\ (queue_next sc' <= queue_pos sc'
      \/ exists sc1,
           stepcompress_flush sc UINT64_MAX = Ok sc1
           /\ UINT64_MAX <= last_step_clock sc1).
Proof.
  unfold stepcompress_reset, stepcompress_get_step_dir.
  destruct (stepcompress_flush sc UINT64_MAX) as [sc1 | e] eqn:Hflush;
    cbn [bind]; [ | discriminate ].
  intros [= <-].
  pose proof (stepcompress_flush_advances _ _ _ Hflush) as (Hs & Hn & _).
  pose proof (flush_pending_spec _ _ _ Hflush) as (Hd & Hz & _).
  assert (Hdone : queue_next sc1 <= queue_pos sc1
                  \/ UINT64_MAX <= last_step_clock sc1).
  { unfold stepcompress_flush in Hflush.
    destruct (if _ && _ then _ else _) as [sc0 | e]; cbn [bind] in Hflush;
      [ | discriminate ].
    now apply queue_flush_reaches in Hflush. }
  cbn. repeat split; try apply Hs; auto.
  destruct Hdone as [He | Hm]; [ left; exact He | right ].
  exists sc1. split; [ reflexivity | exact Hm ].
Qed.

(** X14: [stepcompress_reset] flushes the stepper up to UINT64_MAX and
    then sets the clock of the last step; the last interval is 0 and the
    direction in force unknown, so that the next step sends its
    direction; nothing is pending and the step queue is empty (unless the
    flush left the clock of the last step at UINT64_MAX); the setup is as
    it was and the queued messages are still queued. *)
Theorem reset_postconditions (sc sc' : stepcompress) (clock : Z) :
  stepcompress_reset sc clock = Ok sc' ->
  last_step_clock sc' = clock
  /\ last_interval sc' = 0
  /\ sdir sc' = -1
  /\ (next_step_clock sc <= UINT64_MAX -> next_step_clock sc' = 0)
  /\ stepcompress_get_step_dir sc' = stepcompress_get_step_dir sc
  /\ same_setup sc sc'
  /\ (exists new, msg_queue sc' = msg_queue sc ++ new)
  /\ (queue_next sc' <= queue_pos sc'
      \/ exists sc1,
           stepcompress_flush sc UINT64_MAX = Ok sc1
           /\ UINT64_MAX <= last_step_clock sc1).
Proof. apply reset_spec. Qed.

(** X15: no operation of the interface changes the identity or the
    settings of a stepper, and none removes or reorders a queued message:
    the messages queued before are still queued, in front of the new
    ones. *)
Theorem operations_keep_setup_and_messages (sc sc' : stepcompress) :
  (exists d pt st, stepcompress_append sc d pt st = Ok sc')
  \/ stepcompress_commit sc = Ok sc'
  \/ (exists move_clock, stepcompress_flush sc move_clock = Ok sc')
  \/ (exists clock, stepcompress_reset sc clock = Ok sc')
  \/ (exists clock pos, stepcompress_set_last_position sc clock pos = Ok sc')
  \/ (exists data, stepcompress_queue_msg sc data = Ok sc') ->
  same_setup sc sc' /\ exists new, msg_queue sc' = msg_queue sc ++ new.
Proof.
  assert (Hadv : forall a b, advances a b ->
            same_setup a b /\ exists new, msg_queue b = msg_queue a ++ new)
    by (intros a b (? & ? & _); auto).
  intros [(d & pt & st & H) | [H | [(mc & H) | [(c & H) | [(c & p & H)
         | (data & H)]]]]].
  - apply Hadv. unfold stepcompress_append in H.
    destruct (next_step_clock sc =? 0);
      [ injection H as <-; apply advances_same; repeat split | ].
    destruct (_ && _);
      [ injection H as <-; apply advances_same; repeat split | ].
    destruct (queue_append sc) as [sc1 | e] eqn:Happ; cbn [bind] in H;
      [ | discriminate ].
    injection H as <-. apply queue_append_advances in Happ.
    eapply advances_trans; [ exact Happ | ].
    apply advances_same; repeat split.
  - apply Hadv. unfold stepcompress_commit in H.
    destruct (next_step_clock sc =? 0).
    + injection H as <-. apply advances_refl.
    + now apply queue_append_advances.
  - apply Hadv. now apply stepcompress_flush_advances in H.
  - now apply reset_spec in H as (_ & _ & _ & _ & _ & ? & ? & _).
  - apply Hadv. unfold stepcompress_set_last_position in H.
    destruct (stepcompress_flush sc UINT64_MAX) as [sc1 | e] eqn:Hflush;
      cbn [bind] in H; [ | discriminate ].
    injection H as <-. apply stepcompress_flush_advances in Hflush.
    eapply advances_trans; [ exact Hflush | ].
    apply advances_same; repeat split.
  - unfold stepcompress_queue_msg in H.
    destruct (stepcompress_flush sc UINT64_MAX) as [sc1 | e] eqn:Hflush;
      cbn [bind] in H; [ | discriminate ].
    injection H as <-.
    apply stepcompress_flush_advances in Hflush as (Hs & (new & Hn) & _).
    split; [ exact Hs | ]. eexists. cbn. rewrite Hn.
    rewrite <- app_assoc. reflexivity.
Qed.

End FlushCommit.

(** ** The synchroniser's loop *)

Section Synchroniser.

Variable MAX_CLOCK : Z.
Variable move_clock : Z.

Lemma flush_all_typed (scs : list stepcompress) :
  forall scs' : list stepcompress,
    flush_all scs move_clock = Ok scs' ->
    length scs' = length scs
    /\ (Forall clocks_typed scs -> Forall clocks_typed scs').
Proof.
  induction scs as [| sc tl IH]; intros scs' Hrun; cbn [flush_all] in Hrun.
  - injection Hrun as <-. auto.
  - destruct (stepcompress_flush sc move_clock) as [sc1 | e] eqn:Hflush;
      cbn [bind] in Hrun; [ | discriminate ].
    destruct (flush_all tl move_clock) as [tl1 | e]; cbn [bind] in Hrun;
      [ | discriminate ].
    injection Hrun as <-. destruct (IH tl1 eq_refl) as [Hlen Hty].
    split; [ cbn; now rewrite Hlen | ].
    intros Hall. apply Forall_cons in Hall as [Hsc Htl].
    apply stepcompress_flush_advances in Hflush as (_ & _ & Hadv).
    constructor; auto.
Qed.

Lemma pop_msg_typed (scs : list stepcompress) (i : nat) :
  length (pop_msg scs i) = length scs
  /\ (Forall clocks_typed scs -> Forall clocks_typed (pop_msg scs i)).
Proof.
  unfold pop_msg. destruct (scs !! i) as [sc |] eqn:Hi; [ | auto ].
  split; [ apply length_insert | ].
  intros Hall. apply Forall_insert; [ exact Hall | ].
  pose proof (proj1 (Forall_lookup _ _) Hall i sc Hi) as [Hc Hm].
  split; [ exact Hc | ]. cbn.
  destruct (msg_queue sc) as [| m rest]; [ constructor | ].
  now apply Forall_cons in Hm as [_ Hrest].
Qed.

(** The merge keeps the heap of move clocks a heap, and the steppers'
    clocks typed. *)
Lemma order_loop_heap (fuel : nat) :
  forall (scs : list stepcompress) (mc : list Z) (msgs : list queue_message)
         (scs' : list stepcompress) (mc' : list Z)
         (out : list queue_message),
    order_loop fuel MAX_CLOCK move_clock scs mc msgs = (scs', mc', out) ->
    is_heap mc -> Forall clocks_typed scs ->
    is_heap mc' /\ length mc' = length mc
    /\ length scs' = length scs /\ Forall clocks_typed scs'.
Proof.
  induction fuel as [| fuel IH];
    intros scs mc msgs scs' mc' out Hrun Hheap Hty;
    cbn [order_loop] in Hrun;
    destruct (find_lowest scs 0 MAX_CLOCK None) as [lowest [[i qm] |]] eqn:Hf;
    try (injection Hrun as <- <- <-; auto);
    (destruct (negb (min_clock qm =? 0) && (lowest >? move_clock));
     [ injection Hrun as <- <- <-; auto | ]);
    apply find_lowest_head in Hf as (_ & (sc & rest & Hi & Hq) & _);
    pose proof (proj1 (Forall_lookup _ _) Hty i sc Hi) as [_ Hmin];
    rewrite Hq in Hmin; apply Forall_cons in Hmin as [Hmin _];
    destruct (pop_msg_typed scs i) as [Hlen Hpop];
    assert (Hmc : is_heap
                    (if negb (min_clock qm =? 0)
                     then heap_replace mc (min_clock qm) else mc)
                  /\ length (if negb (min_clock qm =? 0)
                             then heap_replace mc (min_clock qm) else mc)
                     = length mc)
      by (destruct (negb (min_clock qm =? 0)); [ | auto ];
          destruct (heap_replace_spec mc (min_clock qm) Hheap Hmin)
            as (? & ? & _); auto).
  - injection Hrun as <- <- <-. destruct Hmc. auto.
  - destruct Hmc as [Hh Hl].
    destruct (IH _ _ _ _ _ _ Hrun Hh (Hpop Hty)) as (? & ? & ? & ?).
    repeat split; try assumption; congruence.
Qed.

(** X16: [steppersync_flush] keeps the move clocks a binary heap of the
    same size, and the steppers' clocks in the range of uint64_t. *)
Theorem steppersync_flush_keeps_heap
    (ss ss' : steppersync) (batch : list queue_message) :
  steppersync_flush MAX_CLOCK ss move_clock = Ok (ss', batch) ->
  is_heap (move_clocks ss) ->
  Forall clocks_typed (sc_list ss) ->
  is_heap (move_clocks ss')
  /\ num_move_clocks ss' = num_move_clocks ss
  /\ length (sc_list ss') = length (sc_list ss)
  /\ Forall clocks_typed (sc_list ss').
Proof.
  unfold steppersync_flush, num_move_clocks. intros Hrun Hheap Hty.
  destruct (flush_all (sc_list ss) move_clock) as [scs |] eqn:Hflush;
    cbn [bind] in Hrun; [ | discriminate ].
  destruct (order_loop _ MAX_CLOCK move_clock scs (move_clocks ss) [])
    as [[scs' mc'] out] eqn:Hloop.
  injection Hrun as <- <-. cbn [move_clocks sc_list].
  apply flush_all_typed in Hflush as [Hlen Hty1].
  apply order_loop_heap in Hloop as (? & ? & ? & ?); auto.
  repeat split; try assumption; congruence.
Qed.

(** With the fuel [steppersync_flush] gives it, the merge ends at one of
    its two exits. *)
Lemma order_loop_blocked (fuel : nat) :
  forall (scs : list stepcompress) (mc : list Z) (msgs : list queue_message)
         (scs' : list stepcompress) (mc' : list Z)
         (out : list queue_message),
    order_loop fuel MAX_CLOCK move_clock scs mc msgs = (scs', mc', out) ->
    (queued_msgs scs <= fuel)%nat ->
    match find_lowest scs' 0 MAX_CLOCK None with
    | (_, None) => True
    | (lowest, Some (_, qm)) => min_clock qm <> 0 /\ move_clock < lowest
    end.
Proof.
  induction fuel as [| fuel IH];
    intros scs mc msgs scs' mc' out Hrun Hfuel;
    cbn [order_loop] in Hrun;
    destruct (find_lowest scs 0 MAX_CLOCK None) as [lowest [[i qm] |]] eqn:Hf;
    try (injection Hrun as <- <- <-; now rewrite Hf);
    (destruct (Z.eqb_spec (min_clock qm) 0) as [Hz | Hnz];
     cbn [negb andb] in Hrun;
     [ | destruct (Z.gtb_spec lowest move_clock);
         [ injection Hrun as <- <- <-; rewrite Hf; split; [ exact Hnz | lia ]
         | ] ]);
    apply find_lowest_head in Hf as (_ & (sc & rest & Hi & Hq) & _);
    assert (Hpop : S (queued_msgs (pop_msg scs i)) = queued_msgs scs)
      by (unfold pop_msg; rewrite Hi;
          apply (queued_msgs_insert scs i sc); [ exact Hi | ];
          cbn; now rewrite Hq);
    try lia; apply (IH _ _ _ _ _ _ Hrun); lia.
Qed.

(** X17: what [steppersync_flush] leaves queued is held back: a queue
    that still has a head has it at or above MAX_CLOCK, or some head that
    is not later uses the move queue and is requested after move_clock. *)
Theorem steppersync_flush_sends_all_due
    (ss ss' : steppersync) (batch : list queue_message) :
  steppersync_flush MAX_CLOCK ss move_clock = Ok (ss', batch) ->
  forall (j : nat) (sc : stepcompress) (m : queue_message)
         (rest : list queue_message),
    sc_list ss' !! j = Some sc -> msg_queue sc = m :: rest ->
    MAX_CLOCK <= req_clock m
    \/ exists (i : nat) (sci : stepcompress) (qm : queue_message)
              (resti : list queue_message),
         sc_list ss' !! i = Some sci /\ msg_queue sci = qm :: resti
         /\ min_clock qm <> 0
         /\ move_clock < req_clock qm <= req_clock m.
Proof.
  unfold steppersync_flush. intros Hrun j sc m rest Hj Hq.
  destruct (flush_all (sc_list ss) move_clock) as [scs |];
    cbn [bind] in Hrun; [ | discriminate ].
  destruct (order_loop _ MAX_CLOCK move_clock scs (move_clocks ss) [])
    as [[scs' mc'] out] eqn:Hloop.
  injection Hrun as <- <-. cbn [sc_list] in *.
  apply order_loop_blocked in Hloop; [ | lia ].
  destruct (find_lowest scs' 0 MAX_CLOCK None) as [lowest [[i qm] |]] eqn:Hf.
  - destruct Hloop as [Hnz Hlate].
    apply find_lowest_head in Hf as (-> & (sci & resti & Hi & Hqi) & Hall).
    right. exists i, sci, qm, resti. repeat split; try assumption.
    eapply Hall; eassumption.
  - left.
    destruct (find_lowest_spec scs' 0 MAX_CLOCK None) as (_ & Hall & Hsel).
    rewrite Hf in Hall, Hsel. cbn [fst] in Hall.
    destruct Hsel as [Hsel | (? & ? & ? & ? & Hsel & _)];
      [ | discriminate ].
    injection Hsel as ->. eapply Hall; eassumption.
Qed.

(** Every message the merge batches is a queued message, and one that uses
    the move queue is requested by move_clock. *)
Lemma order_loop_due (fuel : nat) (scs0 : list stepcompress) :
  forall (scs : list stepcompress) (mc : list Z) (msgs : list queue_message)
         (scs' : list stepcompress) (mc' : list Z)
         (out : list queue_message),
    order_loop fuel MAX_CLOCK move_clock scs mc msgs = (scs', mc', out) ->
    (forall j sc m, scs !! j = Some sc -> In m (msg_queue sc) ->
       exists sc0, In sc0 scs0 /\ In m (msg_queue sc0)) ->
    exists originals batch,
      out = msgs ++ batch
      /\ Forall2 batched_from originals batch
      /\ Forall (fun o =>
                   (exists sc0, In sc0 scs0 /\ In o (msg_queue sc0))
                   /\ (min_clock o <> 0 -> req_clock o <= move_clock))
           originals.
Proof.
  assert (Hnone : forall msgs : list queue_message,
    exists originals batch,
      msgs = msgs ++ batch
      /\ Forall2 batched_from originals batch
      /\ Forall (fun o =>
                   (exists sc0, In sc0 scs0 /\ In o (msg_queue sc0))
                   /\ (min_clock o <> 0 -> req_clock o <= move_clock))
           originals)
    by (intros msgs; exists [], []; rewrite app_nil_r;
        repeat split; constructor).
  induction fuel as [| fuel IH];
    intros scs mc msgs scs' mc' out Hrun Hfrom;
    cbn [order_loop] in Hrun;
    destruct (find_lowest scs 0 MAX_CLOCK None) as [lowest [[i qm] |]] eqn:Hf;
    try (injection Hrun as <- <- <-; apply Hnone);
    (destruct (negb (min_clock qm =? 0) && (lowest >? move_clock)) eqn:Hstop;
     [ injection Hrun as <- <- <-; apply Hnone | ]);
    apply find_lowest_head in Hf as (-> & (sc & rest & Hi & Hq) & _);
    assert (Hqm : (exists sc0, In sc0 scs0 /\ In qm (msg_queue sc0))
                  /\ (min_clock qm <> 0 -> req_clock qm <= move_clock))
      by (split;
          [ apply (Hfrom i sc qm Hi); rewrite Hq; now left
          | intros Hnz; apply andb_false_iff in Hstop as [Hs | Hs];
            [ apply negb_false_iff, Z.eqb_eq in Hs; contradiction
            | rewrite Z.gtb_ltb in Hs; apply Z.ltb_ge in Hs; exact Hs ] ]).
  - injection Hrun as <- <- <-.
    exists [qm]. eexists. split; [ reflexivity | ].
    split; [ repeat constructor | repeat constructor; apply Hqm ].
  - apply IH in Hrun as (originals & batch & -> & H2 & Hall).
    + exists (qm :: originals). eexists.
      split; [ rewrite <- app_assoc; reflexivity | ].
      split; [ constructor; [ split; reflexivity | exact H2 ] | ].
      constructor; [ exact Hqm | exact Hall ].
    + intros j sc1 m Hj Hin.
      destruct (pop_msg_elements _ _ _ _ _ Hj Hin) as (sc0 & Hj0 & Hin0).
      eapply Hfrom; eassumption.
Qed.

(** X18: [steppersync_flush] sends no step command early: every message
    of the batch is one that was queued after the steppers were flushed,
    and if it uses the move queue (min_clock not 0) its req_clock is at
    most move_clock. *)
Theorem steppersync_flush_holds_back_moves
    (ss ss' : steppersync) (batch : list queue_message) :
  steppersync_flush MAX_CLOCK ss move_clock = Ok (ss', batch) ->
  exists (scs : list stepcompress) (originals : list queue_message),
    flush_all (sc_list ss) move_clock = Ok scs
    /\ Forall2 batched_from originals batch
    /\ Forall (fun o =>
                 (exists sc, In sc scs /\ In o (msg_queue sc))
                 /\ (min_clock o <> 0 -> req_clock o <= move_clock))
         originals.
Proof.
  unfold steppersync_flush. intros Hrun.
  destruct (flush_all (sc_list ss) move_clock) as [scs |];
    cbn [bind] in Hrun; [ | discriminate ].
  destruct (order_loop _ MAX_CLOCK move_clock scs (move_clocks ss) [])
    as [[scs' mc'] out] eqn:Hloop.
  injection Hrun as <- <-. exists scs.
  apply (order_loop_due _ scs) in Hloop
    as (originals & batch & -> & H2 & Hall).
  - exists originals. auto.
  - intros j sc m Hj Hin. exists sc. split; [ | exact Hin ].
    apply list_elem_of_In. eapply list_elem_of_lookup_2. exact Hj.
Qed.

End Synchroniser.

(** ** The number of steps of a move *)

Section MoveCount.

Variable sc : stepcompress.

Lemma u32_u64 (x : Z) : u32 (u64 x) = u32 x.
Proof.
  unfold u32, u64, wrap.
  apply Z.mod_mod_divide. exists (2 ^ 32). reflexivity.
Qed.

Lemma s32_u32 (x : Z) : s32 (u32 x) = s32 x.
Proof.
  unfold s32, u32, swrap, wrap. change (2 ^ (32 - 1)) with (2 ^ 31).
  now rewrite Zplus_mod_idemp_l.
Qed.

(** [add_range_update] reads the low 32 bits of the clock and of the
    interval of the queue reference, and its two cursors. *)
Lemma add_range_update_ext (ar : add_range) (qr qr' : queue_ref) :
  qr_queue_pos qr' = qr_queue_pos qr ->
  qr_queue_end qr' = qr_queue_end qr ->
  u32 (qr_last_step_clock qr') = u32 (qr_last_step_clock qr) ->
  s32 (qr_last_interval qr') = s32 (qr_last_interval qr) ->
  add_range_update sc ar qr' = add_range_update sc ar qr.
Proof.
  intros Hp He Hc Hi. unfold add_range_update, minmax_point.
  now rewrite Hp, He, Hc, Hi.
Qed.

Lemma add_range_scan_loop_ext (qr qr' : queue_ref) (fuel : nat) :
  qr_queue_pos qr' = qr_queue_pos qr ->
  qr_queue_end qr' = qr_queue_end qr ->
  u32 (qr_last_step_clock qr') = u32 (qr_last_step_clock qr) ->
  s32 (qr_last_interval qr') = s32 (qr_last_interval qr) ->
  forall ar : add_range,
    add_range_scan_loop fuel sc ar qr' = add_range_scan_loop fuel sc ar qr.
Proof.
  intros Hp He Hc Hi. induction fuel as [| fuel IH]; intros ar;
    cbn [add_range_scan_loop];
    rewrite (add_range_update_ext ar qr qr' Hp He Hc Hi);
    destruct (add_range_update sc ar qr); auto.
Qed.

(** A move of no steps leaves the scan where it was. *)
Lemma add_range_scan_after_no_move (qr : queue_ref) (am : add_move_s) :
  am_count am = 0 ->
  add_range_scan sc (qr_after_move sc qr am) = add_range_scan sc qr.
Proof.
  intros Hz. unfold add_range_scan, cells_left.
  cbn [qr_after_move qr_queue_pos qr_queue_end]. rewrite Hz, Z.add_0_r.
  apply add_range_scan_loop_ext;
    cbn [qr_after_move qr_queue_pos qr_queue_end qr_last_step_clock
         qr_last_interval]; rewrite ?Hz; try lia.
  - change (tri_up 0) with 0. rewrite Z.mul_0_r, Z.mul_0_l.
    change (u32 (0 + 0)) with 0. now rewrite Z.add_0_r, u32_u64.
  - rewrite Z.mul_0_l, Z.add_0_r. apply s32_u32.
Qed.

(** The search of [compress_leastsquares] returns a candidate of at least
    one step: a candidate of no steps reaches no further than the first
    scan did, and is not taken. *)
Lemma compress_leastsquares_loop_count (qr : queue_ref) (fuel : nat) :
  0 <= qr_queue_end qr - qr_queue_pos qr < 2 ^ 30 ->
  forall (prev next : add_move_s) (prev_totalcount : Z),
    1 <= am_count prev <= qr_queue_end qr - qr_queue_pos qr ->
    0 <= am_count next <= qr_queue_end qr - qr_queue_pos qr ->
    (am_count next = 0 ->
     ar_count (add_range_scan sc qr) <= prev_totalcount) ->
    ar_count (add_range_scan sc qr) <= prev_totalcount
    \/ ar_count (add_range_scan sc qr) <= am_count next ->
    qr_queue_end qr - qr_queue_pos qr - prev_totalcount <= Z.of_nat fuel ->
    1 <= am_count
           (compress_leastsquares_loop fuel sc qr prev next prev_totalcount)
      <= qr_queue_end qr - qr_queue_pos qr.
Proof.
  intros Hcells. induction fuel as [| fuel IH];
    intros prev next ptc Hprev Hnext Hzero Hbase Hfuel;
    cbn [compress_leastsquares_loop];
    destruct (reach_bound sc qr next Hcells Hnext) as [-> Hreach];
    pose proof (add_range_scan_count sc (qr_after_move sc qr next)) as Hscan;
    cbn [qr_after_move qr_queue_end qr_queue_pos] in Hscan;
    specialize (Hscan ltac:(lia));
    destruct (Z.geb_spec ptc
                (am_count next
                 + ar_count (add_range_scan sc (qr_after_move sc qr next))))
      as [Hge | Hlt];
    try exact Hprev; [ lia | ].
  assert (Hnext1 : 1 <= am_count next).
  { destruct (Z.eq_dec (am_count next) 0) as [Hz | Hnz]; [ | lia ].
    rewrite (add_range_scan_after_no_move qr next Hz) in Hlt.
    specialize (Hzero Hz). lia. }
  pose proof (calc_leastsquares_count sc qr
                (am_count next
                 + ar_count (add_range_scan sc (qr_after_move sc qr next)))
                ltac:(lia)) as Hcalc.
  apply IH; lia.
Qed.

Lemma compress_leastsquares_count (qr : queue_ref) :
  1 <= qr_queue_end qr - qr_queue_pos qr < 2 ^ 30 ->
  1 <= am_count (compress_leastsquares sc qr)
    <= qr_queue_end qr - qr_queue_pos qr.
Proof.
  intros Hcells. unfold compress_leastsquares.
  pose proof (add_range_scan_count sc qr ltac:(lia)) as Hscan.
  destruct (Z.eqb_spec (ar_count (add_range_scan sc qr)) 0) as [Hz | Hnz].
  - cbn [am_count]. lia.
  - apply compress_leastsquares_loop_count; cbn [am_count]; try lia.
    unfold cells_left. lia.
Qed.

(** A move covers at least one queued step and no more than are queued,
    nor more than the 46000 the compressor looks at. *)
Lemma wrap_compress_count_bounds :
  queue_pos sc < queue_next sc ->
  1 <= count (wrap_compress sc)
    <= Z.min (queue_next sc - queue_pos sc) 46000.
Proof.
  intros Hpos. unfold wrap_compress.
  set (qr := qr_init sc 46000).
  assert (Hcells : 1 <= qr_queue_end qr - qr_queue_pos qr
                   /\ qr_queue_end qr - qr_queue_pos qr
                      = Z.min (queue_next sc - queue_pos sc) 46000).
  { subst qr. cbn [qr_init qr_queue_end qr_queue_pos].
    destruct (Z.gtb_spec (queue_next sc) (queue_pos sc + 46000)); lia. }
  destruct Hcells as [Hc1 Hc].
  pose proof (compress_leastsquares_count qr ltac:(lia)) as H1.
  set (am1 := compress_leastsquares sc qr) in *.
  assert (Hsingle : 1 <= u16 (am_count am1)
                      <= Z.min (queue_next sc - queue_pos sc) 46000)
    by (unfold u16, wrap; rewrite Z.mod_small; lia).
  destruct (Z.eqb_spec (am_count am1) 1) as [Hone | _]; cbn [andb];
    [ | exact Hsingle ].
  destruct (Z.ltb_spec (qr_queue_pos qr + 1) (qr_queue_end qr)) as [Htwo | _];
    [ | exact Hsingle ].
  destruct (_ && _); [ | exact Hsingle ].
  cbn [count].
  pose proof (compress_leastsquares_count (qr_after_move sc qr am1)) as H2.
  cbn [qr_after_move qr_queue_end qr_queue_pos] in H2. rewrite Hone in H2.
  specialize (H2 ltac:(lia)).
  unfold u16, wrap. rewrite Z.mod_small; lia.
Qed.

End MoveCount.

Section StepAccounting.

(** X19: a move of [wrap_compress] covers at least one queued step, and
    no more steps than are queued nor more than 46000. *)
Theorem wrap_compress_count_within_queue (sc : stepcompress) :
  queue_pos sc < queue_next sc ->
  1 <= count (wrap_compress sc)
    <= Z.min (queue_next sc - queue_pos sc) 46000.
Proof. apply wrap_compress_count_bounds. Qed.

Lemma s64_add_l (a b : Z) : s64 (s64 a + b) = s64 (a + b).
Proof.
  unfold s64, swrap. change (2 ^ (64 - 1)) with (2 ^ 63).
  f_equal.
  replace ((a + 2 ^ 63) mod 2 ^ 64 - 2 ^ 63 + b + 2 ^ 63)
    with ((a + 2 ^ 63) mod 2 ^ 64 + b) by lia.
  rewrite Zplus_mod_idemp_l. f_equal. lia.
Qed.

(** The direction the positions move in: down for sdir 0, up otherwise
    (also for the unknown direction -1). *)
Lemma queue_flush_pass_position (sc sc' : stepcompress) (brk : bool) :
  queue_flush_pass sc = Ok (sc', brk) ->
  queue_pos sc < queue_next sc ->
  last_position sc'
  = s64 (last_position sc
         + (if sdir sc =? 0 then -1 else 1) * (in_use sc - in_use sc'))
  /\ 0 <= in_use sc' < in_use sc
  /\ queue_pos sc' <= queue_next sc'
  /\ sdir sc' = sdir sc.
Proof.
  intros Hpass Hpos.
  pose proof (wrap_compress_count_bounds sc Hpos) as Hcount.
  unfold queue_flush_pass in Hpass.
  destruct (check_line sc (wrap_compress sc)) as [[] | e]; cbn [bind] in Hpass;
    [ | discriminate ].
  unfold in_use.
  match type of Hpass with
  | (if ?b then _ else _) = _ => destruct b eqn:Hcmp
  end; injection Hpass as <- <-; cbn in Hcmp |- *.
  - apply Z.geb_le in Hcmp.
    replace (queue_next sc - queue_pos sc - (0 - 0))
      with (count (wrap_compress sc)) by lia.
    split; [ | lia ]. f_equal. destruct (sdir sc =? 0); lia.
  - rewrite Z.geb_leb in Hcmp. apply Z.leb_gt in Hcmp.
    replace (queue_next sc - queue_pos sc
             - (queue_next sc - (queue_pos sc + count (wrap_compress sc))))
      with (count (wrap_compress sc)) by lia.
    split; [ | lia ]. f_equal. destruct (sdir sc =? 0); lia.
Qed.

Lemma queue_flush_loop_position (move_clock : Z) (fuel : nat) :
  forall sc sc' : stepcompress,
    queue_flush_loop fuel sc move_clock = Ok sc' ->
    queue_pos sc < queue_next sc ->
    - 2 ^ 63 <= last_position sc < 2 ^ 63 ->
    last_position sc'
    = s64 (last_position sc
           + (if sdir sc =? 0 then -1 else 1) * (in_use sc - in_use sc'))
    /\ 0 <= in_use sc' <= in_use sc.
Proof.
  induction fuel as [| fuel IH]; intros sc sc' Hrun Hpos Htyped;
    cbn [queue_flush_loop] in Hrun;
    (destruct (last_step_clock sc <? move_clock);
     [ | injection Hrun as <-; rewrite Z.sub_diag, Z.mul_0_r, Z.add_0_r;
         split; [ now rewrite s64_small | unfold in_use; lia ] ]);
    destruct (queue_flush_pass sc) as [[sc1 brk] | e] eqn:Hpass;
    cbn [bind] in Hrun; try discriminate;
    pose proof Hpass as Hcur;
    apply queue_flush_pass_cursors in Hcur as (_ & _ & _ & _ & _ & Hcur);
    apply queue_flush_pass_position in Hpass as (Hp1 & Hu1 & Ho1 & Hs1);
    try exact Hpos;
    destruct brk; try (injection Hrun as <-; split; [ exact Hp1 | lia ]).
  destruct Hcur as (_ & _ & Hlt).
  apply IH in Hrun as (Hp2 & Hu2); [ | exact Hlt | ].
  - split; [ | lia ]. rewrite Hp2, Hp1, Hs1, s64_add_l. f_equal.
    destruct (sdir sc =? 0); lia.
  - rewrite Hp1. unfold s64, swrap. change (2 ^ (64 - 1)) with (2 ^ 63).
    match goal with
    | |- _ <= ?x mod _ - _ < _ =>
        pose proof (Z.mod_pos_bound x (2 ^ 64) ltac:(lia))
    end.
    match goal with
    | H : 0 <= ?y mod 2 ^ 64 < _ |- _ <= ?x mod _ - _ < _ =>
        change x with y
    end. lia.
Qed.

(** X20: [queue_flush] accounts for every step it takes off the queue:
    last_position moves by the number of steps consumed, down when sdir is
    0 and up otherwise, wrapping as an int64_t does. *)
Theorem queue_flush_counts_every_step
    (sc sc' : stepcompress) (move_clock : Z) :
  queue_flush sc move_clock = Ok sc' ->
  queue_pos sc <= queue_next sc ->
  - 2 ^ 63 <= last_position sc < 2 ^ 63 ->
  last_position sc'
  = s64 (last_position sc
         + (if sdir sc =? 0 then -1 else 1) * (in_use sc - in_use sc'))
  /\ 0 <= in_use sc' <= in_use sc.
Proof.
  unfold queue_flush. intros Hrun Hpos Htyped.
  destruct (Z.geb_spec (queue_pos sc) (queue_next sc)).
  - injection Hrun as <-. rewrite Z.sub_diag, Z.mul_0_r, Z.add_0_r.
    split; [ now rewrite s64_small | unfold in_use; lia ].
  - destruct (queue_flush_loop _ sc move_clock) as [sc1 | e] eqn:Hloop;
      cbn [bind] in Hrun; [ | discriminate ].
    injection Hrun as <-.
    apply queue_flush_loop_position in Hloop; try assumption; lia.
Qed.

End StepAccounting.

(** ** The range of adds and the reach of a schedule *)

Section AddRange.

Lemma tri_up_exact (n : Z) :
  0 <= n <= 46340 -> tri_up n = n * (n + 1) / 2.
Proof.
  intros Hn. unfold tri_up, sdiv32.
  assert (0 <= n * (n + 1) < 2 ^ 31) by nia.
  rewrite (s32_small (n * (n + 1))) by lia.
  rewrite Z.quot_div_nonneg by lia.
  apply s32_small.
  pose proof (Z.div_pos (n * (n + 1)) 2 ltac:(lia) ltac:(lia)).
  assert (n * (n + 1) / 2 <= n * (n + 1))
    by (apply Z.div_le_upper_bound; lia).
  lia.
Qed.

(** [idiv_up n d] is the least [a] with [n <= a * d], and [idiv_down n d]
    the greatest with [a * d <= n]. *)
Lemma idiv_up_le (n d a : Z) :
  0 < d < 2 ^ 30 -> - 2 ^ 30 <= n <= 2 ^ 30 ->
  idiv_up n d <= a <-> n <= a * d.
Proof.
  intros Hd Hn. unfold idiv_up, DIV_ROUND_UP, sdiv32.
  destruct (Z.geb_spec n 0) as [Hpos | Hneg].
  - rewrite (s32_small (n + d)) by lia.
    rewrite (s32_small (n + d - 1)) by lia.
    rewrite Z.quot_div_nonneg by lia.
    pose proof (Z.div_mod (n + d - 1) d ltac:(lia)) as Hdm.
    pose proof (Z.mod_pos_bound (n + d - 1) d ltac:(lia)) as Hr.
    set (q := (n + d - 1) / d) in *.
    assert (0 <= q <= n + d - 1) by nia.
    rewrite s32_small by lia. split; intros; nia.
  - pose proof (Z.quot_rem' n d) as Hqr.
    pose proof (Z.rem_bound_pos_neg n d ltac:(lia) ltac:(lia)) as Hr.
    set (q := Z.quot n d) in *.
    assert (- 2 ^ 30 <= q <= 0) by nia.
    rewrite s32_small by lia. split; intros; nia.
Qed.

Lemma idiv_down_ge (n d a : Z) :
  0 < d < 2 ^ 30 -> - 2 ^ 30 <= n <= 2 ^ 30 ->
  a <= idiv_down n d <-> a * d <= n.
Proof.
  intros Hd Hn. unfold idiv_down, sdiv32.
  destruct (Z.geb_spec n 0) as [Hpos | Hneg].
  - rewrite Z.quot_div_nonneg by lia.
    pose proof (Z.div_mod n d ltac:(lia)) as Hdm.
    pose proof (Z.mod_pos_bound n d ltac:(lia)) as Hr.
    set (q := n / d) in *.
    assert (0 <= q <= n) by nia.
    rewrite s32_small by lia. split; intros; nia.
  - rewrite (s32_small (n - d)) by lia.
    rewrite (s32_small (n - d + 1)) by lia.
    pose proof (Z.quot_rem' (n - d + 1) d) as Hqr.
    pose proof (Z.rem_bound_pos_neg (n - d + 1) d ltac:(lia) ltac:(lia))
      as Hr.
    set (q := Z.quot (n - d + 1) d) in *.
    assert (- 2 ^ 31 < q <= 0) by nia.
    rewrite s32_small by lia. split; intros; nia.
Qed.

(** X21: as long as its sums stay within int32_t, [add_range_update]
    narrows the range of adds to exactly the adds of the range that put
    the next step in its window, and refuses the step when there is none. *)
Theorem add_range_update_exact
    (sc : stepcompress) (ar : add_range) (qr : queue_ref) :
  let n := ar_count ar + 1 in
  let f := n * (n + 1) / 2 in
  let i := s32 (qr_last_interval qr) in
  let p := minmax_point sc qr (qr_queue_pos qr + ar_count ar) in
  0 <= ar_count ar < 46000 ->
  qr_queue_pos qr + ar_count ar < qr_queue_end qr ->
  - 2 ^ 31 <= i * n + ar_minadd ar * f < 2 ^ 31 ->
  - 2 ^ 31 <= i * n + ar_maxadd ar * f < 2 ^ 31 ->
  - 2 ^ 30 <= minp p - i * n <= 2 ^ 30 ->
  - 2 ^ 30 <= maxp p - i * n <= 2 ^ 30 ->
  match add_range_update sc ar qr with
  | Some ar' =>
      ar_count ar' = n
      /\ forall a : Z,
           ar_minadd ar' <= a <= ar_maxadd ar'
           <-> ar_minadd ar <= a <= ar_maxadd ar
               /\ minp p <= i * n + a * f <= maxp p
  | None =>
      forall a : Z,
        ar_minadd ar <= a <= ar_maxadd ar ->
        ~ (minp p <= i * n + a * f <= maxp p)
  end.
Proof.
  intros n f i p Hcount Hcell Hlo Hhi Hmin Hmax.
  unfold add_range_update.
  destruct (Z.geb_spec (qr_queue_pos qr + ar_count ar) (qr_queue_end qr));
    [ lia | ].
  fold p. rewrite (s32_small (ar_count ar + 1)) by lia. fold n.
  rewrite (tri_up_exact n) by lia. fold f. fold i.
  assert (Hf : 0 < f < 2 ^ 30).
  { subst f. assert (1 <= n <= 46000) by lia.
    split.
    - apply Z.div_str_pos. nia.
    - apply Z.div_lt_upper_bound; nia. }
  rewrite (s32_small (i * n + ar_minadd ar * f)) by lia.
  rewrite (s32_small (i * n + ar_maxadd ar * f)) by lia.
  rewrite (s32_small (minp p - i * n)) by lia.
  rewrite (s32_small (maxp p - i * n)) by lia.
  set (lo := if i * n + ar_minadd ar * f <? minp p
             then idiv_up (minp p - i * n) f else ar_minadd ar).
  set (hi := if i * n + ar_maxadd ar * f >? maxp p
             then idiv_down (maxp p - i * n) f else ar_maxadd ar).
  assert (Hlo' : forall a, lo <= a <-> ar_minadd ar <= a /\ minp p <= i * n + a * f).
  { intros a. subst lo.
    destruct (Z.ltb_spec (i * n + ar_minadd ar * f) (minp p)).
    - rewrite (idiv_up_le _ _ a Hf Hmin). split; intros; [ split | ]; nia.
    - split; intros; [ split | ]; nia. }
  assert (Hhi' : forall a, a <= hi <-> a <= ar_maxadd ar /\ i * n + a * f <= maxp p).
  { intros a. subst hi.
    destruct (Z.gtb_spec (i * n + ar_maxadd ar * f) (maxp p)).
    - rewrite (idiv_down_ge _ _ a Hf Hmax). split; intros; [ split | ]; nia.
    - split; intros; [ split | ]; nia. }
  destruct (Z.gtb_spec lo hi) as [Hempty | Hsome].
  - intros a Ha Hwin.
    assert (lo <= a) by (apply Hlo'; lia).
    assert (a <= hi) by (apply Hhi'; lia). lia.
  - cbn [ar_count ar_minadd ar_maxadd]. split; [ reflexivity | ].
    intros a. specialize (Hlo' a). specialize (Hhi' a). tauto.
Qed.

End AddRange.

Section TwoRamps.

Lemma s32_congr (x y k : Z) : x = y + k * 2 ^ 32 -> s32 x = s32 y.
Proof.
  intros ->. unfold s32, swrap.
  replace (y + k * 2 ^ 32 + 2 ^ (32 - 1))
    with (y + 2 ^ (32 - 1) + k * 2 ^ 32) by lia.
  now rewrite Z.mod_add by lia.
Qed.

Lemma s32_mod (x : Z) : exists k, s32 x = x + k * 2 ^ 32.
Proof.
  unfold s32, swrap. change (2 ^ (32 - 1)) with (2 ^ 31).
  exists (- ((x + 2 ^ 31) / 2 ^ 32)).
  pose proof (Z.div_mod (x + 2 ^ 31) (2 ^ 32) ltac:(lia)). lia.
Qed.

Lemma tri_down_exact_small (n : Z) :
  0 <= n <= 46340 -> tri_down n = n * (n - 1) / 2.
Proof.
  intros Hn. unfold tri_down, sdiv32.
  assert (0 <= n * (n - 1) < 2 ^ 31) by nia.
  rewrite (s32_small (n * (n - 1))) by lia.
  rewrite Z.quot_div_nonneg by lia.
  apply s32_small.
  pose proof (Z.div_pos (n * (n - 1)) 2 ltac:(lia) ltac:(lia)).
  assert (n * (n - 1) / 2 <= n * (n - 1))
    by (apply Z.div_le_upper_bound; lia).
  lia.
Qed.

Lemma twice_half_consecutive (n : Z) : 2 * (n * (n + 1) / 2) = n * (n + 1).
Proof.
  assert (Hev : (n * (n + 1)) mod 2 = 0).
  { rewrite Z.mul_mod by lia.
    destruct (Z.mod_pos_bound n 2 ltac:(lia)) as [? ?].
    assert (Hc : n mod 2 = 0 \/ n mod 2 = 1) by lia.
    rewrite Z.add_mod by lia.
    destruct Hc as [-> | ->]; reflexivity. }
  pose proof (Z.div_mod (n * (n + 1)) 2 ltac:(lia)). lia.
Qed.

(** The sum of the intervals in closed form. *)
Lemma two_ramp_clock_closed (i add1 add2 c1 : Z) (n : nat) :
  0 <= c1 ->
  2 * two_ramp_clock i add1 add2 c1 n
  = if Z.of_nat n <=? c1
    then 2 * i * Z.of_nat n + add1 * (Z.of_nat n * (Z.of_nat n + 1))
    else 2 * i * Z.of_nat n
         + add1 * (2 * c1 * Z.of_nat n - c1 * (c1 - 1))
         + add2 * ((Z.of_nat n - c1) * (Z.of_nat n - c1 + 1)).
Proof.
  intros Hc1. induction n as [| n IH].
  - cbn [two_ramp_clock]. destruct (Z.leb_spec (Z.of_nat 0) c1); cbn; lia.
  - cbn [two_ramp_clock]. unfold two_ramp_interval.
    rewrite Z.mul_add_distr_l, IH. rewrite Nat2Z.inj_succ.
    destruct (Z.leb_spec (Z.of_nat n) c1);
      destruct (Z.leb_spec (Z.succ (Z.of_nat n)) c1); try lia.
    assert (c1 = Z.of_nat n) by lia. subst c1. lia.
Qed.

(** X22: [calc_seq] is the clock of the last of [tc] steps scheduled as
    [c1] steps with add1 followed by steps with add2, reduced to an
    int32_t; the two products of consecutive counts it halves do not
    overflow for the counts the compressor uses. *)
Theorem calc_seq_is_two_ramp_clock
    (qr : queue_ref) (add1 add2 c1 tc : Z) :
  0 <= c1 <= tc -> tc <= 46340 ->
  calc_seq qr add1 add2 c1 tc
  = s32 (two_ramp_clock (qr_last_interval qr) add1 add2 c1 (Z.to_nat tc)).
Proof.
  intros Hc Htc. unfold calc_seq.
  rewrite (tri_up_exact tc) by lia.
  rewrite (tri_down_exact_small c1) by lia.
  pose proof (two_ramp_clock_closed (qr_last_interval qr) add1 add2 c1
                (Z.to_nat tc) ltac:(lia)) as Hclosed.
  rewrite Z2Nat.id in Hclosed by lia.
  destruct (s32_mod (add1 - add2)) as [k Hk]. rewrite Hk.
  pose proof (twice_half_consecutive tc) as Htri.
  pose proof (twice_half_consecutive (c1 - 1)) as Htri1.
  replace (c1 - 1 + 1) with c1 in Htri1 by lia.
  replace ((c1 - 1) * c1) with (c1 * (c1 - 1)) in Htri1 by lia.
  set (T := tc * (tc + 1) / 2) in *.
  set (U := c1 * (c1 - 1) / 2) in *.
  set (S := two_ramp_clock _ _ _ _ _) in *.
  apply s32_congr with (k := k * (c1 * tc - U)).
  destruct (Z.leb_spec tc c1).
  - assert (c1 = tc) by lia. subst c1. nia.
  - nia.
Qed.

End TwoRamps.

(** ** The cells of the step queue *)

Section QueueCells.

Lemma take_drop_insert_end (l : list Z) (p n : nat) (v : Z) :
  (p + n < length l)%nat ->
  take (S n) (drop p (<[(p + n)%nat := v]> l)) = take n (drop p l) ++ [v].
Proof.
  intros Hlen. rewrite drop_insert_ge by lia.
  replace (p + n - p)%nat with n by lia.
  rewrite (take_S_r _ n v).
  - now rewrite take_insert_ge by lia.
  - apply list_lookup_insert_eq. rewrite length_drop. lia.
Qed.

(** The doubling ends above the cells in use. *)
Lemma grow_alloc_above (in_use0 : Z) (fuel : nat) :
  forall alloc : Z,
    1 <= alloc < 2 ^ 31 -> in_use0 < 2 ^ 30 ->
    in_use0 < alloc * 2 ^ Z.of_nat fuel ->
    alloc <= grow_alloc fuel in_use0 alloc < 2 ^ 31
    /\ in_use0 < grow_alloc fuel in_use0 alloc.
Proof.
  induction fuel as [| fuel IH]; intros alloc Halloc Huse Hfuel.
  - cbn in *. lia.
  - cbn [grow_alloc].
    destruct (Z.geb_spec in_use0 alloc) as [Hge | Hlt]; [ | lia ].
    rewrite s32_small by lia.
    rewrite Nat2Z.inj_succ, Z.pow_succ_r in Hfuel by lia.
    destruct (IH (alloc * 2) ltac:(lia) Huse ltac:(lia)). lia.
Qed.

(** X23: a step stored by [queue_append] goes behind the queued steps,
    which stay as they are and in their order whether the cells are moved
    to the front of the block or the block is grown for it; the cursors
    stay inside the block. *)
Theorem queue_append_keeps_queued_steps (sc : stepcompress) :
  next_step_dir sc = sdir sc ->
  next_step_clock sc < u64 (last_step_clock sc + CLOCK_DIFF_MAX) ->
  0 <= queue_pos sc <= queue_next sc ->
  queue_next sc <= queue_end sc -> queue_end sc < 2 ^ 30 ->
  queue_next sc < queue_end sc \/ in_use sc <= 65535 + 2000 ->
  exists sc',
    queue_append sc = Ok sc'
    /\ queued_steps sc' = queued_steps sc ++ [u32 (next_step_clock sc)]
    /\ 0 <= queue_pos sc' <= queue_next sc'
    /\ queue_next sc' <= queue_end sc' < 2 ^ 31
    /\ queue_end sc <= queue_end sc'.
Proof.
  intros Hdir Hnear Hpos Hend Hsmall Hroom. unfold queue_append.
  rewrite (proj2 (Z.eqb_eq _ _) Hdir). cbn [bind].
  destruct (Z.geb_spec (next_step_clock sc)
              (u64 (last_step_clock sc + CLOCK_DIFF_MAX))); [ lia | ].
  unfold queue_end in *.
  destruct (Z.geb_spec (queue_next sc) (Z.of_nat (length (queue sc))))
    as [Hfull | Hfree].
  - (* the block is full *)
    destruct Hroom as [Hroom | Hroom]; [ lia | ].
    unfold queue_append_extend, in_use in *.
    destruct (Z.gtb_spec (queue_next sc - queue_pos sc) (65535 + 2000));
      [ lia | ].
    cbn [bind]. unfold queue_end.
    destruct (Z.geb_spec (queue_next sc) (Z.of_nat (length (queue sc))));
      [ | lia ].
    rewrite (s32_small (queue_next sc - queue_pos sc)) by lia.
    assert (Hn : queue_next sc = Z.of_nat (length (queue sc))) by lia.
    destruct (Z.gtb_spec (queue_pos sc) 0) as [Hshift | Hzero].
    + (* the queued cells move to the front *)
      eexists. split; [ reflexivity | ].
      set (n := Z.to_nat (queue_next sc - queue_pos sc)).
      set (p := Z.to_nat (queue_pos sc)).
      set (moved := take n (drop p (queue sc))).
      assert (Hmoved : length moved = n)
        by (subst moved; rewrite length_take, length_drop; lia).
      unfold queued_steps, poke.
      cbn [with_next_step with_queue queue queue_pos queue_next
           next_step_clock].
      destruct (Z.ltb_spec (queue_next sc - queue_pos sc) 0); [ lia | ].
      fold n. rewrite length_insert, length_app, Hmoved, length_drop.
      split; [ | lia ].
      replace (Z.to_nat (queue_next sc - queue_pos sc + 1 - 0)) with (S n)
        by lia.
      change (Z.to_nat 0) with 0%nat. rewrite drop_0.
      fold p. fold moved.
      rewrite (take_S_r _ n (u32 (next_step_clock sc))).
      * rewrite take_insert_ge by lia.
        now rewrite take_app_length' by (symmetry; exact Hmoved).
      * apply list_lookup_insert_eq.
        rewrite length_app, Hmoved, length_drop. lia.
    + (* the block grows *)
      assert (Hp : queue_pos sc = 0) by lia.
      set (alloc0 := if s32 (Z.of_nat (length (queue sc))) =? 0
                     then QUEUE_START_SIZE
                     else s32 (Z.of_nat (length (queue sc)))).
      assert (Halloc0 : 1 <= alloc0 < 2 ^ 30
                        /\ Z.of_nat (length (queue sc)) <= alloc0).
      { subst alloc0. rewrite s32_small by lia.
        destruct (Z.eqb_spec (Z.of_nat (length (queue sc))) 0);
          unfold QUEUE_START_SIZE; lia. }
      destruct Halloc0 as [Ha0 Hlen0].
      pose proof (grow_alloc_above (queue_next sc - queue_pos sc) 32 alloc0
                    ltac:(lia) ltac:(lia)) as Hgrow.
      assert (Hpow : queue_next sc - queue_pos sc
                     < alloc0 * 2 ^ Z.of_nat 32).
      { change (2 ^ Z.of_nat 32) with (2 ^ 32). nia. }
      specialize (Hgrow Hpow). destruct Hgrow as [Hg1 Hg2].
      set (alloc := grow_alloc 32 (queue_next sc - queue_pos sc) alloc0) in *.
      eexists. split; [ reflexivity | ].
      unfold queued_steps, poke.
      cbn [with_next_step with_queue queue queue_pos queue_next
           next_step_clock].
      destruct (Z.ltb_spec (queue_next sc - queue_pos sc) 0); [ lia | ].
      rewrite length_insert, length_app, length_replicate.
      split; [ | lia ].
      rewrite Hp, Z.sub_0_r, Hn. change (Z.to_nat 0) with 0%nat.
      rewrite !drop_0.
      replace (Z.to_nat (Z.of_nat (length (queue sc)) - 0 + 1))
        with (S (length (queue sc))) by lia.
      replace (Z.to_nat (Z.of_nat (length (queue sc)) - 0))
        with (length (queue sc)) by lia.
      rewrite (take_S_r _ _ (u32 (next_step_clock sc))).
      * rewrite take_insert_ge by lia.
        rewrite take_app_length. now rewrite take_ge by lia.
      * apply list_lookup_insert_eq.
        rewrite length_app, length_replicate. lia.
  - (* there is room *)
    eexists. split; [ reflexivity | ].
    unfold queued_steps, poke.
    cbn [with_next_step with_queue queue queue_pos queue_next
         next_step_clock].
    destruct (Z.ltb_spec (queue_next sc) 0); [ lia | ].
    rewrite length_insert. split; [ | lia ].
    replace (Z.to_nat (queue_next sc + 1 - queue_pos sc))
      with (S (Z.to_nat (queue_next sc - queue_pos sc))) by lia.
    replace (Z.to_nat (queue_next sc))
      with (Z.to_nat (queue_pos sc)
            + Z.to_nat (queue_next sc - queue_pos sc))%nat by lia.
    apply take_drop_insert_end. lia.
Qed.

End QueueCells.

(** ** What [check_line] accepts *)

Section Acceptance.

Variable sc : stepcompress.
Hypothesis max_error_typed : 0 <= max_error sc < 2 ^ 32.

(** The loop of [check_line] accepts a ramp whose every step is inside its
    window and whose every interval is an interval below 2^31. *)
Lemma check_line_loop_complete (move : step_move) :
  forall (n i : nat),
    (forall k : nat,
        (i < k <= i + n)%nat ->
        window_minp sc (Z.of_nat k) <= ramp_clock move k
                                    <= window_maxp sc (Z.of_nat k)
        /\ 0 <= ramp_interval move (Z.of_nat k) < 2 ^ 31) ->
    0 <= ramp_clock move i ->
    steps_ordered sc (Z.of_nat (i + n)) ->
    check_line_loop n sc (qr_init sc 65535) move (Z.of_nat i)
      (u32 (ramp_interval move (Z.of_nat i + 1))) (ramp_clock move i)
    = Ok tt.
Proof.
  induction n as [| n IH]; intros i Hall Hpos Hord; [ reflexivity | ].
  cbn [check_line_loop].
  change (qr_queue_pos (qr_init sc 65535)) with (queue_pos sc).
  assert (Hord1 : rel_clock sc (Z.of_nat i) <= rel_clock sc (Z.of_nat i + 1)).
  { specialize (Hord (Z.of_nat i + 1) ltac:(lia)).
    now replace (Z.of_nat i + 1 - 1) with (Z.of_nat i) in Hord by lia. }
  destruct (minmax_point_window sc max_error_typed i Hord1) as [Hmin Hmax].
  rewrite Hmin, Hmax.
  destruct (Hall (S i) ltac:(lia)) as [Hwin Hint].
  rewrite Nat2Z.inj_succ, <- Z.add_1_r in Hwin, Hint.
  rewrite (u32_small (ramp_interval move (Z.of_nat i + 1))) by lia.
  rewrite ramp_clock_succ in Hwin.
  pose proof (rel_clock_range sc (Z.of_nat i + 1)) as HP.
  unfold window_maxp in Hwin at 1.
  rewrite (u32_small (ramp_clock move i + _)) by lia.
  destruct (Z.ltb_spec (ramp_clock move i
                        + ramp_interval move (Z.of_nat i + 1))
              (window_minp sc (Z.of_nat i + 1))); [ lia | ].
  destruct (Z.gtb_spec (ramp_clock move i
                        + ramp_interval move (Z.of_nat i + 1))
              (window_maxp sc (Z.of_nat i + 1)));
    [ unfold window_maxp in *; lia | ].
  cbn [orb].
  destruct (Z.geb_spec (ramp_interval move (Z.of_nat i + 1)) 0x80000000);
    [ lia | ].
  replace (ramp_interval move (Z.of_nat i + 1) + add move)
    with (ramp_interval move (Z.of_nat (S i) + 1))
    by (unfold ramp_interval; lia).
  rewrite <- ramp_clock_succ.
  replace (Z.of_nat i + 1) with (Z.of_nat (S i)) by lia.
  apply IH.
  - intros k Hk. apply Hall. lia.
  - rewrite ramp_clock_succ. lia.
  - now replace (S i + n)%nat with (i + S n)%nat by lia.
Qed.

(** X24: [check_line] accepts every move that passes verification on
    queued steps in non-decreasing order and whose intervals are not
    negative: together with what it rejects, it accepts exactly the moves
    that keep every step in its window. *)
Theorem check_line_accepts_passing_moves (move : step_move) :
  move_typed move ->
  move_passes sc move ->
  steps_ordered sc (count move) ->
  (forall k : Z, 1 <= k <= count move -> 0 <= ramp_interval move k) ->
  check_line sc move = Ok tt.
Proof.
  intros (Hi & Hc & Ha) (Hc1 & Hi31 & Hnz & Hwin) Hord Hint.
  unfold check_line.
  destruct (Z.eqb_spec (count move) 0); [ lia | ]. cbn [orb].
  assert (Hshape : (interval move =? 0) && (add move =? 0)
                   && (count move >? 1) = false).
  { destruct (Z.eqb_spec (interval move) 0); [ | reflexivity ].
    destruct (Z.eqb_spec (add move) 0); [ | reflexivity ].
    destruct (Z.gtb_spec (count move) 1); [ | reflexivity ].
    exfalso. apply Hnz. repeat split; lia. }
  rewrite Hshape. cbn [orb].
  destruct (Z.geb_spec (interval move) 0x80000000); [ lia | ].
  pose proof (check_line_loop_complete move (Z.to_nat (count move)) 0)
    as Hloop.
  cbn [Nat.add ramp_clock] in Hloop.
  replace (ramp_interval move (Z.of_nat 0 + 1)) with (interval move) in Hloop
    by (unfold ramp_interval; lia).
  rewrite (u32_small (interval move)) in Hloop by lia.
  apply Hloop.
  - intros k Hk. destruct (Hwin k ltac:(lia)) as [Hw Hlt].
    split; [ exact Hw | ]. split; [ apply Hint; lia | exact Hlt ].
  - lia.
  - now rewrite Z2Nat.id by lia.
Qed.

End Acceptance.

(** ** The stepper that is served first *)

Section FirstLowest.

Variable MAX_CLOCK : Z.

Lemma find_lowest_first (scs : list stepcompress) :
  forall (i0 : nat) (lowest0 : Z) (qm0 : option (nat * queue_message))
         (lowest : Z) (i : nat) (qm : queue_message),
    find_lowest scs i0 lowest0 qm0 = (lowest, Some (i, qm)) ->
    (forall i' qm', qm0 = Some (i', qm') ->
       (i' < i0)%nat /\ lowest0 = req_clock qm') ->
    lowest = req_clock qm
    /\ lowest <= lowest0
    /\ ((qm0 = Some (i, qm) /\ lowest = lowest0)
        \/ ((i0 <= i)%nat /\ lowest < lowest0
            /\ exists sc rest,
                 scs !! (i - i0)%nat = Some sc /\ msg_queue sc = qm :: rest))
    /\ forall j sc m rest,
         (i0 + j < i)%nat -> scs !! j = Some sc -> msg_queue sc = m :: rest ->
         req_clock qm < req_clock m.
Proof.
  induction scs as [| sc0 tl IH];
    intros i0 lowest0 qm0 lowest i qm Hrun Hinit; cbn [find_lowest] in Hrun.
  - injection Hrun as <- ->. destruct (Hinit i qm eq_refl) as [Hlt Hreq].
    split; [ exact Hreq | ]. split; [ lia | ]. split; [ left; auto | ].
    intros j sc m rest _ Hj. destruct j; discriminate.
  - destruct (msg_queue sc0) as [| m0 rest0] eqn:Hq0;
      [ | destruct (Z.ltb_spec (req_clock m0) lowest0) as [Hlow | Hhigh] ].
    + (* no head *)
      apply IH in Hrun as (Hreq & Hle & Hwhere & Hbefore).
      * split; [ exact Hreq | ]. split; [ exact Hle | ]. split.
        -- destruct Hwhere as [Hsame | (Hi & Hlt & sc & rest & Hsc & Hq)];
             [ left; exact Hsame | right ].
           split; [ lia | ]. split; [ exact Hlt | ].
           exists sc, rest. split; [ | exact Hq ].
           replace (i - i0)%nat with (S (i - S i0)) by lia. exact Hsc.
        -- intros j sc m rest Hj Hsc Hq. destruct j as [| j].
           ++ cbn in Hsc. injection Hsc as <-. congruence.
           ++ cbn in Hsc. apply (Hbefore j sc m rest); [ lia | | ]; assumption.
      * intros i' qm' Hsome. destruct (Hinit i' qm' Hsome). split; [ lia | auto ].
    + (* a lower head *)
      apply IH in Hrun as (Hreq & Hle & Hwhere & Hbefore).
      * split; [ exact Hreq | ]. split; [ lia | ]. split.
        -- right.
           destruct Hwhere as [[Hsame Heq] | (Hi & Hlt & sc & rest & Hsc & Hq)].
           ++ injection Hsame as <- <-. split; [ lia | ]. split; [ lia | ].
              exists sc0, rest0. rewrite Nat.sub_diag. split; [ reflexivity | exact Hq0 ].
           ++ split; [ lia | ]. split; [ lia | ].
              exists sc, rest. split; [ | exact Hq ].
              replace (i - i0)%nat with (S (i - S i0)) by lia. exact Hsc.
        -- intros j sc m rest Hj Hsc Hq. destruct j as [| j].
           ++ cbn in Hsc. injection Hsc as <-.
              rewrite Hq0 in Hq. injection Hq as <- <-.
              destruct Hwhere as [[Hsame Heq] | (Hi & Hlt & _)].
              ** injection Hsame as <- <-. lia.
              ** lia.
           ++ cbn in Hsc. apply (Hbefore j sc m rest); [ lia | | ]; assumption.
      * intros i' qm' [= <- <-]. split; [ lia | reflexivity ].
    + (* a head that is not lower *)
      apply IH in Hrun as (Hreq & Hle & Hwhere & Hbefore).
      * split; [ exact Hreq | ]. split; [ exact Hle | ]. split.
        -- destruct Hwhere as [Hsame | (Hi & Hlt & sc & rest & Hsc & Hq)];
             [ left; exact Hsame | right ].
           split; [ lia | ]. split; [ exact Hlt | ].
           exists sc, rest. split; [ | exact Hq ].
           replace (i - i0)%nat with (S (i - S i0)) by lia. exact Hsc.
        -- intros j sc m rest Hj Hsc Hq. destruct j as [| j].
           ++ cbn in Hsc. injection Hsc as <-.
              rewrite Hq0 in Hq. injection Hq as <- <-.
              destruct Hwhere as [[Hsame Heq] | (Hi & Hlt & _)].
              ** subst qm0. destruct (Hinit i qm eq_refl). lia.
              ** lia.
           ++ cbn in Hsc. apply (Hbefore j sc m rest); [ lia | | ]; assumption.
      * intros i' qm' Hsome. destruct (Hinit i' qm' Hsome). split; [ lia | auto ].
Qed.

(** X25: of the heads below MAX_CLOCK the scan of [steppersync_flush]
    picks one with the lowest req_clock, and among several the one of the
    stepper that comes first in sc_list. *)
Theorem find_lowest_picks_first_lowest
    (scs : list stepcompress) (lowest : Z) (i : nat) (qm : queue_message) :
  find_lowest scs 0 MAX_CLOCK None = (lowest, Some (i, qm)) ->
  lowest = req_clock qm
  /\ req_clock qm < MAX_CLOCK
  /\ (exists sc rest, scs !! i = Some sc /\ msg_queue sc = qm :: rest)
  /\ (forall j sc m rest,
        scs !! j = Some sc -> msg_queue sc = m :: rest ->
        req_clock qm <= req_clock m)
  /\ (forall j sc m rest,
        (j < i)%nat -> scs !! j = Some sc -> msg_queue sc = m :: rest ->
        req_clock qm < req_clock m).
Proof.
  intros Hrun.
  pose proof (find_lowest_head MAX_CLOCK scs lowest i qm Hrun)
    as (Hreq & Hhead & Hall).
  apply find_lowest_first in Hrun as (_ & _ & Hwhere & Hbefore);
    [ | discriminate ].
  split; [ exact Hreq | ].
  split; [ destruct Hwhere as [[? _] | (_ & ? & _)]; [ discriminate | lia ] | ].
  split; [ exact Hhead | ]. split; [ exact Hall | ].
  intros j sc m rest Hj. now apply Hbefore.
Qed.

End FirstLowest.

(** ** The state the compressor looks ahead to *)

Section LookAhead.

Lemma u64_add_l (a b : Z) : u64 (u64 a + b) = u64 (a + b).
Proof. unfold u64, wrap. now rewrite Zplus_mod_idemp_l. Qed.

(** X26: the state [qr_after_move] looks ahead to is the state
    [add_move] leaves when [queue_flush] emits the move: after [c] steps,
    the first at the last interval plus [a] and each [a] longer than the
    one before, both have the same clock and the same interval of the last
    step, as long as the intervals of the move are not negative and their
    sum is below 2^32. *)
Theorem qr_after_move_matches_add_move
    (sc : stepcompress) (qr : queue_ref) (a c : Z) :
  let i := last_interval sc + a in
  let move := mk_step_move (u32 i) c a in
  let sc' := add_move sc (u64 (last_step_clock sc + interval move)) move in
  let qr' := qr_after_move sc qr (mk_add_move a c) in
  qr_last_step_clock qr = last_step_clock sc ->
  qr_last_interval qr = last_interval sc ->
  1 <= c <= 46000 ->
  0 <= i ->
  0 <= a * (c * (c - 1) / 2) + i * (c - 1) ->
  last_interval sc * c + a * (c * (c + 1) / 2) < 2 ^ 32 ->
  last_step_clock sc' = qr_last_step_clock qr'
  /\ last_interval sc' = qr_last_interval qr'.
Proof.
  intros i move sc' qr' Hclock Hint Hc Hi Hticks Htotal.
  pose proof (twice_half_consecutive c) as Hup.
  pose proof (twice_half_consecutive (c - 1)) as Hdown.
  replace (c - 1 + 1) with c in Hdown by lia.
  replace ((c - 1) * c) with (c * (c - 1)) in Hdown by lia.
  assert (Hsum : i + (a * (c * (c - 1) / 2) + i * (c - 1))
                 = last_interval sc * c + a * (c * (c + 1) / 2))
    by (subst i; nia).
  subst sc' qr' move.
  cbn [add_move qr_after_move last_step_clock last_interval with_history
       with_last_step_clock with_msg_queue with_last_interval
       qr_last_step_clock qr_last_interval interval count add am_add
       am_count].
  rewrite Hclock, Hint, (tri_up_exact c), (tri_down_exact_small c) by lia.
  rewrite (u32_small i) by lia. split.
  - rewrite (u32_small (a * _ + _)) by lia.
    rewrite (u32_small (last_interval sc * c + _)) by lia.
    rewrite u64_add_l. f_equal. lia.
  - f_equal. subst i. lia.
Qed.

End LookAhead.

(** ** The longest schedule and the candidates of the least squares *)

Section Candidates.

Variable sc : stepcompress.

Lemma add_range_update_ordered (ar ar' : add_range) (qr : queue_ref) :
  add_range_update sc ar qr = Some ar' -> ar_minadd ar' <= ar_maxadd ar'.
Proof.
  unfold add_range_update. cbv zeta.
  destruct (_ >=? _); [ discriminate | ].
  match goal with
  | |- (if ?a >? ?b then _ else _) = _ -> _ => destruct (Z.gtb_spec a b)
  end; [ discriminate | ].
  intros [= <-]. cbn [ar_minadd ar_maxadd]. assumption.
Qed.

(** The scan goes through the ranges of 0, 1, 2, ... steps and stops at
    the first step that is refused. *)
Lemma add_range_scan_loop_longest (qr : queue_ref) (fuel : nat) :
  qr_queue_end qr - qr_queue_pos qr < 2 ^ 31 ->
  forall (ar : add_range) (k : nat),
    add_range_after sc qr k = Some ar ->
    ar_count ar = Z.of_nat k ->
    qr_queue_end qr - qr_queue_pos qr - ar_count ar <= Z.of_nat fuel ->
    let r := add_range_scan_loop fuel sc ar qr in
    add_range_after sc qr (Z.to_nat (ar_count r)) = Some r
    /\ add_range_update sc r qr = None.
Proof.
  intros Hcells. induction fuel as [| fuel IH]; intros ar k Hk Hcount Hfuel;
    cbn [add_range_scan_loop];
    destruct (add_range_update sc ar qr) as [ar' |] eqn:Hup;
    try (cbn zeta; rewrite Hcount, Nat2Z.id; auto);
    pose proof Hup as Hsome;
    apply add_range_update_some in Hsome as [Hlt Hc];
    rewrite s32_small in Hc by lia.
  - lia.
  - apply (IH ar' (S k)).
    + cbn [add_range_after]. now rewrite Hk.
    + lia.
    + lia.
Qed.

(** X27: [add_range_scan] returns the range of the longest schedule: the
    range reached by adding the queued steps one by one to the initial
    range, up to the first step that [add_range_update] refuses. *)
Theorem add_range_scan_is_longest (qr : queue_ref) :
  qr_queue_end qr - qr_queue_pos qr < 2 ^ 31 ->
  let r := add_range_scan sc qr in
  add_range_after sc qr (Z.to_nat (ar_count r)) = Some r
  /\ add_range_update sc r qr = None
  /\ 0 <= ar_count r <= Z.max 0 (qr_queue_end qr - qr_queue_pos qr).
Proof.
  intros Hcells r.
  destruct (add_range_scan_loop_longest qr (cells_left qr) Hcells
              add_range_init 0) as [Hafter Hnone];
    try reflexivity.
  - unfold cells_left. cbn [ar_count add_range_init]. lia.
  - split; [ exact Hafter | ]. split; [ exact Hnone | ].
    now apply add_range_scan_count.
Qed.

(** A pass of the least squares keeps its best candidate or takes one of
    the count of the range, with an add inside the range. *)
Lemma lsq_step_candidate (qr : queue_ref) (totalcount : Z) (ar : add_range)
    (st : lsq) :
  ar_minadd ar <= ar_maxadd ar ->
  best (lsq_step sc qr totalcount ar st) = best st
  \/ (am_count (best (lsq_step sc qr totalcount ar st)) = ar_count ar
      /\ ar_minadd ar
         <= am_add (best (lsq_step sc qr totalcount ar st))
         <= ar_maxadd ar).
Proof.
  intros Hord. unfold lsq_step. cbv zeta.
  match goal with
  | |- context [mk_add_move ?c (ar_count ar)] => set (add1 := c)
  end.
  assert (Hadd1 : ar_minadd ar <= add1 <= ar_maxadd ar).
  { subst add1.
    repeat match goal with
           | |- context [if ?a >? ?b then _ else _] =>
               destruct (Z.gtb_spec a b)
           | |- context [if ?a <? ?b then _ else _] =>
               destruct (Z.ltb_spec a b)
           end; lia. }
  clearbody add1.
  repeat match goal with
         | |- context [match ?x with _ => _ end] => destruct x
         end; cbn [best am_count am_add]; auto.
Qed.

Lemma calc_leastsquares_loop_candidate (qr : queue_ref) (totalcount : Z)
    (fuel : nat) :
  qr_queue_end qr - qr_queue_pos qr < 2 ^ 31 ->
  forall (ar : add_range) (st : lsq) (k : nat),
    add_range_after sc qr k = Some ar ->
    ar_count ar = Z.of_nat k ->
    (best st = mk_add_move 0 0
     \/ exists (n : nat) (arn : add_range),
          add_range_after sc qr n = Some arn
          /\ am_count (best st) = Z.of_nat n /\ (1 <= n)%nat
          /\ ar_minadd arn <= am_add (best st) <= ar_maxadd arn) ->
    let am := calc_leastsquares_loop fuel sc qr totalcount ar st in
    am = mk_add_move 0 0
    \/ exists (n : nat) (arn : add_range),
         add_range_after sc qr n = Some arn
         /\ am_count am = Z.of_nat n /\ (1 <= n)%nat
         /\ ar_minadd arn <= am_add am <= ar_maxadd arn.
Proof.
  intros Hcells. induction fuel as [| fuel IH]; intros ar st k Hk Hcount Hbest;
    cbn [calc_leastsquares_loop];
    destruct (add_range_update sc ar qr) as [ar' |] eqn:Hup;
    try exact Hbest;
    pose proof (add_range_update_ordered _ _ _ Hup) as Hord;
    pose proof Hup as Hsome;
    apply add_range_update_some in Hsome as [Hlt Hc];
    rewrite s32_small in Hc by lia;
    assert (Hk' : add_range_after sc qr (S k) = Some ar')
      by (cbn [add_range_after]; now rewrite Hk);
    assert (Hbest' :
      best (lsq_step sc qr totalcount ar' st) = mk_add_move 0 0
      \/ exists (n : nat) (arn : add_range),
           add_range_after sc qr n = Some arn
           /\ am_count (best (lsq_step sc qr totalcount ar' st)) = Z.of_nat n
           /\ (1 <= n)%nat
           /\ ar_minadd arn
              <= am_add (best (lsq_step sc qr totalcount ar' st))
              <= ar_maxadd arn)
      by (destruct (lsq_step_candidate qr totalcount ar' st Hord)
            as [-> | [Hn Hin]];
          [ exact Hbest
          | right; exists (S k), ar'; repeat split; try tauto; lia ]).
  - exact Hbest'.
  - apply (IH ar' _ (S k)); [ exact Hk' | lia | exact Hbest' ].
Qed.

(** X28: the candidate [calc_leastsquares] returns is the empty {0, 0}
    or has at least one step and an add inside the range of adds that
    [add_range_update] has left for its count: the least squares estimate
    is constrained to the valid range. *)
Theorem calc_leastsquares_stays_in_range (qr : queue_ref) (totalcount : Z) :
  qr_queue_end qr - qr_queue_pos qr < 2 ^ 31 ->
  let am := calc_leastsquares sc qr totalcount in
  am = mk_add_move 0 0
  \/ exists (n : nat) (arn : add_range),
       add_range_after sc qr n = Some arn
       /\ am_count am = Z.of_nat n /\ (1 <= n)%nat
       /\ ar_minadd arn <= am_add am <= ar_maxadd arn.
Proof.
  intros Hcells. unfold calc_leastsquares.
  destruct (lsq_setup _ sc qr 1 _) as [[cov2 var2] sum].
  apply (calc_leastsquares_loop_candidate qr totalcount _ Hcells _ _ 0%nat);
    try reflexivity.
  left. reflexivity.
Qed.

End Candidates.

(** ** The move clocks and the min_clock of the batch *)

Section MoveQueue.

Variable MAX_CLOCK : Z.
Variable move_clock : Z.

Lemma send_all_snoc (l : list queue_message) :
  forall (mc : list Z) (o : queue_message),
    send_all mc (l ++ [o])
    = (let '(mc1, batch) := send_all mc l in
       (if negb (min_clock o =? 0) then heap_replace mc1 (min_clock o)
        else mc1,
        batch ++ [mk_queue_message (msg o) (peek mc1 0) (req_clock o)])).
Proof.
  induction l as [| a tl IH]; intros mc o; cbn [app send_all].
  - reflexivity.
  - rewrite IH. now destruct (send_all _ tl).
Qed.

(** The merge batches queued messages as [send_all] does. *)
Lemma order_loop_sent (fuel : nat) (scs0 : list stepcompress)
    (mc0 : list Z) :
  forall (scs : list stepcompress) (mc : list Z) (msgs : list queue_message)
         (sent : list queue_message)
         (scs' : list stepcompress) (mc' : list Z)
         (out : list queue_message),
    order_loop fuel MAX_CLOCK move_clock scs mc msgs = (scs', mc', out) ->
    send_all mc0 sent = (mc, msgs) ->
    Forall (fun o => exists sc0, In sc0 scs0 /\ In o (msg_queue sc0)) sent ->
    (forall j sc m, scs !! j = Some sc -> In m (msg_queue sc) ->
       exists sc0, In sc0 scs0 /\ In m (msg_queue sc0)) ->
    exists originals,
      send_all mc0 originals = (mc', out)
      /\ Forall (fun o => exists sc0, In sc0 scs0 /\ In o (msg_queue sc0))
           originals.
Proof.
  induction fuel as [| fuel IH];
    intros scs mc msgs sent scs' mc' out Hrun Hsent Hqueued Hfrom;
    cbn [order_loop] in Hrun;
    destruct (find_lowest scs 0 MAX_CLOCK None) as [lowest [[i qm] |]] eqn:Hf;
    try (injection Hrun as <- <- <-; exists sent; auto);
    (destruct (negb (min_clock qm =? 0) && (lowest >? move_clock));
     [ injection Hrun as <- <- <-; exists sent; auto | ]);
    apply find_lowest_head in Hf as (-> & (sc & rest & Hi & Hq) & _);
    assert (Hsent' : send_all mc0 (sent ++ [qm])
                     = (if negb (min_clock qm =? 0)
                        then heap_replace mc (min_clock qm) else mc,
                        msgs ++ [mk_queue_message (msg qm) (peek mc 0)
                                   (req_clock qm)]))
      by (rewrite send_all_snoc, Hsent; reflexivity);
    assert (Hqueued' : Forall (fun o => exists sc0,
                                 In sc0 scs0 /\ In o (msg_queue sc0))
                         (sent ++ [qm]))
      by (apply Forall_app; split; [ exact Hqueued | ];
          repeat constructor; apply (Hfrom i sc qm Hi); rewrite Hq; now left).
  - injection Hrun as <- <- <-. exists (sent ++ [qm]). auto.
  - apply (IH _ _ _ (sent ++ [qm]) _ _ _ Hrun Hsent' Hqueued').
    intros j sc1 m Hj Hin.
    destruct (pop_msg_elements _ _ _ _ _ Hj Hin) as (sc0 & Hj0 & Hin0).
    eapply Hfrom; eassumption.
Qed.

(** X29: the batch of [steppersync_flush] and the move clocks it leaves
    are what batching queued messages one after the other gives: each
    message leaves with the first move clock of that time as its
    min_clock, and a message that uses the move queue (min_clock not 0)
    puts its min_clock into the heap by [heap_replace]. *)
Theorem steppersync_flush_rewrites_min_clock
    (ss ss' : steppersync) (batch : list queue_message) :
  steppersync_flush MAX_CLOCK ss move_clock = Ok (ss', batch) ->
  exists (scs : list stepcompress) (originals : list queue_message),
    flush_all (sc_list ss) move_clock = Ok scs
    /\ send_all (move_clocks ss) originals = (move_clocks ss', batch)
    /\ Forall (fun o => exists sc, In sc scs /\ In o (msg_queue sc))
         originals.
Proof.
  unfold steppersync_flush. intros Hrun.
  destruct (flush_all (sc_list ss) move_clock) as [scs |];
    cbn [bind] in Hrun; [ | discriminate ].
  destruct (order_loop _ MAX_CLOCK move_clock scs (move_clocks ss) [])
    as [[scs' mc'] out] eqn:Hloop.
  injection Hrun as <- <-. exists scs.
  apply (order_loop_sent _ scs (move_clocks ss) _ _ _ []) in Hloop
    as (originals & Hsend & Hqueued).
  - exists originals. auto.
  - reflexivity.
  - constructor.
  - intros j sc m Hj Hin. exists sc. split; [ | exact Hin ].
    apply list_elem_of_In. eapply list_elem_of_lookup_2. exact Hj.
Qed.

End MoveQueue.

(** ** Setting the time *)

Section SetTime.

(** X30: [steppersync_set_time] sets the clock conversion of every
    stepper and leaves the rest alone: the move clocks, the number of
    steppers and, of each stepper, the step queue, the pending step, the
    clock of the last step, the queued messages, the directions and the
    position; of the history it only drops entries from the old end. *)
Theorem steppersync_set_time_keeps_queues
    (ss : steppersync) (time_offset freq : double) :
  let ss' := steppersync_set_time ss time_offset freq in
  move_clocks ss' = move_clocks ss
  /\ Forall2
       (fun sc sc' =>
          mcu_time_offset sc' = time_offset /\ mcu_freq sc' = freq
          /\ queue sc' = queue sc /\ queue_pos sc' = queue_pos sc
          /\ queue_next sc' = queue_next sc
          /\ next_step_clock sc' = next_step_clock sc
          /\ next_step_dir sc' = next_step_dir sc
          /\ last_step_clock sc' = last_step_clock sc
          /\ last_interval sc' = last_interval sc
          /\ msg_queue sc' = msg_queue sc
          /\ sdir sc' = sdir sc /\ invert_sdir sc' = invert_sdir sc
          /\ last_position sc' = last_position sc
          /\ exists dropped, history_list sc = history_list sc' ++ dropped)
       (sc_list ss) (sc_list ss').
Proof.
  cbn zeta. unfold steppersync_set_time. cbn [move_clocks sc_list].
  split; [ reflexivity | ].
  induction (sc_list ss) as [| sc tl IH]; cbn [map]; constructor;
    [ | exact IH ].
  unfold stepcompress_set_time, calc_last_step_print_time.
  cbn [with_print_time with_time mcu_time_offset mcu_freq queue queue_pos
       queue_next next_step_clock next_step_dir last_step_clock last_interval
       msg_queue sdir invert_sdir last_position history_list].
  repeat (split; [ reflexivity | ]).
  destruct (PrimFloat.ltb _ _).
  - destruct (free_history_split (history_list sc)
                (to_u64 (of_u64 (last_step_clock sc)
                         - freq * HISTORY_EXPIRE)%float))
      as (dropped & Heq & _).
    exists dropped. exact Heq.
  - exists []. now rewrite app_nil_r.
Qed.

End SetTime.

(** ** The properties on the scenarios *)

Section HistoryScenarios.

Lemma find_past_position_constant_interval_witness :
  stepcompress_find_past_position scenario_two_moves 3500 = 3.
Proof.
  apply (find_past_position_constant_interval scenario_two_moves
           [mk_history_steps 5500 7000 5 4 500 0] []
           (mk_history_steps 1000 5000 0 5 1000 0) 3500).
  - reflexivity.
  - repeat constructor.
  - cbn. lia.
  - reflexivity.
  - reflexivity.
  - reflexivity.
Defined.

Lemma set_last_position_then_find_witness :
  exists sc',
    stepcompress_set_last_position (scenario_stepper 0) 1000 42 = Ok sc'
    /\ last_position sc' = 42
    /\ stepcompress_find_past_position sc' 1500 = 42.
Proof.
  eexists. split; [ reflexivity | ].
  destruct (set_last_position_then_find (scenario_stepper 0) _ 1000 42
              eq_refl ltac:(lia)) as [Hpos Hfind].
  split; [ exact Hpos | apply Hfind; lia ].
Defined.

Lemma extract_old_complete_witness :
  match scenario_markers with
  | Ok sc =>
      In (mk_history_steps 1000 1000 42 0 0 0)
        (stepcompress_extract_old sc 2 500 3000)
  | Err _ => False
  end.
Proof.
  destruct scenario_markers as [sc | e] eqn:Hsc;
    vm_compute in Hsc; [ injection Hsc as <- | discriminate ].
  apply (extract_old_complete _ 2 500 3000
           [mk_history_steps 2000 2000 77 0 0 0;
            mk_history_steps 1000 1000 42 0 0 0] []).
  - reflexivity.
  - repeat constructor.
  - cbn. lia.
  - right. left. reflexivity.
  - reflexivity.
Defined.

Lemma scenario_heap_is_heap : is_heap scenario_heap.
Proof.
  intros i j Hi Hj Hlen. cbn in Hlen.
  assert (Hcases : i = 0 \/ i = 1) by lia.
  destruct Hcases as [-> | ->], Hj as [-> | ->]; try lia;
    vm_compute; discriminate.
Qed.

Lemma heap_replace_keeps_heap_witness :
  heap_replace scenario_heap 35 = [20; 35; 30; 40]
  /\ is_heap (heap_replace scenario_heap 35)
  /\ peek (heap_replace scenario_heap 35) 0 <= 30.
Proof.
  destruct (heap_replace_keeps_heap scenario_heap 35 scenario_heap_is_heap)
    as (Hheap & _ & _ & Hlow).
  - vm_compute. discriminate.
  - split; [ reflexivity | ]. split; [ exact Hheap | ].
    apply Hlow. right. right. left. reflexivity.
Defined.

End HistoryScenarios.

Section FlushScenarios.

Lemma queue_flush_reaches_move_clock_witness :
  match scenario_S2 with
  | Ok sc =>
      exists sc',
        queue_flush sc 300 = Ok sc'
        /\ last_step_clock sc' = 747
        /\ (queue_next sc' <= queue_pos sc' \/ 300 <= last_step_clock sc')
  | Err _ => False
  end.
Proof.
  destruct scenario_S2 as [sc | e] eqn:Hsc;
    vm_compute in Hsc; [ injection Hsc as <- | discriminate ].
  match goal with
  | |- exists sc', queue_flush ?s ?c = _ /\ _ =>
      destruct (queue_flush s c) as [sc' | e] eqn:Hrun
  end.
  - exists sc'. split; [ reflexivity | ].
    pose proof (queue_flush_reaches_move_clock _ _ _ Hrun) as Hdone.
    vm_compute in Hrun. injection Hrun as <-.
    split; [ reflexivity | exact Hdone ].
  - vm_compute in Hrun. discriminate.
Defined.

Lemma commit_leaves_no_pending_step_witness :
  match scenario_pending with
  | Ok sc =>
      next_step_clock sc = 100
      /\ exists sc',
           stepcompress_commit sc = Ok sc'
           /\ next_step_clock sc' = 0
           /\ stepcompress_commit sc' = Ok sc'
           /\ sdir sc' = 1
  | Err _ => False
  end.
Proof.
  destruct scenario_pending as [sc | e] eqn:Hsc;
    vm_compute in Hsc; [ injection Hsc as <- | discriminate ].
  split; [ reflexivity | ].
  match goal with
  | |- exists sc', stepcompress_commit ?s = _ /\ _ =>
      destruct (stepcompress_commit s) as [sc' | e] eqn:Hrun
  end.
  - exists sc'. split; [ reflexivity | ].
    destruct (commit_leaves_no_pending_step _ _ Hrun)
      as (Hz & Hagain & _ & Hdir).
    split; [ exact Hz | ]. split; [ exact Hagain | ].
    apply Hdir. cbn. discriminate.
  - vm_compute in Hrun. discriminate.
Defined.

End FlushScenarios.

Section InterfaceScenarios.



Lemma queue_msg_goes_last_witness :
  match scenario_pending with
  | Ok sc =>
      exists sc',
        stepcompress_queue_msg sc [99; 0] = Ok sc'
        /\ next_step_clock sc' = 0
        /\ exists flushed,
             msg_queue sc'
             = flushed ++ [mk_queue_message [99; 0] 0 (last_step_clock sc')]
  | Err _ => False
  end.
Proof.
  destruct scenario_pending as [sc | e] eqn:Hsc;
    vm_compute in Hsc; [ injection Hsc as <- | discriminate ].
  match goal with
  | |- exists sc', stepcompress_queue_msg ?s ?d = _ /\ _ =>
      destruct (stepcompress_queue_msg s d) as [sc' | e] eqn:Hrun
  end; [ | vm_compute in Hrun; discriminate ].
  exists sc'. split; [ reflexivity | ].
  destruct (queue_msg_goes_last _ _ _ Hrun) as ((flushed & Hmsg) & Hz & _).
  split; [ apply Hz; vm_compute; discriminate | ].
  exists flushed. exact Hmsg.
Defined.

Lemma reset_postconditions_witness :
  match scenario_pending with
  | Ok sc =>
      exists sc',
        stepcompress_reset sc 5000 = Ok sc'
        /\ last_step_clock sc' = 5000
        /\ last_interval sc' = 0
        /\ sdir sc' = -1
        /\ next_step_clock sc' = 0
  | Err _ => False
  end.
Proof.
  destruct scenario_pending as [sc | e] eqn:Hsc;
    vm_compute in Hsc; [ injection Hsc as <- | discriminate ].
  match goal with
  | |- exists sc', stepcompress_reset ?s ?c = _ /\ _ =>
      destruct (stepcompress_reset s c) as [sc' | e] eqn:Hrun
  end; [ | vm_compute in Hrun; discriminate ].
  exists sc'. split; [ reflexivity | ].
  destruct (reset_postconditions _ _ _ Hrun) as (Hc & Hi & Hd & Hz & _).
  repeat split; try assumption. apply Hz. vm_compute. discriminate.
Defined.

Lemma operations_keep_setup_and_messages_witness :
  match scenario_S2 with
  | Ok sc =>
      exists sc',
        stepcompress_reset sc 5000 = Ok sc'
        /\ same_setup sc sc'
        /\ exists new, msg_queue sc' = msg_queue sc ++ new
  | Err _ => False
  end.
Proof.
  destruct scenario_S2 as [sc | e] eqn:Hsc;
    vm_compute in Hsc; [ injection Hsc as <- | discriminate ].
  match goal with
  | |- exists sc', stepcompress_reset ?s ?c = _ /\ _ =>
      destruct (stepcompress_reset s c) as [sc' | e] eqn:Hrun
  end; [ | vm_compute in Hrun; discriminate ].
  exists sc'. split; [ reflexivity | ].
  apply operations_keep_setup_and_messages.
  right. right. right. left. exists 5000. exact Hrun.
Defined.

End InterfaceScenarios.

Section SynchroniserScenarios.

Lemma steppersync_flush_keeps_heap_witness :
  match scenario_S5 with
  | Ok ss =>
      match steppersync_flush scenario_MAX_CLOCK ss 2000 with
      | Ok (ss', batch) =>
          is_heap (move_clocks ss') /\ num_move_clocks ss' = 4
          /\ move_clocks ss' = [0; 0; 900; 1000]
      | Err _ => False
      end
  | Err _ => False
  end.
Proof.
  destruct scenario_S5 as [ss | e] eqn:Hss;
    vm_compute in Hss; [ injection Hss as <- | discriminate ].
  match goal with
  | |- match ?r with _ => _ end =>
      destruct r as [[ss' batch] | e] eqn:Hrun
  end; [ | vm_compute in Hrun; discriminate ].
  destruct (steppersync_flush_keeps_heap _ _ _ _ _ Hrun)
    as (Hheap & Hnum & _).
  - intros i j Hi Hj Hlen. cbn in Hlen.
    assert (Hcases : i = 0 \/ i = 1) by lia.
    destruct Hcases as [-> | ->], Hj as [-> | ->]; try lia;
      vm_compute; discriminate.
  - repeat constructor; vm_compute; discriminate.
  - split; [ exact Hheap | ]. split; [ exact Hnum | ].
    vm_compute in Hrun. injection Hrun as <- _. reflexivity.
Defined.

Lemma steppersync_flush_sends_all_due_witness :
  match scenario_held_back with
  | Ok ss =>
      match steppersync_flush scenario_MAX_CLOCK ss 500 with
      | Ok (ss', batch) =>
          map msg batch = [[12; 0; 1]]
          /\ exists sc m rest,
               sc_list ss' !! 0%nat = Some sc /\ msg_queue sc = m :: rest
               /\ msg m = [11; 0; 87; 1; 0]
               /\ (scenario_MAX_CLOCK <= req_clock m
                   \/ exists i sci qm resti,
                        sc_list ss' !! i = Some sci
                        /\ msg_queue sci = qm :: resti
                        /\ min_clock qm <> 0
                        /\ 500 < req_clock qm <= req_clock m)
      | Err _ => False
      end
  | Err _ => False
  end.
Proof.
  destruct scenario_held_back as [ss | e] eqn:Hss;
    vm_compute in Hss; [ injection Hss as <- | discriminate ].
  match goal with
  | |- match ?r with _ => _ end =>
      destruct r as [[ss' batch] | e] eqn:Hrun
  end; [ | vm_compute in Hrun; discriminate ].
  pose proof (steppersync_flush_sends_all_due _ _ _ _ _ Hrun) as Hheld.
  vm_compute in Hrun. injection Hrun as <- <-.
  split; [ reflexivity | ].
  do 3 eexists. split; [ reflexivity | ]. split; [ reflexivity | ].
  split; [ reflexivity | ].
  eapply (Hheld 0%nat); reflexivity.
Defined.

Lemma steppersync_flush_holds_back_moves_witness :
  match scenario_held_back with
  | Ok ss =>
      match steppersync_flush scenario_MAX_CLOCK ss 2000 with
      | Ok (ss', batch) =>
          map msg batch = [[12; 0; 1]; [11; 0; 87; 1; 0]; [99; 0]]
          /\ exists originals,
               Forall2 batched_from originals batch
               /\ Forall (fun o => min_clock o <> 0 -> req_clock o <= 2000)
                    originals
      | Err _ => False
      end
  | Err _ => False
  end.
Proof.
  destruct scenario_held_back as [ss | e] eqn:Hss;
    vm_compute in Hss; [ injection Hss as <- | discriminate ].
  match goal with
  | |- match ?r with _ => _ end =>
      destruct r as [[ss' batch] | e] eqn:Hrun
  end; [ | vm_compute in Hrun; discriminate ].
  destruct (steppersync_flush_holds_back_moves _ _ _ _ _ Hrun)
    as (scs & originals & _ & Hfrom & Hdue).
  split; [ vm_compute in Hrun; injection Hrun as _ <-; reflexivity | ].
  exists originals. split; [ exact Hfrom | ].
  eapply Forall_impl; [ exact Hdue | ]. cbn. tauto.
Defined.

Lemma find_lowest_picks_first_lowest_witness :
  match scenario_tied with
  | Ok scs =>
      exists lowest qm,
        find_lowest scs 0 scenario_MAX_CLOCK None = (lowest, Some (0%nat, qm))
        /\ msg qm = [1]
        /\ forall j sc m rest,
             scs !! j = Some sc -> msg_queue sc = m :: rest ->
             req_clock qm <= req_clock m
  | Err _ => False
  end.
Proof.
  destruct scenario_tied as [scs | e] eqn:Hscs;
    vm_compute in Hscs; [ injection Hscs as <- | discriminate ].
  match goal with
  | |- exists lowest qm, find_lowest ?l ?i ?c ?o = _ /\ _ =>
      destruct (find_lowest l i c o) as [lowest [[k qm] |]] eqn:Hrun
  end; [ | vm_compute in Hrun; discriminate ].
  destruct (find_lowest_picks_first_lowest _ _ _ _ _ Hrun)
    as (_ & _ & _ & Hall & _).
  vm_compute in Hrun. injection Hrun as <- <- <-.
  do 2 eexists. split; [ reflexivity | ]. split; [ reflexivity | ].
  exact Hall.
Defined.

End SynchroniserScenarios.

Section CompressorScenarios.

Lemma wrap_compress_count_within_queue_witness :
  match scenario_S2 with
  | Ok sc =>
      count (wrap_compress sc) = 6
      /\ 1 <= count (wrap_compress sc)
           <= Z.min (queue_next sc - queue_pos sc) 46000
  | Err _ => False
  end.
Proof.
  destruct scenario_S2 as [sc | e] eqn:Hsc;
    vm_compute in Hsc; [ injection Hsc as <- | discriminate ].
  split; [ vm_compute; reflexivity | ].
  apply wrap_compress_count_within_queue. reflexivity.
Defined.

Lemma queue_flush_counts_every_step_witness :
  match scenario_S2 with
  | Ok sc =>
      exists sc',
        queue_flush sc UINT64_MAX = Ok sc'
        /\ in_use sc = 6 /\ in_use sc' = 0
        /\ last_position sc' = s64 (last_position sc + 1 * (6 - 0))
  | Err _ => False
  end.
Proof.
  destruct scenario_S2 as [sc | e] eqn:Hsc;
    vm_compute in Hsc; [ injection Hsc as <- | discriminate ].
  match goal with
  | |- exists sc', queue_flush ?s ?c = _ /\ _ =>
      destruct (queue_flush s c) as [sc' | e] eqn:Hrun
  end; [ | vm_compute in Hrun; discriminate ].
  exists sc'. split; [ reflexivity | ].
  destruct (queue_flush_counts_every_step _ _ _ Hrun) as [Hpos _].
  - cbn. lia.
  - cbn. lia.
  - vm_compute in Hrun. injection Hrun as <-.
    split; [ reflexivity | ]. split; [ reflexivity | exact Hpos ].
Defined.

Lemma add_range_update_exact_witness :
  match scenario_S2 with
  | Ok sc =>
      add_range_update sc add_range_init (qr_init sc 46000)
      = Some (mk_add_range 75 100 1)
      /\ match add_range_update sc add_range_init (qr_init sc 46000) with
         | Some ar' =>
             ar_minadd ar' <= 80 <= ar_maxadd ar'
             <-> ar_minadd add_range_init <= 80 <= ar_maxadd add_range_init
                 /\ 75 <= 0 * 1 + 80 * 1 <= 100
         | None => False
         end
  | Err _ => False
  end.
Proof.
  destruct scenario_S2 as [sc | e] eqn:Hsc;
    vm_compute in Hsc; [ injection Hsc as <- | discriminate ].
  split; [ vm_compute; reflexivity | ].
  match goal with
  | |- match add_range_update ?s ?ar ?qr with _ => _ end =>
      pose proof (add_range_update_exact s ar qr) as Hexact;
      destruct (add_range_update s ar qr) as [ar' |] eqn:Hrun
  end.
  - apply Hexact; vm_compute; split; discriminate || reflexivity.
  - vm_compute in Hrun. discriminate.
Defined.

Lemma calc_seq_is_two_ramp_clock_witness :
  calc_seq (mk_queue_ref 0 0 0 0 100) 10 (-5) 3 5 = 605.
Proof.
  rewrite calc_seq_is_two_ramp_clock by lia. reflexivity.
Defined.

Lemma queue_append_keeps_queued_steps_witness :
  match append_steps 2 1 1 (scenario_stepper 0) with
  | Ok sc =>
      queued_steps sc = [1]
      /\ exists sc', queue_append sc = Ok sc' /\ queued_steps sc' = [1; 2]
  | Err _ => False
  end.
Proof.
  destruct (append_steps 2 1 1 (scenario_stepper 0)) as [sc | e] eqn:Hsc;
    vm_compute in Hsc; [ injection Hsc as <- | discriminate ].
  split; [ reflexivity | ].
  match goal with
  | |- exists sc', queue_append ?s = _ /\ _ =>
      destruct (queue_append_keeps_queued_steps s)
        as (sc' & Hrun & Hcells & _)
  end.
  - reflexivity.
  - vm_compute. reflexivity.
  - vm_compute. split; discriminate.
  - vm_compute. discriminate.
  - vm_compute. reflexivity.
  - left. vm_compute. reflexivity.
  - exists sc'. split; [ exact Hrun | exact Hcells ].
Defined.

Lemma check_line_accepts_passing_moves_witness :
  match scenario_S2 with
  | Ok sc => check_line sc (mk_step_move 87 6 15) = Ok tt
  | Err _ => False
  end.
Proof.
  destruct scenario_S2 as [sc | e] eqn:Hsc;
    vm_compute in Hsc; [ injection Hsc as <- | discriminate ].
  apply check_line_accepts_passing_moves.
  - vm_compute. split; discriminate || reflexivity.
  - vm_compute. repeat split; discriminate.
  - split; [ vm_compute; discriminate | ].
    split; [ reflexivity | ].
    split; [ intros (_ & H & _); discriminate | ].
    intros k Hk. cbn [count] in Hk.
    assert (Hcases : (k = 1 \/ k = 2 \/ k = 3 \/ k = 4 \/ k = 5 \/ k = 6)%nat)
      by lia.
    destruct Hcases as [-> | [-> | [-> | [-> | [-> | ->]]]]];
      vm_compute; repeat split; discriminate || reflexivity.
  - intros k Hk. cbn [count] in Hk.
    assert (Hcases : k = 1 \/ k = 2 \/ k = 3 \/ k = 4 \/ k = 5 \/ k = 6)
      by lia.
    destruct Hcases as [-> | [-> | [-> | [-> | [-> | ->]]]]];
      vm_compute; discriminate.
  - intros k Hk. cbn [count] in Hk. unfold ramp_interval. cbn [interval add].
    lia.
Defined.

Lemma qr_after_move_matches_add_move_witness :
  let sc := scenario_at_1000 in
  last_step_clock
    (add_move sc (u64 (1000 + 100)) (mk_step_move 100 3 100)) = 1600
  /\ qr_last_step_clock
       (qr_after_move sc (qr_init sc 46000) (mk_add_move 100 3)) = 1600.
Proof.
  intros sc.
  destruct (qr_after_move_matches_add_move sc (qr_init sc 46000) 100 3)
    as [Hclock _]; try reflexivity; try (vm_compute; discriminate).
  - vm_compute. split; discriminate.
  - split; [ reflexivity | ]. rewrite <- Hclock. reflexivity.
Defined.

End CompressorScenarios.

Section CandidateScenarios.

Lemma add_range_scan_is_longest_witness :
  match scenario_ramp with
  | Ok sc =>
      add_range_scan sc (qr_init sc 46000) = mk_add_range 98 100 4
      /\ add_range_after sc (qr_init sc 46000) 4
         = Some (mk_add_range 98 100 4)
      /\ add_range_update sc (mk_add_range 98 100 4) (qr_init sc 46000)
         = None
  | Err _ => False
  end.
Proof.
  destruct scenario_ramp as [sc | e] eqn:Hsc;
    vm_compute in Hsc; [ injection Hsc as <- | discriminate ].
  match goal with
  | |- add_range_scan ?s ?q = ?r /\ _ =>
      assert (Hr : add_range_scan s q = r) by (vm_compute; reflexivity);
      destruct (add_range_scan_is_longest s q) as (Hafter & Hnone & _)
  end.
  - vm_compute. reflexivity.
  - rewrite Hr in Hafter, Hnone.
    split; [ exact Hr | ]. split; [ exact Hafter | exact Hnone ].
Defined.

Lemma calc_leastsquares_stays_in_range_witness :
  match scenario_ramp with
  | Ok sc =>
      calc_leastsquares sc (qr_init sc 46000) 6 = mk_add_move 100 4
      /\ exists arn,
           add_range_after sc (qr_init sc 46000) 4 = Some arn
           /\ ar_minadd arn <= 100 <= ar_maxadd arn
  | Err _ => False
  end.
Proof.
  destruct scenario_ramp as [sc | e] eqn:Hsc;
    vm_compute in Hsc; [ injection Hsc as <- | discriminate ].
  match goal with
  | |- calc_leastsquares ?s ?q ?tc = ?r /\ _ =>
      assert (Hr : calc_leastsquares s q tc = r) by (vm_compute; reflexivity);
      destruct (calc_leastsquares_stays_in_range s q tc)
        as [Hnone | (n & arn & Hafter & Hcount & _ & Hin)]
  end.
  - vm_compute. reflexivity.
  - rewrite Hr in Hnone. discriminate.
  - rewrite Hr in Hcount, Hin. cbn [am_count am_add] in Hcount, Hin.
    assert (Hn : n = 4%nat) by lia. subst n.
    split; [ exact Hr | ]. exists arn. split; [ exact Hafter | exact Hin ].
Defined.

End CandidateScenarios.

Section MoveQueueScenarios.

Lemma steppersync_flush_rewrites_min_clock_witness :
  match scenario_one_slot with
  | Ok ss =>
      match steppersync_flush scenario_MAX_CLOCK ss 2000 with
      | Ok (ss', batch) =>
          move_clocks ss = [0] /\ move_clocks ss' = [1000]
          /\ map min_clock batch = [0; 0; 900; 900]
          /\ exists originals,
               send_all (move_clocks ss) originals = (move_clocks ss', batch)
      | Err _ => False
      end
  | Err _ => False
  end.
Proof.
  destruct scenario_one_slot as [ss | e] eqn:Hss;
    vm_compute in Hss; [ injection Hss as <- | discriminate ].
  match goal with
  | |- match ?r with _ => _ end =>
      destruct r as [[ss' batch] | e] eqn:Hrun
  end; [ | vm_compute in Hrun; discriminate ].
  destruct (steppersync_flush_rewrites_min_clock _ _ _ _ _ Hrun)
    as (scs & originals & _ & Hsend & _).
  split; [ reflexivity | ].
  split; [ vm_compute in Hrun; injection Hrun as <- _; reflexivity | ].
  split; [ vm_compute in Hrun; injection Hrun as _ <-; reflexivity | ].
  exists originals. exact Hsend.
Defined.

End MoveQueueScenarios.
